(** * The starlet transform of lenstronomy

    A shallow embedding of [lenstronomy/LightModel/Profiles/starlets.py]
    (class [Starlets]) together with the parts of numpy and scipy it calls.

    - Floating-point numbers are idealised as exact rationals ([Qc], the
      canonical rationals, whose equality is Leibniz equality).  The filter
      taps 1/16, 1/4, 3/8, 1/2 are exact in both worlds.
    - Python integers are [Z]; lengths, loop counters and array positions
      that the code obtains from [range] or [np.shape] are [nat].
    - A numpy array is the nested list of its entries, row major.  A 2-D
      array is the list of its rows; [np.shape] is read off the nesting.
    - A Python call either returns or raises: [result].  [print] appends to
      the list of lines written to standard output.
    - The instance modelled is one for which [import pysap] fails, so that
      [_load_pysap] returns [False], [self._use_pysap] is [False] and the
      branches delegating to that backend are never taken. *)

From Stdlib Require Import String Ascii List ZArith QArith Qcanon Lia Bool Arith.
From Stdlib Require Import DecimalString Qround.
Import ListNotations.

Set Implicit Arguments.
Open Scope nat_scope.

(** ** Exceptions and results *)

Inductive exn : Type :=
| NameError (name : string)
| UnboundLocalError (name : string)
| ValueError (msg : string)
| TypeError
| IndexError
| OverflowError
| AttributeError (attr : string).

Inductive result (A : Type) : Type :=
| Ok (a : A)
| Raise (e : exn).

Arguments Ok {A} a.
Arguments Raise {A} e.

Definition bind {A B : Type} (r : result A) (k : A -> result B) : result B :=
  match r with
  | Ok a => k a
  | Raise e => Raise e
  end.

Notation "x <- r ;; k" := (bind r (fun x => k))
  (at level 61, r at next level, right associativity).

(** ** numpy *)

Module np.

(** Arrays of one to four dimensions. *)
Abbreviation vector := (list Qc) (only parsing).
Abbreviation matrix := (list (list Qc)) (only parsing).
Abbreviation cube := (list (list (list Qc))) (only parsing).
Abbreviation hypercube := (list (list (list (list Qc)))) (only parsing).

(** [np.zeros] for one to four dimensions. *)
Definition zeros1 (n : nat) : vector := repeat (0%Qc) n.
Definition zeros2 (n1 n2 : nat) : matrix := repeat (zeros1 n2) n1.
Definition zeros3 (n0 n1 n2 : nat) : cube := repeat (zeros2 n1 n2) n0.
Definition zeros4 (n0 n1 n2 n3 : nat) : hypercube := repeat (zeros3 n1 n2 n3) n0.

(** [np.shape]; on nested lists the inner extents are those of the first
    entry, and an array without rows has shape (0, 0). *)
Definition shape2 (a : matrix) : nat * nat :=
  (length a, length (hd [] a)).
Definition shape3 (a : cube) : nat * nat * nat :=
  (length a, length (hd [] a), length (hd [] (hd [] a))).

(** [a[r, c]] for positions inside the array. *)
Definition item2 (a : matrix) (r c : nat) : Qc := nth c (nth r a []) 0%Qc.

(** The array of shape (n1, n2) whose entry at (r, c) is [f r c]. *)
Definition tabulate2 (n1 n2 : nat) (f : nat -> nat -> Qc) : matrix :=
  map (fun r => map (f r) (seq 0 n2)) (seq 0 n1).

Fixpoint zip_with {A B C : Type} (f : A -> B -> C) (la : list A) (lb : list B) : list C :=
  match la, lb with
  | a :: la', b :: lb' => f a b :: zip_with f la' lb'
  | _, _ => []
  end.

(** [a - b] and [a + b] on 2-D arrays of one shape. *)
Definition subtract (a b : matrix) : matrix := zip_with (zip_with Qcminus) a b.
Definition add (a b : matrix) : matrix := zip_with (zip_with Qcplus) a b.

(** Sum of the entries of a 1-D array. *)
Definition sum (l : vector) : Qc := fold_right Qcplus 0%Qc l.

(** [np.sum(w, axis=0)]: the planes are added up one after the other. *)
Definition sum_axis0 (w : cube) : matrix :=
  match w with
  | [] => []
  | p :: rest => fold_left add rest p
  end.

(** [np.dot(a.T, b)] for two arrays of shape (1, n): the outer product. *)
Definition outer (a b : vector) : matrix :=
  map (fun x => map (fun y => (x * y)%Qc) b) a.

(** [np.linspace(start, stop, num, dtype=int)]: the samples
    start + k (stop - start) / (num - 1), truncated towards zero. *)
Definition linspace_int (start stop : Z) (num : nat) : list Z :=
  match num with
  | O => []
  | S O => [start]
  | _ =>
      let div := (Z.of_nat num - 1)%Z in
      map (fun k => Z.quot (start * div + Z.of_nat k * (stop - start)) div) (seq 0 num)
  end.

(** Python's treatment of an index into a sequence of length [n]:
    negative indices count from the end, anything else is out of range. *)
Definition index (n : nat) (k : Z) : option nat :=
  if ((0 <=? k) && (k <? Z.of_nat n))%Z then Some (Z.to_nat k)
  else if ((- Z.of_nat n <=? k) && (k <? 0))%Z then Some (Z.to_nat (Z.of_nat n + k))
  else None.

Fixpoint set_nth {A : Type} (i : nat) (x : A) (l : list A) : list A :=
  match l, i with
  | [], _ => []
  | _ :: l', O => x :: l'
  | y :: l', S i' => y :: set_nth i' x l'
  end.

(** [a[idx] = vals] with an integer index array. *)
Fixpoint put (a : vector) (idx : list Z) (vals : vector) : result vector :=
  match idx, vals with
  | [], [] => Ok a
  | k :: idx', v :: vals' =>
      match index (length a) k with
      | Some p => put (set_nth p v a) idx' vals'
      | None => Raise IndexError
      end
  | _, _ => Raise (ValueError "shape mismatch")
  end.

(** [int(np.log2(n))]: the logarithm of 0 is -inf, which [int] refuses. *)
Definition int_log2 (n : nat) : result Z :=
  match n with
  | O => Raise OverflowError
  | _ => Ok (Z.log2 (Z.of_nat n))
  end.

(** Broadcasting of a 2-D array to the shape (n1, n2): an extent must
    agree or be 1, in which case the single row or column is repeated. *)
Definition broadcast_to (src : matrix) (n1 n2 : nat) : result matrix :=
  let '(s1, s2) := shape2 src in
  if ((s1 =? n1) || (s1 =? 1))%nat && ((s2 =? n2) || (s2 =? 1))%nat
  then Ok (tabulate2 n1 n2 (fun r c =>
             item2 src (if (s1 =? n1)%nat then r else 0%nat)
                       (if (s2 =? n2)%nat then c else 0%nat)))
  else Raise (ValueError "could not broadcast input array").

(** [wave[i, :, :] = src] where the planes of [wave] have shape (n1, n2). *)
Definition setitem_plane (wave : cube) (i : nat) (src : matrix) (n1 n2 : nat) : result cube :=
  if (i <? length wave)%nat
  then p <- broadcast_to src n1 n2 ;; Ok (set_nth i p wave)
  else Raise IndexError.

(** [np.reshape(a, (n1, n2))]. *)
Definition reshape (a : matrix) (n1 n2 : nat) : result matrix :=
  let flat := concat a in
  if (length flat =? n1 * n2)%nat
  then Ok (tabulate2 n1 n2 (fun r c => nth (r * n2 + c) flat 0%Qc))
  else Raise (ValueError "cannot reshape array").

End np.

(** ** scipy.ndimage.filters *)

Module scf.

(** The boundary modes of scipy.ndimage, as its documentation draws them:
    - reflect  (d c b a | a b c d | d c b a)
    - constant (k k k k | a b c d | k k k k)
    - nearest  (a a a a | a b c d | d d d d)
    - mirror   (d c b | a b c d | c b a)
    - wrap     (a b c d | a b c d | a b c d) *)
Inductive mode : Type := reflect | constant | nearest | mirror | wrap.

(** The position inside a line of length [n] that supplies the sample at
    the (possibly outside) position [i]; [None] stands for the constant. *)
Definition extend (m : mode) (n : nat) (i : Z) : option nat :=
  let N := Z.of_nat n in
  match m with
  | nearest => Some (Z.to_nat (Z.max 0 (Z.min (N - 1) i)))
  | reflect =>
      let j := (i mod (2 * N))%Z in
      Some (Z.to_nat (if (j <? N)%Z then j else 2 * N - 1 - j)%Z)
  | mirror =>
      if (N <=? 1)%Z then Some 0%nat
      else
        let j := (i mod (2 * N - 2))%Z in
        Some (Z.to_nat (if (j <? N)%Z then j else 2 * N - 2 - j)%Z)
  | wrap => Some (Z.to_nat (i mod N)%Z)
  | constant => if ((0 <=? i) && (i <? N))%Z then Some (Z.to_nat i) else None
  end.

Definition sample (m : mode) (n : nat) (line : nat -> Qc) (i : Z) : Qc :=
  match extend m n i with
  | Some k => line k
  | None => 0%Qc
  end.

(** [correlate1d(input, weights, axis, mode=m, origin=origin)]:
    output[i] = sum_j weights[j] * input[i + j - len(weights)//2 - origin]
    along the given axis, the input extended as the mode says. *)
Definition correlate1d (input : np.matrix) (weights : np.vector) (axis : nat)
           (m : mode) (origin : Z) : np.matrix :=
  let '(n1, n2) := np.shape2 input in
  let size1 := Z.of_nat (length weights / 2) in
  np.tabulate2 n1 n2 (fun r c =>
    np.sum (map (fun j =>
      (nth j weights 0 *
       match axis with
       | O => sample m n1 (fun k => np.item2 input k c)
                       (Z.of_nat r + Z.of_nat j - size1 - origin)
       | _ => sample m n2 (fun k => np.item2 input r k)
                       (Z.of_nat c + Z.of_nat j - size1 - origin)
       end)%Qc) (seq 0 (length weights)))).

(** [convolve1d]: the weights are reversed, and the origin is moved by
    one for a filter of even length. *)
Definition convolve1d (input : np.matrix) (weights : np.vector) (axis : nat)
           (m : mode) : np.matrix :=
  let origin := if Nat.even (length weights) then (-1)%Z else 0%Z in
  correlate1d input (rev weights) axis m origin.

End scf.

(** ** scipy.signal *)

Module scs.

(** The position read by [convolve2d] with [boundary='symm'] for an index
    outside the array: one reflection about the border, the edge sample
    included. *)
Definition symm (n : nat) (i : Z) : nat :=
  let N := Z.of_nat n in
  Z.to_nat (if (i <? 0)%Z then - 1 - i else if (N <=? i)%Z then 2 * N - 1 - i else i)%Z.

(** [convolve2d(in1, in2, mode='same', boundary='symm')]: the central
    part, of the shape of [in1], of the full two-dimensional convolution. *)
Definition convolve2d (in1 in2 : np.matrix) : np.matrix :=
  let '(n1, n2) := np.shape2 in1 in
  let '(k1, k2) := np.shape2 in2 in
  let o1 := Z.of_nat ((k1 - 1) / 2) in
  let o2 := Z.of_nat ((k2 - 1) / 2) in
  np.tabulate2 n1 n2 (fun r c =>
    np.sum (map (fun a =>
      np.sum (map (fun b =>
        (np.item2 in2 a b *
         np.item2 in1 (symm n1 (Z.of_nat r + o1 - Z.of_nat a))
                      (symm n2 (Z.of_nat c + o2 - Z.of_nat b)))%Qc)
        (seq 0 k2))) (seq 0 k1))).

End scs.

(** ** The class [Starlets] *)

(** The attributes of an instance.  [_spectral_norm] and [_n_scales_cache]
    do not exist before the first call of [spectral_norm]: [None]. *)
Record Starlets : Type := {
  _thread_count : Z;
  _fast_inverse : bool;
  _second_gen : bool;
  _show_pysap_plots : bool;
  _spectral_norm : option Qc;
  _n_scales_cache : option Z
}.

Definition __init__ (thread_count : Z) (fast_inverse second_gen show_pysap_plots : bool) : Starlets :=
  {| _thread_count := thread_count;
     _fast_inverse := fast_inverse;
     _second_gen := second_gen;
     _show_pysap_plots := show_pysap_plots;
     _spectral_norm := None;
     _n_scales_cache := None |}.

(** An image handed to the transform: a 2-D array or a 3-D stack. *)
Inductive ndarray : Type :=
| Arr2 (a : np.matrix)
| Arr3 (a : np.cube).

(** What the decomposition returns: 3-D for an image, 4-D for a stack. *)
Inductive coefficients : Type :=
| Coeffs3 (w : np.cube)
| Coeffs4 (w : np.hypercube).

(** The names bound at the top level of the module starlets.py. *)
Definition module_globals : list string :=
  ["__author__"; "np"; "scs"; "scf"; "util"; "Starlets"]%string.

(** Evaluation of a global name. *)
Definition load_global (name : string) : result unit :=
  if existsb (String.eqb name) module_globals then Ok tt else Raise (NameError name).

Definition bspline : np.vector :=
  [Q2Qc (1 # 16); Q2Qc (1 # 4); Q2Qc (3 # 8); Q2Qc (1 # 4); Q2Qc (1 # 16)].

Definition linear : np.vector :=
  [Q2Qc (1 # 4); Q2Qc (1 # 2); Q2Qc (1 # 4)].

(** [h] as chosen by the keyword [Filter]. *)
Definition base_filter (Filter : string) : np.vector :=
  if String.eqb Filter "Bspline" then bspline else linear.

(** The dilated filter of scale [i] (lines 131-132 and 188-189):
<<
    newh = np.zeros((1, n+(n-1)*(2**i-1)))
    newh[0, np.linspace(0, np.size(newh)-1, len(h), dtype=int)] = h
>>
    Only the single row of [newh] is kept. *)
Definition newh (h : np.vector) (i : nat) : result np.vector :=
  let n := Z.of_nat (length h) in
  let size := (n + (n - 1) * (2 ^ Z.of_nat i - 1))%Z in
  if (size <? 0)%Z then Raise (ValueError "negative dimensions are not allowed")
  else np.put (np.zeros1 (Z.to_nat size))
              (np.linspace_int 0 (size - 1) (length h)) h.

(** The size [n+(n-1)*(2**i-1)] of the dilated filter. *)
Definition newh_size (n i : nat) : nat := n + (n - 1) * (2 ^ i - 1).

(** The positions of a filter that hold a non-zero tap. *)
Definition nonzero_positions (k : np.vector) : list nat :=
  filter (fun p => negb (Qc_eq_bool (nth p k 0%Qc) 0%Qc)) (seq 0 (length k)).

(** The local [mode] of both transforms. *)
Definition mode : scf.mode := scf.nearest.

(** One smoothing with the filter [nh]: the branch on [convol2d]. *)
Definition smooth (convol2d : Z) (c : np.matrix) (nh : np.vector) : np.matrix :=
  if (convol2d =? 1)%Z
  then scs.convolve2d c (np.outer nh nh)
  else scf.convolve1d (scf.convolve1d c nh 0 mode) nh 1 mode.

(** The loop [for i in range(lvl)] of [_transform_slit], over the scales
    still to be done, on the current [c] and [wave]. *)
Fixpoint transform_loop (second_gen : bool) (convol2d : Z) (h : np.vector)
         (n1 n2 : nat) (scales : list nat) (c : np.matrix) (wave : np.cube)
  : result (np.matrix * np.cube) :=
  match scales with
  | [] => Ok (c, wave)
  | i :: rest =>
      nh <- newh h i ;;
      let cnew := smooth convol2d c nh in
      let detail :=
        if second_gen
        then np.subtract c (smooth convol2d cnew nh)
        else np.subtract c cnew in
      wave' <- np.setitem_plane wave i detail n1 n2 ;;
      transform_loop second_gen convol2d h n1 n2 rest cnew wave'
  end.

Definition format_int (z : Z) : string := NilZero.string_of_int (Z.to_int z).

(** [_transform_slit(self, img, n_scales, Filter, convol2d)]: the lines
    printed and the outcome. *)
Definition _transform_slit (self : Starlets) (img : ndarray) (n_scales : Z)
           (Filter : string) (convol2d : Z) : list string * result coefficients :=
  let lvl := (n_scales - 1)%Z in
  match img with
  | Arr3 a =>
      let '(s0, s1, s2) := np.shape3 a in
      let mn := Nat.min s0 (Nat.min s1 s2) in
      ([],
       if (lvl + 1 <? 0)%Z then Raise (ValueError "negative dimensions are not allowed")
       else
         let wave := np.zeros4 (Z.to_nat (lvl + 1)) s1 s1 mn in
         match mn with
         | O => Ok (Coeffs4 wave)
         | S _ =>
             (* first pass of [for h in range(mn)]: the callee is looked up *)
             _ <- load_global "wave_transform" ;;
             Raise TypeError
         end)
  | Arr2 a =>
      let sh := np.shape2 a in
      let n1 := snd sh in
      let n2 := snd sh in
      let h := base_filter Filter in
      match np.int_log2 n2 with
      | Raise e => ([], Raise e)
      | Ok l2 =>
          let max_lvl := Z.min lvl l2 in
          let capped := (max_lvl <? lvl)%Z in
          let lvl := if capped then max_lvl else lvl in
          (if capped then [("Warning : lvl set to " ++ format_int lvl)%string] else [],
           if (lvl + 1 <? 0)%Z then Raise (ValueError "negative dimensions are not allowed")
           else
             let wave := np.zeros3 (Z.to_nat (lvl + 1)) n1 n2 in
             cw <- transform_loop (_second_gen self) convol2d h n1 n2
                                  (seq 0 (Z.to_nat lvl)) a wave ;;
             match Z.to_nat lvl with
             | O => Raise (UnboundLocalError "i")
             | S i => wave' <- np.setitem_plane (snd cw) (i + 1) (fst cw) n1 n2 ;;
                      Ok (Coeffs3 wave')
             end)
      end
  end.

(** The loop [for i in range(1, lvl)] of [_inverse_transform_slit]. *)
Fixpoint inverse_loop (convol2d : Z) (h : np.vector) (lvl : nat)
         (steps : list nat) (wave : np.cube) (cJ : np.matrix) : result np.matrix :=
  match steps with
  | [] => Ok cJ
  | i :: rest =>
      nh <- newh h (lvl - 1 - i) ;;
      let cnew := smooth convol2d cJ nh in
      inverse_loop convol2d h lvl rest wave (np.add cnew (nth (lvl - 1 - i) wave []))
  end.

(** [_inverse_transform_slit(self, wave, convol2d)].

    Arrays of any size are taken to exist.  In the code the filter of the
    first pass has 2^lvl + 1 entries for a cube of lvl planes, and
    [H = np.dot(newh.T, newh)], which is built in both paths, has the
    square of that: from some tens of planes on [np.dot] or [np.zeros]
    raise.  Statements on the recursion therefore bound the number of
    planes. *)
Definition _inverse_transform_slit (self : Starlets) (wave : np.cube) (convol2d : Z)
  : result np.matrix :=
  if _fast_inverse self && negb (_second_gen self)
  then Ok (np.sum_axis0 wave)
  else
    let '(lvl, n1, n2) := np.shape3 wave in
    match lvl with
    | O => Raise IndexError
    | S _ =>
        let cJ := nth (lvl - 1) wave [] in
        cJ' <- inverse_loop convol2d bspline lvl (seq 1 (lvl - 1)) wave cJ ;;
        np.reshape cJ' n1 n2
    end.

(** [function(self, coeffs, n_scales)]. *)
Definition function (self : Starlets) (coeffs : np.cube) (n_scales : Z) : result np.matrix :=
  _inverse_transform_slit self coeffs 0.

(** [decomposition(self, image, n_scales)]. *)
Definition decomposition (self : Starlets) (image : ndarray) (n_scales : Z)
  : list string * result coefficients :=
  _transform_slit self image n_scales "Bspline" 0.

(** ** The cached spectral norm

    [lenstronomy.Util.util.spectral_norm] is not part of the sources at
    hand; it is taken as a parameter.  Its first argument stands for the
    state of numpy's random generator, from which the power iteration draws
    its starting image. *)

Section SpectralNorm.

Variable util_spectral_norm :
  nat -> Z -> (ndarray -> list string * result coefficients) ->
  (np.cube -> result np.matrix) -> Z -> Qc -> result Qc.

(** The calls of [_compute_spectral_norm] made so far, with their
    arguments (num_pix, n_scales). *)
Definition trace := list (Z * Z).

Definition _compute_spectral_norm (self : Starlets) (tr : trace)
           (num_pix n_scales : Z) (num_iter : Z) (tol : Qc) : result Qc :=
  let operator := fun x => decomposition self x n_scales in
  let inverse_operator := fun c => function self c n_scales in
  util_spectral_norm (length tr) num_pix operator inverse_operator num_iter tol.

(** [hasattr(self, '_spectral_norm')] and the comparison with the cached
    [n_scales]; the second is only evaluated when the attribute exists. *)
Definition cache_is_stale (self : Starlets) (n_scales : Z) : result bool :=
  match _spectral_norm self with
  | None => Ok true
  | Some _ =>
      match _n_scales_cache self with
      | None => Raise (AttributeError "_n_scales_cache")
      | Some k => Ok (negb (n_scales =? k)%Z)
      end
  end.

(** [spectral_norm(self, num_pix, n_scales)]: outcome, instance and trace
    after the call. *)
Definition spectral_norm (self : Starlets) (tr : trace) (num_pix n_scales : Z)
  : result Qc * Starlets * trace :=
  match cache_is_stale self n_scales with
  | Raise e => (Raise e, self, tr)
  | Ok true =>
      let tr' := tr ++ [(num_pix, n_scales)] in
      match _compute_spectral_norm self tr num_pix n_scales 20
                                   (Q2Qc (1 # 10000000000)) with
      | Raise e => (Raise e, self, tr')
      | Ok v =>
          (Ok v,
           {| _thread_count := _thread_count self;
              _fast_inverse := _fast_inverse self;
              _second_gen := _second_gen self;
              _show_pysap_plots := _show_pysap_plots self;
              _spectral_norm := Some v;
              _n_scales_cache := Some n_scales |},
           tr')
      end
  | Ok false =>
      match _spectral_norm self with
      | Some v => (Ok v, self, tr)
      | None => (Raise (AttributeError "_spectral_norm"), self, tr)
      end
  end.

(** A series of calls of [spectral_norm], one after the other, with the
arguments (num_pix, n_scales) listed. *)
Fixpoint spectral_norm_calls (self : Starlets) (tr : trace) (args : list (Z * Z))
  : list (result Qc) * Starlets * trace :=
  match args with
  | [] => ([], self, tr)
  | (num_pix, n_scales) :: rest =>
      let '(r, self', tr') := spectral_norm self tr num_pix n_scales in
      let '(rs, self'', tr'') := spectral_norm_calls self' tr' rest in
      (r :: rs, self'', tr'')
  end.

End SpectralNorm.

(** ** The planes in closed form

    The quantities of the à trous recursion, written as functions of the
    image; the loops are related to them below. *)

(** The filter of scale [i], once built. *)
Definition dilated (h : np.vector) (i : nat) : np.vector :=
  match newh h i with
  | Ok k => k
  | Raise _ => []
  end.

(** c_{i+1} from c_i: one smoothing at scale [i]. *)
Definition next_c (convol2d : Z) (h : np.vector) (i : nat) (c : np.matrix) : np.matrix :=
  smooth convol2d c (dilated h i).

(** The detail plane w_i from c_i, in either generation. *)
Definition detail (second_gen : bool) (convol2d : Z) (h : np.vector) (i : nat)
           (c : np.matrix) : np.matrix :=
  let cnew := next_c convol2d h i c in
  if second_gen
  then np.subtract c (next_c convol2d h i cnew)
  else np.subtract c cnew.

(** c after the smoothings of scales i0, i0+1, ..., i0+len-1. *)
Fixpoint coarse (convol2d : Z) (h : np.vector) (i0 len : nat) (c : np.matrix) : np.matrix :=
  match len with
  | O => c
  | S len' => coarse convol2d h (S i0) len' (next_c convol2d h i0 c)
  end.

(** The cube [w_0, ..., w_{L-1}, c_L]. *)
Definition planes (second_gen : bool) (convol2d : Z) (h : np.vector) (L : nat)
           (img : np.matrix) : np.cube :=
  map (fun j => detail second_gen convol2d h j (coarse convol2d h 0 j img)) (seq 0 L)
  ++ [coarse convol2d h 0 L img].

(** The number of detail scales really computed for [n_scales] on an image
    of width [n2]: [np.min((lvl, int(np.log2(n2))))]. *)
Definition effective_lvl (n_scales : Z) (n2 : nat) : nat :=
  Z.to_nat (Z.min (n_scales - 1) (Z.log2 (Z.of_nat n2))).

(** What is printed when the level is reduced to [L]. *)
Definition warning (L : nat) : string :=
  ("Warning : lvl set to " ++ format_int (Z.of_nat L))%string.

(** ** Concrete data *)

Definition qz (z : Z) : Qc := Q2Qc (inject_Z z).

(** An array with integer entries. *)
Definition of_ints (m : list (list Z)) : np.matrix := map (map qz) m.

(** [Starlets()] and [Starlets(second_gen=True)]. *)
Definition default_instance : Starlets := __init__ 1 true false false.
Definition second_gen_instance : Starlets := __init__ 1 true true false.

(** A 4x4 image with a single bright pixel next to a corner, a 4x8 image
    and a 5x5 image. *)
Definition corner_image : np.matrix :=
  of_ints [[0; 16; 0; 0]; [0; 0; 0; 0]; [0; 0; 0; 0]; [0; 0; 0; 0]]%Z.

Definition wide_image : np.matrix :=
  of_ints [[1; 2; 3; 4; 5; 6; 7; 8]; [8; 7; 6; 5; 4; 3; 2; 1];
           [1; 3; 5; 7; 2; 4; 6; 8]; [2; 4; 6; 8; 1; 3; 5; 7]]%Z.

Definition image5 : np.matrix :=
  of_ints [[1; 2; 3; 4; 5]; [6; 7; 8; 9; 10]; [11; 12; 13; 14; 15];
           [16; 17; 18; 19; 20]; [21; 22; 23; 24; 25]]%Z.

(** Decidable comparison of arrays and of outcomes. *)
Fixpoint array_eqb {A : Type} (eqb : A -> A -> bool) (l1 l2 : list A) : bool :=
  match l1 with
  | [] => match l2 with [] => true | _ :: _ => false end
  | x :: l1' =>
      match l2 with
      | [] => false
      | y :: l2' => eqb x y && array_eqb eqb l1' l2'
      end
  end.

Definition matrix_eqb : np.matrix -> np.matrix -> bool := array_eqb (array_eqb Qc_eq_bool).

Definition returns (r : result np.matrix) (m : np.matrix) : bool :=
  match r with
  | Ok a => matrix_eqb a m
  | Raise _ => false
  end.

(** ** Boundary handling, in words

    [clamp n i] is the position inside a line of length [n] nearest to [i]:
    what the mode 'nearest' reads. *)
Definition clamp (n : nat) (i : Z) : nat :=
  Z.to_nat (Z.max 0 (Z.min (Z.of_nat n - 1) i)).

(** Following the specification: a smoothing, rows then columns, whose
    boundary policy is the reflection that does not repeat the edge sample
    ("mirror"). *)
Definition smooth_mirror (c : np.matrix) (nh : np.vector) : np.matrix :=
  scf.convolve1d (scf.convolve1d c nh 0 scf.mirror) nh 1 scf.mirror.

(** ** Arrays used in the statements *)

(** [x * a + y * b], entry by entry, for two arrays of one shape. *)
Definition lincomb (x y : Qc) (a b : np.matrix) : np.matrix :=
  np.zip_with (np.zip_with (fun u v => (x * u + y * v)%Qc)) a b.

(** [np.full((n1, n2), x)]: the constant array. *)
Definition full (n1 n2 : nat) (x : Qc) : np.matrix := repeat (repeat x n2) n1.

(** * Observation settings

    [lenstronomy/SimulationAPI/ObservationConfig/Euclid.py] and
    [lenstronomy/SimulationAPI/observation_api.py]. *)

(** ** Python values, dictionaries and outcomes *)

Module py.

Inductive exception : Type :=
| ValueError (msg : string)
| KeyError (key : string)
| TypeError
| ZeroDivisionError.

Inductive outcome (A : Type) : Type :=
| Return (a : A)
| Throw (e : exception).

Arguments Return {A} a.
Arguments Throw {A} e.

(** The values the dictionaries of the settings hold. *)
Inductive value : Type :=
| Float (q : Qc)
| Int (z : Z)
| Str (s : string).

(** A dictionary with string keys, in insertion order. *)
Abbreviation dict := (list (string * value)) (only parsing).

(** [d[key]], when the key is there. *)
Fixpoint get (d : dict) (key : string) : option value :=
  match d with
  | [] => None
  | (k, v) :: d' => if String.eqb k key then Some v else get d' key
  end.

(** [d[key] = v]: the entry is replaced where it stands, or appended. *)
Fixpoint set (d : dict) (key : string) (v : value) : dict :=
  match d with
  | [] => [(key, v)]
  | (k, u) :: d' =>
      if String.eqb k key then (k, v) :: d' else (k, u) :: set d' key v
  end.

End py.

(** ** Euclid.py *)

Module Euclid.

(** The module-level dictionary [VIS_obs] when the module is loaded. *)
Definition VIS_obs : py.dict :=
  [("exposure_time", py.Float (Q2Qc 565));
   ("sky_brightness", py.Float (Q2Qc (2235 # 100)));
   ("magnitude_zero_point", py.Float (Q2Qc 24));
   ("num_exposures", py.Int 4);
   ("seeing", py.Float (Q2Qc (16 # 100)));
   ("psf_type", py.Str "GAUSSIAN")]%string.

(** The one dictionary object that [self.obs = VIS_obs] refers to: the
    assignment copies nothing, every instance holds this reference. *)
Inductive reference : Type := to_VIS_obs.

(** An instance: [obs] refers to the module-level dictionary, [camera] is
    a dictionary of the instance. *)
Record instance : Type := {
  obs : reference;
  camera : py.dict
}.

(** What a reference stands for, given the module-level dictionary as it
    is now. *)
Definition deref (vis_obs : py.dict) (r : reference) : py.dict :=
  match r with
  | to_VIS_obs => vis_obs
  end.

(** [(coadd_years * v) // 6] for the value found under "num_exposures". *)
Definition scaled_exposures (coadd_years : Z) (v : py.value) : py.outcome py.value :=
  match v with
  | py.Int k => py.Return (py.Int ((coadd_years * k) / 6))
  | py.Float q =>
      py.Return (py.Float (Q2Qc (inject_Z (Qfloor (inject_Z coadd_years * q / 6)))))
  | py.Str _ => py.Throw py.TypeError
  end.

(** [Euclid(band, psf_type, coadd_years)] run against the module-level
    dictionary as it is: the outcome and the dictionary afterwards. *)
Definition __init__ (vis_obs : py.dict) (band psf_type : string) (coadd_years : Z)
  : py.outcome instance * py.dict :=
  if negb (String.eqb band "VIS")
  then (py.Throw (py.ValueError
                    ("band " ++ band ++ " not supported! Choose 'VIS'.")%string),
        vis_obs)
  else if negb (String.eqb psf_type "GAUSSIAN")
  then (py.Throw (py.ValueError ("psf_type " ++ psf_type ++ " not supported!")%string),
        vis_obs)
  else if ((6 <? coadd_years) || (coadd_years <? 2))%Z
  then (py.Throw (py.ValueError
                    (" " ++ format_int coadd_years
                     ++ " coadd_years not supported! Choose an integer between 2 and 6.")%string),
        vis_obs)
  else
    let self :=
      {| obs := to_VIS_obs;
         camera := [("read_noise", py.Float (Q2Qc (42 # 10)));
                    ("pixel_scale", py.Float (Q2Qc (101 # 1000)));
                    ("ccd_gain", py.Float (Q2Qc (31 # 10)))]%string |} in
    if negb (coadd_years =? 6)%Z
    then
      match py.get vis_obs "num_exposures" with
      | None => (py.Throw (py.KeyError "num_exposures"), vis_obs)
      | Some v =>
          match scaled_exposures coadd_years v with
          | py.Throw e => (py.Throw e, vis_obs)
          | py.Return v' => (py.Return self, py.set vis_obs "num_exposures" v')
          end
      end
    else (py.Return self, vis_obs).

(** The dictionary after the constructions [Euclid(coadd_years=c)], one
    for each [c] of the list, in order. *)
Fixpoint constructions (vis_obs : py.dict) (years : list Z) : py.dict :=
  match years with
  | [] => vis_obs
  | c :: rest => constructions (snd (__init__ vis_obs "VIS" "GAUSSIAN" c)) rest
  end.

End Euclid.

(** ** observation_api.py

    Numbers handed to the classes are Python floats (idealised as exact
    rationals) or [None]; [num_exposures] is a Python integer. *)

Module observation_api.

(** *** class Instrument *)

Record Instrument : Type := {
  ccd_gain : option Qc;
  _read_noise : option Qc;
  pixel_scale : Qc
}.

(** [Instrument(pixel_scale, read_noise, ccd_gain)]; [float(ccd_gain)]
    leaves a float as it is. *)
Definition Instrument__init__ (pixel_scale : Qc) (read_noise ccd_gain : option Qc)
  : Instrument :=
  {| ccd_gain := ccd_gain; _read_noise := read_noise; pixel_scale := pixel_scale |}.

(** *** class Observation *)

Record Observation : Type := {
  _exposure_time : Qc;
  _sky_brightness : option Qc;
  _num_exposures : Z;
  _seeing : option Qc;
  _psf_type : string;
  _truncation : Qc;
  _kernel_point_source : option np.matrix
}.

Definition Observation__init__ (exposure_time : Qc) (sky_brightness seeing : option Qc)
           (num_exposures : Z) (psf_type : string)
           (kernel_point_source : option np.matrix) (truncation : Qc) : Observation :=
  {| _exposure_time := exposure_time;
     _sky_brightness := sky_brightness;
     _num_exposures := num_exposures;
     _seeing := seeing;
     _psf_type := psf_type;
     _truncation := truncation;
     _kernel_point_source := kernel_point_source |}.

(** [x if x is not None else old], for an attribute that cannot be [None]
    and for one that can. *)
Definition updated {A : Type} (new : option A) (old : A) : A :=
  match new with
  | Some x => x
  | None => old
  end.

Definition updated_opt {A : Type} (new : option A) (old : option A) : option A :=
  match new with
  | Some x => Some x
  | None => old
  end.

(** [update_observation(exposure_time, sky_brightness, seeing,
    num_exposures, psf_type, kernel_point_source)]. *)
Definition update_observation (self : Observation)
           (exposure_time sky_brightness seeing : option Qc) (num_exposures : option Z)
           (psf_type : option string) (kernel_point_source : option np.matrix)
  : Observation :=
  {| _exposure_time := updated exposure_time (_exposure_time self);
     _sky_brightness := updated_opt sky_brightness (_sky_brightness self);
     _num_exposures := updated num_exposures (_num_exposures self);
     _seeing := updated_opt seeing (_seeing self);
     _psf_type := updated psf_type (_psf_type self);
     _truncation := _truncation self;
     _kernel_point_source :=
       updated_opt kernel_point_source (_kernel_point_source self) |}.

(** The property [exposure_time]: the summed exposure time. *)
Definition exposure_time (self : Observation) : Qc :=
  (_exposure_time self * Q2Qc (inject_Z (_num_exposures self)))%Qc.

(** The keyword arguments [kwargs_psf] that [psf_class] builds for [PSF]:
    the dictionary has one of three layouts, chosen by its "psf_type". *)
Inductive kwargs_psf : Type :=
| GAUSSIAN (fwhm : option Qc) (truncation : Qc)
| PIXEL (kernel_point_source : np.matrix)
| NONE.

(** The body of the property [psf_class] up to the call of [PSF]. *)
Definition psf_kwargs (self : Observation) : py.outcome kwargs_psf :=
  if String.eqb (_psf_type self) "GAUSSIAN"
  then py.Return (GAUSSIAN (_seeing self) (_truncation self))
  else if String.eqb (_psf_type self) "PIXEL"
  then
    match _kernel_point_source self with
    | Some kernel => py.Return (PIXEL kernel)
    | None => py.Throw (py.ValueError
                          "You need to create the class instance with a psf_model!")
    end
  else if String.eqb (_psf_type self) "NONE"
  then py.Return NONE
  else py.Throw (py.ValueError ("psf_type " ++ _psf_type self ++ " not supported!")%string).

Section PSF.

(** The class [lenstronomy.Data.psf.PSF] is not part of the sources at
    hand: its constructor is a parameter, which returns an instance or
    raises. *)
Variable PSF_instance : Type.
Variable PSF : kwargs_psf -> py.outcome PSF_instance.

(** The property [psf_class]: the keyword arguments are built, or the
    method raises; then [PSF] is called with them and its outcome is the
    outcome of the property. *)
Definition psf_class (self : Observation) : py.outcome PSF_instance :=
  match psf_kwargs self with
  | py.Return kwargs => PSF kwargs
  | py.Throw e => py.Throw e
  end.

End PSF.

(** *** class SingleBand(Instrument, Observation) *)

Record SingleBand : Type := {
  instrument : Instrument;
  observation : Observation;
  _data_count_unit : string;
  _background_noise : option Qc;
  _magnitude_zero_point : Qc
}.

Definition SingleBand__init__ (pixel_scale exposure_time magnitude_zero_point : Qc)
           (read_noise ccd_gain sky_brightness seeing : option Qc) (num_exposures : Z)
           (psf_type : string) (kernel_point_source : option np.matrix)
           (truncation : Qc) (data_count_unit : string) (background_noise : option Qc)
  : py.outcome SingleBand :=
  let i := Instrument__init__ pixel_scale read_noise ccd_gain in
  let o := Observation__init__ exposure_time sky_brightness seeing num_exposures
                               psf_type kernel_point_source truncation in
  if String.eqb data_count_unit "e-" || String.eqb data_count_unit "ADU"
  then py.Return {| instrument := i; observation := o;
                    _data_count_unit := data_count_unit;
                    _background_noise := background_noise;
                    _magnitude_zero_point := magnitude_zero_point |}
  else py.Throw (py.ValueError
                   ("count_unit type " ++ data_count_unit
                    ++ " not supported! Please chose e- or ADU.")%string).

(** [a / b] on Python floats, either of which may be [None]. *)
Definition truediv (a b : option Qc) : py.outcome Qc :=
  match a, b with
  | Some x, Some y =>
      if Qc_eq_bool y 0 then py.Throw py.ZeroDivisionError else py.Return (x / y)%Qc
  | _, _ => py.Throw py.TypeError
  end.

(** [a * b] on Python floats, either of which may be [None]. *)
Definition mul (a b : option Qc) : py.outcome Qc :=
  match a, b with
  | Some x, Some y => py.Return (x * y)%Qc
  | _, _ => py.Throw py.TypeError
  end.

(** The property [read_noise]. *)
Definition read_noise (self : SingleBand) : py.outcome Qc :=
  match _read_noise (instrument self) with
  | None => py.Throw (py.ValueError "read_noise is not specified!")
  | Some rn =>
      if String.eqb (_data_count_unit self) "ADU"
      then truediv (Some rn) (ccd_gain (instrument self))
      else py.Return rn
  end.

(** The property [scaled_exposure_time]. *)
Definition scaled_exposure_time (self : SingleBand) : py.outcome Qc :=
  if String.eqb (_data_count_unit self) "ADU"
  then mul (ccd_gain (instrument self)) (Some (exposure_time (observation self)))
  else py.Return (exposure_time (observation self)).

Section DataUtil.

(** [lenstronomy.Util.data_util] is not part of the sources at hand: its
    two functions are parameters. *)
Variable data_util_magnitude2cps : Qc -> Qc -> Qc.
Variable data_util_bkg_noise : Qc -> Qc -> Qc -> Qc -> Z -> Qc.

(** The method [magnitude2cps(magnitude)]. *)
Definition magnitude2cps (self : SingleBand) (magnitude : Qc) : py.outcome Qc :=
  let cps := data_util_magnitude2cps magnitude (_magnitude_zero_point self) in
  if String.eqb (_data_count_unit self) "e-"
  then mul (Some cps) (ccd_gain (instrument self))
  else py.Return cps.

(** The property [sky_brightness]. *)
Definition sky_brightness (self : SingleBand) : py.outcome Qc :=
  match _sky_brightness (observation self) with
  | None => py.Throw (py.ValueError "sky_brightness is not set in the class instance!")
  | Some m =>
      let cps := data_util_magnitude2cps m (_magnitude_zero_point self) in
      if String.eqb (_data_count_unit self) "e-"
      then mul (Some cps) (ccd_gain (instrument self))
      else py.Return cps
  end.

(** The text of the warning of [background_noise]; chr(34) is the double
    quote. *)
Definition read_noise_not_used : string :=
  ("read noise is specified but not used for noise properties. background noise is estimated from "
   ++ String (Ascii.ascii_of_nat 34) "background_noise"
   ++ String (Ascii.ascii_of_nat 34) " argument")%string.

(** The property [background_noise]: the warnings issued and the outcome. *)
Definition background_noise (self : SingleBand) : list string * py.outcome Qc :=
  match _background_noise self with
  | None =>
      match _read_noise (instrument self) with
      | None => ([], py.Throw (py.ValueError
                   "read_noise is not specified to evaluate background noise!"))
      | Some _ =>
          match read_noise self with
          | py.Throw e => ([], py.Throw e)
          | py.Return rn =>
              match sky_brightness self with
              | py.Throw e => ([], py.Throw e)
              | py.Return sky =>
                  ([], py.Return (data_util_bkg_noise
                                    rn (_exposure_time (observation self)) sky
                                    (pixel_scale (instrument self))
                                    (_num_exposures (observation self))))
              end
          end
      end
  | Some b =>
      (match _read_noise (instrument self) with
       | Some _ =>
           [read_noise_not_used]
       | None => []
       end,
       py.Return b)
  end.

End DataUtil.

End observation_api.

(** * The kinematic likelihood

    [lenstronomy/Sampling/Likelihoods/kinematic_2D_likelihood.py], method
    [_logL].  Its arrays can hold the special values of IEEE arithmetic,
    which decide what the method returns; finite arithmetic is idealised as
    exact, and the sign of zero is not kept (every divisor of [_logL] is a
    square, hence never a negative zero).  In float64 a finite result can
    also overflow to an infinity or underflow to zero, which the exact
    operations below do not do: a statement whose truth depends on it
    keeps its finite values in a range where neither happens. *)

Module kinematic.

Inductive float64 : Type :=
| Fin (q : Qc)
| PInf
| NInf
| NaN.

(** [np.isfinite]. *)
Definition isfinite (x : float64) : bool :=
  match x with
  | Fin _ => true
  | _ => false
  end.

Definition add (a b : float64) : float64 :=
  match a, b with
  | NaN, _ | _, NaN => NaN
  | Fin x, Fin y => Fin (x + y)
  | PInf, NInf | NInf, PInf => NaN
  | PInf, _ | _, PInf => PInf
  | NInf, _ | _, NInf => NInf
  end.

Definition neg (a : float64) : float64 :=
  match a with
  | Fin x => Fin (- x)
  | PInf => NInf
  | NInf => PInf
  | NaN => NaN
  end.

Definition sub (a b : float64) : float64 := add a (neg b).

(** [a ** 2]. *)
Definition square (a : float64) : float64 :=
  match a with
  | Fin x => Fin (x * x)
  | PInf | NInf => PInf
  | NaN => NaN
  end.

(** The sign of a rational. *)
Definition sign (x : Qc) : comparison := (x ?= 0)%Qc.

(** [a / b] on arrays: a division by zero gives an infinity or nan, with a
    warning and no exception. *)
Definition truediv (a b : float64) : float64 :=
  match a, b with
  | NaN, _ | _, NaN => NaN
  | Fin x, Fin y =>
      match sign y with
      | Eq => match sign x with
              | Eq => NaN
              | Gt => PInf
              | Lt => NInf
              end
      | _ => Fin (x / y)
      end
  | Fin _, (PInf | NInf) => Fin 0
  | (PInf | NInf), (PInf | NInf) => NaN
  | PInf, Fin y => match sign y with Lt => NInf | _ => PInf end
  | NInf, Fin y => match sign y with Lt => PInf | _ => NInf end
  end.

(** [np.sum] of a one-dimensional array. *)
Definition sum (l : list float64) : float64 := fold_left add l (Fin 0).

(** An operation entry by entry on two one-dimensional arrays: the lengths
    agree, or one of them is 1 and that entry is used throughout. *)
Definition broadcast (op : float64 -> float64 -> float64) (a b : list float64)
  : py.outcome (list float64) :=
  if (length a =? length b)%nat then py.Return (np.zip_with op a b)
  else
    match a, b with
    | [x], _ => py.Return (map (op x) b)
    | _, [y] => py.Return (map (fun x => op x y) a)
    | _, _ => py.Throw (py.ValueError "operands could not be broadcast together")
    end.

(** The attributes of a [KinLikelihood] that [_logL] reads. *)
Record KinLikelihood : Type := {
  data : list float64;
  noise : list float64
}.

(** [_logL(self, vrms)]:
<<
    log_like = (vrms - self.data)**2 / self.noise**2
    logL = - np.sum(log_like) / 2
    if not np.isfinite(logL):
        return -10 ** 15
    return logL
>> *)
Definition _logL (self : KinLikelihood) (vrms : list float64) : py.outcome float64 :=
  match broadcast sub vrms (data self) with
  | py.Throw e => py.Throw e
  | py.Return d =>
      match broadcast truediv (map square d) (map square (noise self)) with
      | py.Throw e => py.Throw e
      | py.Return log_like =>
          let logL := truediv (neg (sum log_like)) (Fin (Q2Qc 2)) in
          if negb (isfinite logL)
          then py.Return (Fin (Q2Qc (inject_Z (- 10 ^ 15))))
          else py.Return logL
      end
  end.

(** The number that [_logL] returns in place of a value that is not finite. *)
Definition sentinel : float64 := Fin (Q2Qc (inject_Z (- 10 ^ 15))).

(** The least positive float64 is 2^-1074: a positive result is rounded to
    zero exactly when it is at most half of that, and a result of at least
    2^1024 - 2^970 is rounded to an infinity. *)
Definition rounds_to_nonzero (x : Qc) : Prop := (Q2Qc (1 # 2 ^ 1075) < x)%Qc.

(** On finite arrays of one length: the terms of [log_like] and their sum. *)
Definition terms (vs ds ns : list Qc) : list Qc :=
  np.zip_with (fun r n => (r / (n * n))%Qc)
              (np.zip_with (fun v d => ((v - d) * (v - d))%Qc) vs ds) ns.

Definition chi2 (vs ds ns : list Qc) : Qc := fold_left Qcplus (terms vs ds ns) 0%Qc.

End kinematic.

(** ** Shapes *)

(** [rect n1 n2 a]: [a] is a 2-D array of shape (n1, n2). *)
Definition rect (n1 n2 : nat) (a : np.matrix) : Prop :=
  length a = n1 /\ Forall (fun row => length row = n2) a.


(** * Properties *)

(** ** Lists and arrays *)

Lemma length_set_nth (A : Type) (i : nat) (x : A) (l : list A) :
  length (np.set_nth i x l) = length l.
Proof.
  revert i; induction l as [|y l IH]; intros [|i]; simpl; auto.
Qed.

Lemma nth_set_nth_eq (A : Type) (i : nat) (x d : A) (l : list A) :
  i < length l -> nth i (np.set_nth i x l) d = x.
Proof.
  revert i; induction l as [|y l IH]; intros [|i] Hi; simpl in *; try lia; auto.
  apply IH; lia.
Qed.

Lemma nth_set_nth_ne (A : Type) (i j : nat) (x d : A) (l : list A) :
  i <> j -> nth j (np.set_nth i x l) d = nth j l d.
Proof.
  revert i j; induction l as [|y l IH]; intros [|i] [|j] Hij; simpl; auto; try lia.
Qed.

Lemma nth_map_seq (A : Type) (f : nat -> A) (n i : nat) (d : A) :
  i < n -> nth i (map f (seq 0 n)) d = f i.
Proof.
  intros Hi.
  rewrite (nth_indep _ d (f 0)) by (rewrite length_map, length_seq; exact Hi).
  rewrite map_nth, seq_nth by exact Hi. reflexivity.
Qed.

Lemma map_seq_nth (A : Type) (l : list A) (d : A) :
  map (fun i => nth i l d) (seq 0 (length l)) = l.
Proof.
  induction l as [|x l IH]; simpl; [reflexivity|].
  f_equal. rewrite <- seq_shift, map_map. exact IH.
Qed.

Lemma length_tabulate2 (n1 n2 : nat) (f : nat -> nat -> Qc) :
  length (np.tabulate2 n1 n2 f) = n1.
Proof. unfold np.tabulate2. now rewrite length_map, length_seq. Qed.

Lemma rect_tabulate2 (n1 n2 : nat) (f : nat -> nat -> Qc) :
  rect n1 n2 (np.tabulate2 n1 n2 f).
Proof.
  split; [apply length_tabulate2|].
  unfold np.tabulate2. apply Forall_forall. intros row Hrow.
  apply in_map_iff in Hrow. destruct Hrow as [r [<- _]].
  now rewrite length_map, length_seq.
Qed.

Lemma item2_tabulate2 (n1 n2 : nat) (f : nat -> nat -> Qc) (r c : nat) :
  r < n1 -> c < n2 -> np.item2 (np.tabulate2 n1 n2 f) r c = f r c.
Proof.
  intros Hr Hc. unfold np.item2, np.tabulate2.
  rewrite (nth_map_seq (fun r => map (f r) (seq 0 n2)) [] Hr).
  apply nth_map_seq. exact Hc.
Qed.

Lemma tabulate2_ext (n1 n2 : nat) (f g : nat -> nat -> Qc) :
  (forall r c, r < n1 -> c < n2 -> f r c = g r c) ->
  np.tabulate2 n1 n2 f = np.tabulate2 n1 n2 g.
Proof.
  intros H. unfold np.tabulate2.
  apply map_ext_in. intros r Hr. apply in_seq in Hr.
  apply map_ext_in. intros c Hc. apply in_seq in Hc.
  apply H; lia.
Qed.

Lemma rect_nth (n1 n2 : nat) (a : np.matrix) (r : nat) :
  rect n1 n2 a -> r < n1 -> length (nth r a []) = n2.
Proof.
  intros [Hl Hrows] Hr. rewrite Forall_forall in Hrows.
  apply Hrows. apply nth_In. lia.
Qed.

Lemma tabulate2_item2 (n1 n2 : nat) (a : np.matrix) :
  rect n1 n2 a -> np.tabulate2 n1 n2 (np.item2 a) = a.
Proof.
  intros Ha. pose proof Ha as [Hl Hrows].
  unfold np.tabulate2, np.item2.
  transitivity (map (fun r => nth r a []) (seq 0 (length a)));
    [|apply map_seq_nth].
  rewrite Hl. apply map_ext_in. intros r Hr. apply in_seq in Hr.
  rewrite <- (rect_nth Ha (r := r)) by lia.
  apply map_seq_nth.
Qed.

(** Two arrays of one shape with the same entries are the same array. *)
Lemma rect_ext (n1 n2 : nat) (a b : np.matrix) :
  rect n1 n2 a -> rect n1 n2 b ->
  (forall r c, r < n1 -> c < n2 -> np.item2 a r c = np.item2 b r c) ->
  a = b.
Proof.
  intros Ha Hb H.
  rewrite <- (tabulate2_item2 Ha), <- (tabulate2_item2 Hb).
  apply tabulate2_ext. exact H.
Qed.

Lemma shape2_rect (n1 n2 : nat) (a : np.matrix) :
  rect n1 n2 a -> 0 < n1 -> np.shape2 a = (n1, n2).
Proof.
  intros [Hl Hrows] Hpos. unfold np.shape2. rewrite Hl. f_equal.
  destruct a as [|row a]; simpl in *; [lia|].
  now inversion Hrows.
Qed.

(** ** Elementwise arithmetic *)

Lemma length_zip_with (A B C : Type) (f : A -> B -> C) (la : list A) (lb : list B) :
  length (np.zip_with f la lb) = Nat.min (length la) (length lb).
Proof.
  revert lb; induction la as [|a la IH]; intros [|b lb]; simpl; auto.
Qed.

Lemma nth_zip_with (A B C : Type) (f : A -> B -> C) (la : list A) (lb : list B)
      (i : nat) (da : A) (db : B) (dc : C) :
  i < length la -> i < length lb ->
  nth i (np.zip_with f la lb) dc = f (nth i la da) (nth i lb db).
Proof.
  revert lb i; induction la as [|a la IH]; intros [|b lb] [|i] Ha Hb;
    simpl in *; try lia; auto.
  apply IH; lia.
Qed.

Section Elementwise.

Variables (op : Qc -> Qc -> Qc) (n1 n2 : nat) (a b : np.matrix).
Hypotheses (Ha : rect n1 n2 a) (Hb : rect n1 n2 b).

Lemma rect_zip_with : rect n1 n2 (np.zip_with (np.zip_with op) a b).
Proof.
  destruct Ha as [Hla Hra], Hb as [Hlb Hrb].
  split.
  - rewrite length_zip_with. lia.
  - apply Forall_forall. intros row Hrow.
    destruct (In_nth _ _ [] Hrow) as [r [Hr <-]].
    rewrite length_zip_with in Hr.
    rewrite (nth_zip_with _ _ _ [] [] []) by lia.
    rewrite length_zip_with.
    rewrite (rect_nth Ha), (rect_nth Hb) by lia. lia.
Qed.

Lemma item2_zip_with (r c : nat) :
  r < n1 -> c < n2 ->
  np.item2 (np.zip_with (np.zip_with op) a b) r c
  = op (np.item2 a r c) (np.item2 b r c).
Proof.
  intros Hr Hc. unfold np.item2.
  destruct Ha as [Hla _], Hb as [Hlb _].
  rewrite (nth_zip_with _ _ _ [] [] []) by lia.
  apply nth_zip_with.
  - rewrite (rect_nth Ha); lia.
  - rewrite (rect_nth Hb); lia.
Qed.

End Elementwise.

Lemma rect_subtract (n1 n2 : nat) (a b : np.matrix) :
  rect n1 n2 a -> rect n1 n2 b -> rect n1 n2 (np.subtract a b).
Proof. intros; now apply rect_zip_with. Qed.

Lemma rect_add (n1 n2 : nat) (a b : np.matrix) :
  rect n1 n2 a -> rect n1 n2 b -> rect n1 n2 (np.add a b).
Proof. intros; now apply rect_zip_with. Qed.

(** b + (a - b) = a, entry by entry. *)
Lemma add_subtract_cancel (n1 n2 : nat) (a b : np.matrix) :
  rect n1 n2 a -> rect n1 n2 b -> np.add b (np.subtract a b) = a.
Proof.
  intros Ha Hb.
  apply (@rect_ext n1 n2); [apply rect_add; [|apply rect_subtract]| |]; auto.
  intros r c Hr Hc. unfold np.add.
  rewrite (item2_zip_with Qcplus Hb (rect_subtract Ha Hb) Hr Hc).
  unfold np.subtract. rewrite (item2_zip_with Qcminus Ha Hb Hr Hc). ring.
Qed.

(** An array already of the target shape is assigned as it is. *)
Lemma broadcast_to_same (n1 n2 : nat) (a : np.matrix) :
  rect n1 n2 a -> 0 < n1 -> np.broadcast_to a n1 n2 = Ok a.
Proof.
  intros Ha Hpos. unfold np.broadcast_to.
  rewrite (shape2_rect Ha Hpos), !Nat.eqb_refl. simpl.
  f_equal. now apply tabulate2_item2.
Qed.

Lemma nth_concat_rect (n2 : nat) (a : np.matrix) :
  forall n1 r c, rect n1 n2 a -> r < n1 -> c < n2 ->
                 nth (r * n2 + c) (concat a) 0%Qc = np.item2 a r c.
Proof.
  induction a as [|row a IH]; intros n1 r c [Hl Hrows] Hr Hc; simpl in *; [lia|].
  inversion Hrows as [|? ? Hrow Hrows']; subst.
  destruct r as [|r].
  - simpl. unfold np.item2. simpl. apply app_nth1. lia.
  - rewrite app_nth2 by (simpl; nia).
    replace (S r * length row + c - length row) with (r * length row + c)
      by (simpl; nia).
    unfold np.item2. simpl.
    apply (IH (length a)); [split; auto | simpl in Hr; lia | exact Hc].
Qed.

Lemma length_concat_rect (n2 : nat) (a : np.matrix) :
  forall n1, rect n1 n2 a -> length (concat a) = n1 * n2.
Proof.
  induction a as [|row a IH]; intros n1 [Hl Hrows]; simpl in *; [subst; reflexivity|].
  inversion Hrows as [|? ? Hrow Hrows']; subst.
  rewrite length_app, (IH (length a)) by (split; auto). simpl. lia.
Qed.

(** Reshaping to the shape the array already has returns the array. *)
Lemma reshape_same (n1 n2 : nat) (a : np.matrix) :
  rect n1 n2 a -> np.reshape a n1 n2 = Ok a.
Proof.
  intros Ha. unfold np.reshape.
  rewrite (length_concat_rect Ha), Nat.eqb_refl. f_equal.
  transitivity (np.tabulate2 n1 n2 (np.item2 a)); [|now apply tabulate2_item2].
  apply tabulate2_ext. intros r c Hr Hc. now apply (@nth_concat_rect n2 a n1).
Qed.

(** ** Smoothing keeps the shape *)

Lemma rect_correlate1d (n1 n2 : nat) (a : np.matrix) (w : np.vector)
      (axis : nat) (m : scf.mode) (origin : Z) :
  rect n1 n2 a -> rect n1 n2 (scf.correlate1d a w axis m origin).
Proof.
  intros Ha. unfold scf.correlate1d.
  destruct (Nat.eq_dec n1 0) as [->|Hpos].
  - destruct Ha as [Hl _]. apply length_zero_iff_nil in Hl. subst a.
    simpl. split; [reflexivity | constructor].
  - rewrite (shape2_rect Ha) by lia. apply rect_tabulate2.
Qed.

Lemma rect_convolve2d (n1 n2 : nat) (a k : np.matrix) :
  rect n1 n2 a -> rect n1 n2 (scs.convolve2d a k).
Proof.
  intros Ha. unfold scs.convolve2d.
  destruct (Nat.eq_dec n1 0) as [->|Hpos].
  - destruct Ha as [Hl _]. apply length_zero_iff_nil in Hl. subst a.
    simpl. split; [reflexivity | constructor].
  - rewrite (shape2_rect Ha) by lia.
    destruct (np.shape2 k). apply rect_tabulate2.
Qed.

Lemma rect_smooth (n1 n2 : nat) (convol2d : Z) (c : np.matrix) (nh : np.vector) :
  rect n1 n2 c -> rect n1 n2 (smooth convol2d c nh).
Proof.
  intros Hc. unfold smooth. destruct (convol2d =? 1)%Z.
  - now apply rect_convolve2d.
  - unfold scf.convolve1d. now do 2 apply rect_correlate1d.
Qed.

(** ** The dilated filter *)

Lemma index_in_range (n : nat) (k : Z) :
  (0 <= k < Z.of_nat n)%Z -> np.index n k = Some (Z.to_nat k).
Proof.
  intros Hk. unfold np.index.
  destruct (Z.leb_spec 0 k); [|lia].
  destruct (Z.ltb_spec k (Z.of_nat n)); [|lia]. reflexivity.
Qed.

(** An indexed assignment at distinct positions inside the array succeeds,
    writes each value at its position and leaves the rest alone. *)
Lemma put_spec (idx : list Z) :
  forall (vals a : np.vector),
    length idx = length vals ->
    (forall k, In k idx -> (0 <= k < Z.of_nat (length a))%Z) ->
    NoDup idx ->
    exists a',
      np.put a idx vals = Ok a' /\
      length a' = length a /\
      (forall j, j < length idx ->
                 nth (Z.to_nat (nth j idx 0%Z)) a' 0%Qc = nth j vals 0%Qc) /\
      (forall p, ~ In (Z.of_nat p) idx -> nth p a' 0%Qc = nth p a 0%Qc).
Proof.
  induction idx as [|k idx IH]; intros [|v vals] a Hlen Hin Hnd;
    simpl in Hlen; try discriminate.
  - exists a. simpl. repeat split; auto. intros j Hj. inversion Hj.
  - inversion Hnd as [|? ? Hk Hnd']; subst.
    assert (Hk0 : (0 <= k < Z.of_nat (length a))%Z) by (apply Hin; now left).
    destruct (IH vals (np.set_nth (Z.to_nat k) v a)) as [a' [Hput [Hl [Hw Hr]]]].
    + lia.
    + intros k' Hk'. rewrite length_set_nth. apply Hin. now right.
    + exact Hnd'.
    + exists a'. simpl. rewrite (index_in_range _ Hk0).
      rewrite length_set_nth in Hl.
      split; [exact Hput|]. split; [exact Hl|]. split.
      * intros [|j] Hj; simpl.
        -- rewrite Hr by (rewrite Z2Nat.id by lia; exact Hk).
           apply nth_set_nth_eq. lia.
        -- apply Hw. simpl in Hj. lia.
      * intros p Hp. rewrite Hr by (intro; apply Hp; now right).
        apply nth_set_nth_ne. intro Heq. apply Hp. left. lia.
Qed.

(** The tap positions computed by [np.linspace] are the multiples of 2^i. *)
Lemma linspace_taps (n i : nat) :
  2 <= n ->
  np.linspace_int 0 ((Z.of_nat n - 1) * 2 ^ Z.of_nat i) n
  = map (fun k => (Z.of_nat k * 2 ^ Z.of_nat i)%Z) (seq 0 n).
Proof.
  intros Hn. unfold np.linspace_int.
  destruct n as [|[|n]]; try lia.
  apply map_ext. intros k.
  set (d := (Z.of_nat (S (S n)) - 1)%Z).
  assert (Hd : (d <> 0)%Z) by (unfold d; lia).
  replace (0 * d + Z.of_nat k * (d * 2 ^ Z.of_nat i - 0))%Z
    with ((Z.of_nat k * 2 ^ Z.of_nat i) * d)%Z by ring.
  apply Z.quot_mul. exact Hd.
Qed.

Lemma newh_size_Z (n i : nat) :
  1 <= n ->
  (Z.of_nat n + (Z.of_nat n - 1) * (2 ^ Z.of_nat i - 1))%Z = Z.of_nat (newh_size n i).
Proof.
  intros Hn. unfold newh_size.
  assert (Hp : 1 <= 2 ^ i) by (apply Nat.neq_0_lt_0, Nat.pow_nonzero; lia).
  rewrite Nat2Z.inj_add, Nat2Z.inj_mul, !Nat2Z.inj_sub by lia.
  rewrite Nat2Z.inj_pow. reflexivity.
Qed.

Lemma newh_size_taps (n i : nat) :
  1 <= n -> newh_size n i = (n - 1) * 2 ^ i + 1.
Proof.
  intros Hn. unfold newh_size.
  assert (Hp : 1 <= 2 ^ i) by (apply Nat.neq_0_lt_0, Nat.pow_nonzero; lia).
  nia.
Qed.

(** The construction of [newh] never fails for a filter of two taps or
    more; it has the announced size, carries the taps of [h] at the
    multiples of 2^i and zeros elsewhere. *)
Lemma newh_spec (h : np.vector) (i : nat) :
  2 <= length h ->
  exists k : np.vector,
    newh h i = Ok k /\
    length k = newh_size (length h) i /\
    (forall j, j < length h -> nth (j * 2 ^ i) k 0%Qc = nth j h 0%Qc) /\
    (forall p, p mod 2 ^ i <> 0 -> nth p k 0%Qc = 0%Qc).
Proof.
  intros Hn. unfold newh.
  set (n := length h) in *.
  assert (Hp : 1 <= 2 ^ i) by (apply Nat.neq_0_lt_0, Nat.pow_nonzero; lia).
  assert (Hpow : (2 ^ Z.of_nat i)%Z = Z.of_nat (2 ^ i))
    by (rewrite Nat2Z.inj_pow; reflexivity).
  rewrite newh_size_Z by lia.
  destruct (Z.ltb_spec (Z.of_nat (newh_size n i)) 0) as [Hneg|_]; [lia|].
  rewrite Nat2Z.id.
  replace (Z.of_nat (newh_size n i) - 1)%Z with ((Z.of_nat n - 1) * 2 ^ Z.of_nat i)%Z
    by (rewrite (newh_size_taps i), Hpow by lia; nia).
  rewrite linspace_taps by exact Hn.
  set (idx := map (fun k => (Z.of_nat k * 2 ^ Z.of_nat i)%Z) (seq 0 n)).
  assert (Hidx : forall j, j < n -> nth j idx 0%Z = Z.of_nat (j * 2 ^ i)).
  { intros j Hj. unfold idx.
    rewrite (nth_map_seq (fun k => (Z.of_nat k * 2 ^ Z.of_nat i)%Z) 0%Z Hj).
    rewrite Hpow. lia. }
  destruct (@put_spec idx h (np.zeros1 (newh_size n i))) as [k [Hput [Hl [Hw Hr]]]].
  - unfold idx. now rewrite length_map, length_seq.
  - intros z Hz. unfold idx in Hz. apply in_map_iff in Hz.
    destruct Hz as [j [<- Hj]]. apply in_seq in Hj.
    unfold np.zeros1. rewrite repeat_length, (newh_size_taps i), Hpow by lia.
    nia.
  - unfold idx. apply NoDup_map_NoDup_ForallPairs; [|apply seq_NoDup].
    intros x y _ _ Hxy. nia.
  - exists k. split; [exact Hput|].
    unfold np.zeros1 in Hl. rewrite repeat_length in Hl.
    split; [exact Hl|]. split.
    + intros j Hj. rewrite <- Hw.
      * rewrite Hidx by exact Hj. now rewrite Nat2Z.id.
      * unfold idx. now rewrite length_map, length_seq.
    + intros p Hp0. rewrite Hr.
      * unfold np.zeros1. destruct (Nat.lt_ge_cases p (newh_size n i)).
        -- now apply nth_repeat_lt.
        -- apply nth_overflow. now rewrite repeat_length.
      * intros Hin. unfold idx in Hin. apply in_map_iff in Hin.
        destruct Hin as [j [Hj _]]. apply Hp0.
        rewrite Hpow, <- Nat2Z.inj_mul in Hj.
        apply Nat2Z.inj in Hj. subst p. apply Nat.Div0.mod_mul.
Qed.

(** C10.  Whatever the keyword [Filter], the base filter is the 5-tap
    B-spline or the 3-tap linear filter; for every scale i the dilated
    filter is built without error, has length n + (n-1)(2^i - 1), carries
    tap j of the base filter at position j 2^i (so the first tap sits at
    position 0 and the last one at the final position) and zeros at every
    position that is not a multiple of 2^i.  The B-spline filter dilated at
    scale 1 has length 9 and its non-zero taps are at positions 0, 2, 4, 6
    and 8. *)
Theorem C10_dilated_filter (Filter : string) (i : nat) :
  let h := base_filter Filter in
  let n := length h in
  (h = bspline /\ n = 5 \/ h = linear /\ n = 3) /\
  (exists k : np.vector,
      newh h i = Ok k /\
      length k = n + (n - 1) * (2 ^ i - 1) /\
      (forall j, j < n -> nth (j * 2 ^ i) k 0%Qc = nth j h 0%Qc) /\
      (forall p, p mod 2 ^ i <> 0 -> nth p k 0%Qc = 0%Qc) /\
      nth 0 k 0%Qc = nth 0 h 0%Qc /\
      nth (length k - 1) k 0%Qc = nth (n - 1) h 0%Qc) /\
  (exists k9 : np.vector,
      newh bspline 1 = Ok k9 /\
      k9 = [Q2Qc (1 # 16); 0%Qc; Q2Qc (1 # 4); 0%Qc; Q2Qc (3 # 8); 0%Qc;
            Q2Qc (1 # 4); 0%Qc; Q2Qc (1 # 16)] /\
      length k9 = 9 /\
      nonzero_positions k9 = [0; 2; 4; 6; 8]).
Proof.
  intros h n.
  assert (Hfam : h = bspline /\ n = 5 \/ h = linear /\ n = 3).
  { unfold n, h, base_filter.
    destruct (String.eqb Filter "Bspline"); [left | right]; split; reflexivity. }
  assert (Hn : 2 <= length h) by (fold n; destruct Hfam as [[_ ->]|[_ ->]]; lia).
  split; [exact Hfam|]. split.
  - destruct (@newh_spec h i Hn) as [k [Hk [Hl [Htaps Hzero]]]].
    fold n in Hl, Htaps.
    exists k. split; [exact Hk|]. split; [exact Hl|].
    split; [exact Htaps|]. split; [exact Hzero|]. split.
    + rewrite <- (Htaps 0) by lia. reflexivity.
    + rewrite <- (Htaps (n - 1)) by lia. f_equal.
      rewrite Hl. unfold n in *. rewrite newh_size_taps by lia. lia.
  - eexists. split; [reflexivity|].
    split; [reflexivity|]. split; reflexivity.
Qed.

(** ** The forward loop *)

Lemma dilated_newh (h : np.vector) (i : nat) :
  2 <= length h -> newh h i = Ok (dilated h i).
Proof.
  intros Hh. unfold dilated.
  destruct (@newh_spec h i Hh) as [k [-> _]]. reflexivity.
Qed.

Lemma rect_next_c (n1 n2 : nat) (convol2d : Z) (h : np.vector) (i : nat) (c : np.matrix) :
  rect n1 n2 c -> rect n1 n2 (next_c convol2d h i c).
Proof. apply rect_smooth. Qed.

Lemma rect_coarse (n1 n2 : nat) (convol2d : Z) (h : np.vector) (len : nat) :
  forall i0 c, rect n1 n2 c -> rect n1 n2 (coarse convol2d h i0 len c).
Proof.
  induction len as [|len IH]; intros i0 c Hc; simpl; [exact Hc|].
  apply IH. now apply rect_next_c.
Qed.

Lemma rect_detail (n1 n2 : nat) (sg : bool) (convol2d : Z) (h : np.vector)
      (i : nat) (c : np.matrix) :
  rect n1 n2 c -> rect n1 n2 (detail sg convol2d h i c).
Proof.
  intros Hc. unfold detail.
  destruct sg; apply rect_subtract; auto; repeat apply rect_next_c; exact Hc.
Qed.

Lemma coarse_succ (convol2d : Z) (h : np.vector) (len : nat) :
  forall i0 c,
    coarse convol2d h i0 (S len) c
    = next_c convol2d h (i0 + len) (coarse convol2d h i0 len c).
Proof.
  induction len as [|len IH]; intros i0 c.
  - simpl. now rewrite Nat.add_0_r.
  - change (coarse convol2d h i0 (S (S len)) c)
      with (coarse convol2d h (S i0) (S len) (next_c convol2d h i0 c)).
    rewrite IH. simpl. f_equal. lia.
Qed.

(** The loop of [_transform_slit] on a square image: it does not fail,
    leaves c_{i0+len} in [c], writes the detail planes of the scales it
    runs through and touches no other plane. *)
Lemma transform_loop_spec (sg : bool) (convol2d : Z) (h : np.vector) (N : nat) :
  2 <= length h -> 0 < N ->
  forall len i0 c wave,
    rect N N c -> i0 + len <= length wave ->
    exists wave',
      transform_loop sg convol2d h N N (seq i0 len) c wave
      = Ok (coarse convol2d h i0 len c, wave') /\
      length wave' = length wave /\
      (forall j, j < len ->
                 nth (i0 + j) wave' []
                 = detail sg convol2d h (i0 + j) (coarse convol2d h i0 j c)) /\
      (forall j, j < i0 \/ i0 + len <= j -> nth j wave' [] = nth j wave []).
Proof.
  intros Hh HN. induction len as [|len IH]; intros i0 c wave Hc Hlen.
  - exists wave. simpl. repeat split; auto. intros j Hj; lia.
  - cbn [seq transform_loop].
    rewrite (@dilated_newh h i0 Hh). cbn [bind].
    fold (next_c convol2d h i0 c).
    fold (next_c convol2d h i0 (next_c convol2d h i0 c)).
    change (if sg
            then np.subtract c (next_c convol2d h i0 (next_c convol2d h i0 c))
            else np.subtract c (next_c convol2d h i0 c))
      with (detail sg convol2d h i0 c).
    unfold np.setitem_plane.
    destruct (Nat.ltb_spec i0 (length wave)) as [Hi0|]; [|lia].
    rewrite (broadcast_to_same (rect_detail sg convol2d h i0 Hc) HN). cbn [bind].
    destruct (IH (S i0) (next_c convol2d h i0 c)
                 (np.set_nth i0 (detail sg convol2d h i0 c) wave))
      as [wave' [Hrun [Hl [Hdet Hframe]]]].
    + now apply rect_next_c.
    + rewrite length_set_nth. lia.
    + exists wave'. rewrite length_set_nth in Hl.
      split; [exact Hrun|]. split; [exact Hl|]. split.
      * intros [|j] Hj.
        -- rewrite Nat.add_0_r, Hframe by lia. simpl.
           apply nth_set_nth_eq. exact Hi0.
        -- replace (i0 + S j) with (S i0 + j) by lia.
           rewrite Hdet by lia. reflexivity.
      * intros j Hj. rewrite Hframe by lia.
        apply nth_set_nth_ne. lia.
Qed.

(** ** The decomposition of a square image *)

Lemma length_planes (sg : bool) (convol2d : Z) (h : np.vector) (L : nat) (img : np.matrix) :
  length (planes sg convol2d h L img) = L + 1.
Proof. unfold planes. now rewrite length_app, length_map, length_seq. Qed.

Lemma nth_planes_detail (sg : bool) (convol2d : Z) (h : np.vector) (L : nat)
      (img : np.matrix) (j : nat) :
  j < L ->
  nth j (planes sg convol2d h L img) []
  = detail sg convol2d h j (coarse convol2d h 0 j img).
Proof.
  intros Hj. unfold planes.
  rewrite app_nth1 by now rewrite length_map, length_seq.
  now apply (nth_map_seq (fun j => detail sg convol2d h j (coarse convol2d h 0 j img))).
Qed.

Lemma nth_planes_coarse (sg : bool) (convol2d : Z) (h : np.vector) (L : nat)
      (img : np.matrix) :
  nth L (planes sg convol2d h L img) [] = coarse convol2d h 0 L img.
Proof.
  unfold planes.
  rewrite app_nth2 by (rewrite length_map, length_seq; lia).
  rewrite length_map, length_seq, Nat.sub_diag. reflexivity.
Qed.

Lemma Forall_rect_planes (n1 n2 : nat) (sg : bool) (convol2d : Z) (h : np.vector)
      (L : nat) (img : np.matrix) :
  rect n1 n2 img -> Forall (rect n1 n2) (planes sg convol2d h L img).
Proof.
  intros Himg. unfold planes. apply Forall_app. split.
  - apply Forall_forall. intros p Hp. apply in_map_iff in Hp.
    destruct Hp as [j [<- _]]. apply rect_detail. now apply rect_coarse.
  - constructor; [|constructor]. now apply rect_coarse.
Qed.

Lemma base_filter_length (Filter : string) : 2 <= length (base_filter Filter).
Proof. unfold base_filter. destruct (String.eqb Filter "Bspline"); simpl; lia. Qed.

Lemma effective_lvl_pos (n_scales : Z) (N : nat) :
  2 <= N -> (2 <= n_scales)%Z -> 1 <= effective_lvl n_scales N.
Proof.
  intros HN Hn. unfold effective_lvl.
  assert (1 <= Z.log2 (Z.of_nat N))%Z.
  { apply Z.log2_le_pow2; simpl; lia. }
  lia.
Qed.

(** On a square image of side at least 2, with [n_scales >= 2], the
    decomposition returns the cube [w_0 .. w_{L-1}, c_L] for
    L = min(n_scales - 1, floor(log2 N)), and prints the warning exactly
    when n_scales - 1 exceeds floor(log2 N). *)
Lemma transform_slit_square (self : Starlets) (N : nat) (img : np.matrix)
      (n_scales : Z) (Filter : string) (convol2d : Z) :
  rect N N img -> 2 <= N -> (2 <= n_scales)%Z ->
  _transform_slit self (Arr2 img) n_scales Filter convol2d
  = (if (Z.log2 (Z.of_nat N) <? n_scales - 1)%Z
     then [warning (effective_lvl n_scales N)] else [],
     Ok (Coeffs3 (planes (_second_gen self) convol2d (base_filter Filter)
                         (effective_lvl n_scales N) img))).
Proof.
  intros Himg HN Hn.
  pose proof (effective_lvl_pos HN Hn) as HL.
  unfold _transform_slit.
  rewrite (shape2_rect Himg) by lia. cbn [snd].
  unfold np.int_log2. destruct N as [|N']; [lia|].
  set (N := S N') in *. set (l2 := Z.log2 (Z.of_nat N)).
  assert (Hl2 : (1 <= l2)%Z) by (apply Z.log2_le_pow2; simpl; lia).
  set (lvl := (n_scales - 1)%Z).
  assert (Hmin : (if (Z.min lvl l2 <? lvl)%Z then Z.min lvl l2 else lvl)
                 = Z.of_nat (effective_lvl n_scales N)).
  { unfold effective_lvl. fold l2 lvl.
    destruct (Z.ltb_spec (Z.min lvl l2) lvl); lia. }
  rewrite Hmin.
  assert (Hcap : (Z.min lvl l2 <? lvl)%Z = (l2 <? lvl)%Z).
  { destruct (Z.ltb_spec (Z.min lvl l2) lvl), (Z.ltb_spec l2 lvl); lia. }
  rewrite Hcap. fold (warning (effective_lvl n_scales N)).
  set (L := effective_lvl n_scales N) in *.
  f_equal.
  destruct (Z.ltb_spec (Z.of_nat L + 1) 0); [lia|].
  rewrite Nat2Z.id.
  replace (Z.to_nat (Z.of_nat L + 1)) with (L + 1) by lia.
  destruct (@transform_loop_spec (_second_gen self) convol2d (base_filter Filter) N
              (base_filter_length Filter) ltac:(lia) L 0 img (np.zeros3 (L + 1) N N)
              Himg)
    as [wave' [Hrun [Hl [Hdet _]]]].
  { unfold np.zeros3. rewrite repeat_length. lia. }
  rewrite Hrun. cbn [bind fst snd].
  unfold np.zeros3 in Hl. rewrite repeat_length in Hl.
  destruct L as [|i]; [lia|].
  unfold np.setitem_plane.
  destruct (Nat.ltb_spec (i + 1) (length wave')); [|lia].
  rewrite (broadcast_to_same
             (rect_coarse convol2d (base_filter Filter) (S i) 0 Himg)) by lia.
  cbn [bind]. do 2 f_equal.
  apply (nth_ext _ _ [] []).
  - rewrite length_set_nth, length_planes. lia.
  - intros j Hj. rewrite length_set_nth in Hj.
    destruct (Nat.eq_dec j (S i)) as [->|Hne].
    + rewrite nth_planes_coarse. replace (i + 1) with (S i) by lia.
      apply nth_set_nth_eq. lia.
    + rewrite nth_set_nth_ne by lia.
      rewrite nth_planes_detail by lia.
      apply (Hdet j). lia.
Qed.

(** ** Reconstruction by summation (first generation) *)

Lemma sum_app (l1 l2 : np.vector) :
  np.sum (l1 ++ l2) = (np.sum l1 + np.sum l2)%Qc.
Proof.
  unfold np.sum. induction l1 as [|x l1 IH]; simpl; [ring|].
  rewrite IH. ring.
Qed.

(** Adding up planes of one shape adds up their entries. *)
Lemma fold_left_add_spec (n1 n2 : nat) (ps : np.cube) :
  forall acc,
    rect n1 n2 acc -> Forall (rect n1 n2) ps ->
    rect n1 n2 (fold_left np.add ps acc) /\
    forall r c, r < n1 -> c < n2 ->
                np.item2 (fold_left np.add ps acc) r c
                = (np.item2 acc r c + np.sum (map (fun p => np.item2 p r c) ps))%Qc.
Proof.
  induction ps as [|p ps IH]; intros acc Hacc Hps; simpl.
  - split; [exact Hacc|]. intros; ring.
  - inversion Hps as [|? ? Hp Hps']; subst.
    destruct (IH (np.add acc p) (rect_add Hacc Hp) Hps') as [Hrect Hitem].
    split; [exact Hrect|]. intros r c Hr Hc.
    rewrite Hitem by assumption. unfold np.add at 1.
    rewrite (item2_zip_with Qcplus Hacc Hp Hr Hc). ring.
Qed.

(** The details of the first generation telescope: w_0 + ... + w_{L-1} + c_L
    is c_0, entry by entry. *)
Lemma telescope (n1 n2 : nat) (convol2d : Z) (h : np.vector) (img : np.matrix)
      (r c : nat) :
  rect n1 n2 img -> r < n1 -> c < n2 ->
  forall L,
    (np.sum (map (fun j => np.item2 (detail false convol2d h j
                                            (coarse convol2d h 0 j img)) r c)
                 (seq 0 L))
     + np.item2 (coarse convol2d h 0 L img) r c)%Qc
    = np.item2 img r c.
Proof.
  intros Himg Hr Hc. induction L as [|L IH].
  - simpl. ring.
  - rewrite seq_S, map_app, sum_app. cbn [map np.sum fold_right Nat.add].
    etransitivity; [|exact IH].
    rewrite coarse_succ. cbn [Nat.add].
    unfold detail, np.subtract.
    rewrite (item2_zip_with Qcminus (rect_coarse convol2d h L 0 Himg)
               (rect_next_c convol2d h L (rect_coarse convol2d h L 0 Himg)) Hr Hc).
    ring.
Qed.

Lemma sum_axis0_planes (n1 n2 : nat) (convol2d : Z) (h : np.vector) (L : nat)
      (img : np.matrix) :
  rect n1 n2 img -> np.sum_axis0 (planes false convol2d h L img) = img.
Proof.
  intros Himg.
  pose proof (Forall_rect_planes false convol2d h L Himg) as Hall.
  pose proof (length_planes false convol2d h L img) as Hlen.
  remember (planes false convol2d h L img) as ps eqn:Eps.
  destruct ps as [|p ps]; [simpl in Hlen; lia|].
  inversion Hall as [|? ? Hp Hps]; subst x l.
  destruct (fold_left_add_spec Hp Hps) as [Hrect Hitem].
  apply (@rect_ext n1 n2); [exact Hrect | exact Himg |].
  intros r c Hr Hc. simpl. rewrite Hitem by assumption.
  change (np.item2 p r c + np.sum (map (fun q => np.item2 q r c) ps))%Qc
    with (np.sum (map (fun q => np.item2 q r c) (p :: ps))).
  rewrite Eps. unfold planes. rewrite map_app, map_map, sum_app.
  cbn [map np.sum fold_right].
  rewrite <- (telescope convol2d h Himg Hr Hc L). ring.
Qed.

(** ** Reconstruction by recursion (second generation) *)

Lemma inverse_loop_app (convol2d : Z) (h : np.vector) (lvl : nat) (wave : np.cube)
      (s1 s2 : list nat) :
  forall cJ,
    inverse_loop convol2d h lvl (s1 ++ s2) wave cJ
    = (c <- inverse_loop convol2d h lvl s1 wave cJ ;;
       inverse_loop convol2d h lvl s2 wave c).
Proof.
  induction s1 as [|i s1 IH]; intros cJ; simpl; [reflexivity|].
  destruct (newh h (lvl - 1 - i)); simpl; [apply IH | reflexivity].
Qed.

(** After k passes of the inverse loop on the cube of the second
    generation, [cJ] is c_{L-k}. *)
Lemma inverse_loop_planes (n1 n2 : nat) (convol2d : Z) (h : np.vector) (L : nat)
      (img : np.matrix) :
  rect n1 n2 img -> 2 <= length h ->
  forall k, k <= L ->
    inverse_loop convol2d h (L + 1) (seq 1 k) (planes true convol2d h L img)
                 (coarse convol2d h 0 L img)
    = Ok (coarse convol2d h 0 (L - k) img).
Proof.
  intros Himg Hh. induction k as [|k IH]; intros Hk.
  - simpl. now rewrite Nat.sub_0_r.
  - rewrite seq_S, inverse_loop_app, IH by lia. cbn [bind inverse_loop Nat.add].
    replace (L + 1 - 1 - S k) with (L - S k) by lia.
    rewrite (@dilated_newh h (L - S k) Hh). cbn [bind].
    rewrite nth_planes_detail by lia.
    replace (L - k) with (S (L - S k)) by lia.
    rewrite coarse_succ. cbn [Nat.add].
    set (cs := coarse convol2d h 0 (L - S k) img).
    assert (Hcs : rect n1 n2 cs) by now apply rect_coarse.
    unfold detail.
    fold (next_c convol2d h (L - S k) (next_c convol2d h (L - S k) cs)).
    f_equal. apply (@add_subtract_cancel n1 n2); auto.
    now do 2 apply rect_next_c.
Qed.

Lemma shape3_planes (N : nat) (sg : bool) (convol2d : Z) (h : np.vector) (L : nat)
      (img : np.matrix) :
  rect N N img -> 0 < N ->
  np.shape3 (planes sg convol2d h L img) = (L + 1, N, N).
Proof.
  intros Himg HN.
  pose proof (Forall_rect_planes sg convol2d h L Himg) as Hall.
  pose proof (length_planes sg convol2d h L img) as Hlen.
  unfold np.shape3. rewrite Hlen.
  destruct (planes sg convol2d h L img) as [|p ps]; [simpl in Hlen; lia|].
  inversion Hall as [|? ? Hp _]; subst. simpl.
  pose proof (shape2_rect Hp HN) as Hs. unfold np.shape2 in Hs.
  now inversion Hs.
Qed.

Lemma inverse_transform_slit_planes (self : Starlets) (N : nat) (convol2d : Z)
      (L : nat) (img : np.matrix) :
  rect N N img -> 0 < N ->
  _second_gen self = true ->
  _inverse_transform_slit self (planes true convol2d bspline L img) convol2d = Ok img.
Proof.
  intros Himg HN Hsg. unfold _inverse_transform_slit.
  rewrite Hsg, andb_false_r.
  rewrite (shape3_planes true convol2d bspline L Himg HN).
  replace (L + 1) with (S L) by lia.
  replace (S L - 1) with L by lia.
  rewrite nth_planes_coarse.
  pose proof (@inverse_loop_planes N N convol2d bspline L img Himg
                ltac:(simpl; lia) L (le_n L)) as Hloop.
  replace (L + 1) with (S L) in Hloop by lia.
  rewrite Hloop, Nat.sub_diag. cbn [bind coarse].
  now apply reshape_same.
Qed.

(** ** Comparing concrete arrays *)

Lemma array_eqb_true (A : Type) (eqb : A -> A -> bool) :
  (forall x y, eqb x y = true -> x = y) ->
  forall l1 l2, array_eqb eqb l1 l2 = true -> l1 = l2.
Proof.
  intros Heqb. induction l1 as [|x l1 IH]; intros [|y l2] H; simpl in H;
    try discriminate; [reflexivity|].
  apply andb_true_iff in H. destruct H as [Hxy Hl].
  f_equal; [now apply Heqb | now apply IH].
Qed.

Lemma array_eqb_false (A : Type) (eqb : A -> A -> bool) :
  (forall x, eqb x x = true) ->
  forall l1 l2, array_eqb eqb l1 l2 = false -> l1 <> l2.
Proof.
  intros Hrefl l1 l2 H Heq. subst l2.
  assert (Ht : array_eqb eqb l1 l1 = true).
  { clear H. induction l1 as [|x l1 IH]; simpl; [reflexivity|].
    now rewrite Hrefl, IH. }
  congruence.
Qed.

Lemma Qc_eq_bool_refl (x : Qc) : Qc_eq_bool x x = true.
Proof. unfold Qc_eq_bool. destruct (Qc_eq_dec x x); congruence. Qed.

Lemma matrix_eqb_true (a b : np.matrix) : matrix_eqb a b = true -> a = b.
Proof.
  apply array_eqb_true. apply array_eqb_true. exact Qc_eq_bool_correct.
Qed.

Lemma matrix_eqb_false (a b : np.matrix) : matrix_eqb a b = false -> a <> b.
Proof.
  apply array_eqb_false. intros row.
  assert (Ht : forall l : np.vector, array_eqb Qc_eq_bool l l = true).
  { induction l as [|x l IH]; simpl; [reflexivity|].
    now rewrite Qc_eq_bool_refl, IH. }
  apply Ht.
Qed.

Lemma returns_true (r : result np.matrix) (m : np.matrix) :
  returns r m = true -> r = Ok m.
Proof.
  destruct r as [a|e]; simpl; [|discriminate].
  intros H. f_equal. now apply matrix_eqb_true.
Qed.

(** ** Scale capping and plane count *)

Lemma pow2_effective_lvl (n_scales : Z) (N : nat) :
  1 <= N -> 2 ^ effective_lvl n_scales N <= N.
Proof.
  intros HN. unfold effective_lvl.
  set (l2 := Z.log2 (Z.of_nat N)).
  assert (Hl2 : (0 <= l2)%Z) by apply Z.log2_nonneg.
  assert (Hspec : (2 ^ l2 <= Z.of_nat N)%Z) by (apply Z.log2_spec; lia).
  apply Nat.le_trans with (2 ^ Z.to_nat l2).
  - apply Nat.pow_le_mono_r; lia.
  - apply Nat2Z.inj_le. rewrite Nat2Z.inj_pow, Z2Nat.id by lia. exact Hspec.
Qed.

Lemma length_dilated (h : np.vector) (i : nat) :
  2 <= length h -> length (dilated h i) = (length h - 1) * 2 ^ i + 1.
Proof.
  intros Hh. unfold dilated.
  destruct (@newh_spec h i Hh) as [k [-> [Hl _]]].
  rewrite Hl. apply newh_size_taps. lia.
Qed.

(** The reach of a dilated base filter to either side of its centre. *)
Lemma reach_dilated (Filter : string) (i : nat) :
  (length (dilated (base_filter Filter) i) - 1) / 2 <= 2 ^ (i + 1).
Proof.
  rewrite length_dilated by apply base_filter_length.
  rewrite Nat.add_sub.
  replace (2 ^ (i + 1)) with (2 * 2 ^ i) by (rewrite Nat.add_1_r; reflexivity).
  unfold base_filter. destruct (String.eqb Filter "Bspline"); simpl length.
  - replace ((5 - 1) * 2 ^ i) with ((2 * 2 ^ i) * 2) by lia.
    rewrite Nat.div_mul by lia. lia.
  - replace ((3 - 1) * 2 ^ i) with ((2 ^ i) * 2) by lia.
    rewrite Nat.div_mul by lia. lia.
Qed.

(** C4, as amended.  On a square image of side N >= 2 and for
    n_scales >= 2 the decomposition does not raise.  It computes
    L = min(n_scales - 1, floor(log2 N)) detail planes and one coarse plane.
    When the requested detail count n_scales - 1 exceeds floor(log2 N), L is
    floor(log2 N) and the line "Warning : lvl set to L" is printed; otherwise
    L = n_scales - 1 and nothing is printed.  No filter used reaches further
    than N samples from its centre.  For a 4x4 image and n_scales = 20,
    L = 2 and the line printed is "Warning : lvl set to 2". *)
Theorem C4_scale_capping (self : Starlets) (N : nat) (img : np.matrix)
        (n_scales : Z) (Filter : string) (convol2d : Z) :
  rect N N img -> 2 <= N -> (2 <= n_scales)%Z ->
  let L := effective_lvl n_scales N in
  exists (out : list string) (w : np.cube),
    _transform_slit self (Arr2 img) n_scales Filter convol2d = (out, Ok (Coeffs3 w)) /\
    length w = L + 1 /\
    ((Z.log2 (Z.of_nat N) < n_scales - 1)%Z ->
     Z.of_nat L = Z.log2 (Z.of_nat N) /\
     out = [("Warning : lvl set to " ++ format_int (Z.of_nat L))%string]) /\
    ((n_scales - 1 <= Z.log2 (Z.of_nat N))%Z ->
     Z.of_nat L = (n_scales - 1)%Z /\ out = []) /\
    (forall i, i < L -> (length (dilated (base_filter Filter) i) - 1) / 2 <= N) /\
    (N = 4 -> n_scales = 20%Z ->
     L = 2 /\ out = ["Warning : lvl set to 2"%string]).
Proof.
  intros Himg HN Hn L.
  assert (Hl2 : (1 <= Z.log2 (Z.of_nat N))%Z) by (apply Z.log2_le_pow2; simpl; lia).
  eexists. eexists. split; [apply (transform_slit_square self Filter convol2d Himg HN Hn)|].
  split; [apply length_planes|]. fold L.
  split; [|split; [|split]].
  - intros Hcap. destruct (Z.ltb_spec (Z.log2 (Z.of_nat N)) (n_scales - 1)); [|lia].
    split; [unfold L, effective_lvl; lia | reflexivity].
  - intros Hfit. destruct (Z.ltb_spec (Z.log2 (Z.of_nat N)) (n_scales - 1)); [lia|].
    split; [unfold L, effective_lvl; lia | reflexivity].
  - intros i Hi.
    apply Nat.le_trans with (2 ^ (i + 1)); [apply reach_dilated|].
    apply Nat.le_trans with (2 ^ L); [apply Nat.pow_le_mono_r; lia|].
    apply pow2_effective_lvl. lia.
  - intros HN4 Hn20. subst N n_scales. split; reflexivity.
Qed.

(** Witness of C4: a 4x4 image decomposed with n_scales = 20. *)
Lemma C4_scale_capping_witness :
  exists (out : list string) (w : np.cube),
    _transform_slit default_instance
      (Arr2 (of_ints [[1; 2; 3; 4]; [5; 6; 7; 8]; [9; 10; 11; 12]; [13; 14; 15; 16]]%Z))
      20 "Bspline" 0 = (out, Ok (Coeffs3 w)) /\
    length w = 3 /\
    out = ["Warning : lvl set to 2"%string].
Proof.
  destruct (@C4_scale_capping default_instance 4
              (of_ints [[1; 2; 3; 4]; [5; 6; 7; 8]; [9; 10; 11; 12]; [13; 14; 15; 16]]%Z)
              20 "Bspline" 0)
    as [out [w [Hrun [Hlen [_ [_ [_ Hex]]]]]]].
  - split; [reflexivity | repeat constructor].
  - lia.
  - lia.
  - exists out, w. split; [exact Hrun|]. split; [exact Hlen|].
    now destruct (Hex eq_refl eq_refl).
Defined.

(** C4 as stated fails: n_scales = 3 exceeds floor(log2 4) = 2 on a 4x4
    image; the decomposition returns three planes, the level is left as it
    is and nothing is printed. *)
Lemma C4_counterexample :
  (Z.log2 4 < 3)%Z /\
  exists w : np.cube,
    decomposition default_instance
      (Arr2 (of_ints [[1; 2; 3; 4]; [5; 6; 7; 8]; [9; 10; 11; 12]; [13; 14; 15; 16]]%Z))
      3 = ([], Ok (Coeffs3 w)) /\
    length w = 3.
Proof.
  split; [reflexivity|].
  eexists. split.
  - apply (@transform_slit_square default_instance 4 _ 3 "Bspline" 0).
    + split; [reflexivity | repeat constructor].
    + lia.
    + lia.
  - apply length_planes.
Qed.

(** C5, as amended.  On a square image of side N >= 2 and for
    n_scales = n >= 2 the decomposition returns
    min(n - 1, floor(log2 N)) + 1 planes, each of shape (N, N); these are
    exactly n planes when n - 1 <= floor(log2 N). *)
Theorem C5_plane_count (self : Starlets) (N : nat) (img : np.matrix) (n : Z) :
  rect N N img -> 2 <= N -> (2 <= n)%Z ->
  exists (out : list string) (w : np.cube),
    decomposition self (Arr2 img) n = (out, Ok (Coeffs3 w)) /\
    Z.of_nat (length w) = (Z.min (n - 1) (Z.log2 (Z.of_nat N)) + 1)%Z /\
    Forall (rect N N) w /\
    ((n - 1 <= Z.log2 (Z.of_nat N))%Z -> Z.of_nat (length w) = n).
Proof.
  intros Himg HN Hn.
  assert (Hl2 : (1 <= Z.log2 (Z.of_nat N))%Z) by (apply Z.log2_le_pow2; simpl; lia).
  eexists. eexists.
  split; [apply (transform_slit_square self "Bspline" 0 Himg HN Hn)|].
  rewrite length_planes. unfold effective_lvl.
  split; [lia|]. split; [now apply Forall_rect_planes | lia].
Qed.

(** Witness of C5: a 2x2 image decomposed with n = 2. *)
Lemma C5_plane_count_witness :
  exists (out : list string) (w : np.cube),
    decomposition default_instance (Arr2 (of_ints [[1; 2]; [3; 4]]%Z)) 2
    = (out, Ok (Coeffs3 w)) /\
    Z.of_nat (length w) = 2%Z /\
    Forall (rect 2 2) w.
Proof.
  destruct (@C5_plane_count default_instance 2 (of_ints [[1; 2]; [3; 4]]%Z) 2)
    as [out [w [Hrun [_ [Hall Hlen]]]]].
  - split; [reflexivity | repeat constructor].
  - lia.
  - lia.
  - exists out, w. split; [exact Hrun|]. split; [|exact Hall].
    apply Hlen. vm_compute. discriminate.
Defined.

(** C5 as stated fails: a 2x2 image decomposed with n = 3 gives two
    planes, not three. *)
Lemma C5_counterexample :
  exists (out : list string) (w : np.cube),
    decomposition default_instance (Arr2 (of_ints [[1; 2]; [3; 4]]%Z)) 3
    = (out, Ok (Coeffs3 w)) /\
    length w = 2 /\ length w <> 3.
Proof.
  eexists. eexists. split.
  - apply (@transform_slit_square default_instance 2 _ 3 "Bspline" 0).
    + split; [reflexivity | repeat constructor].
    + lia.
    + lia.
  - rewrite length_planes. split; [reflexivity | discriminate].
Qed.

(** ** Round trips on square images *)

(** First generation, fast inverse: on a square image the sum of the
    planes returned by the decomposition is the image, whether or not the
    number of scales was reduced. *)
Lemma roundtrip_first_generation (self : Starlets) (N : nat) (img : np.matrix) (n : Z) :
  _fast_inverse self = true -> _second_gen self = false ->
  rect N N img -> 2 <= N -> (2 <= n)%Z ->
  exists (out : list string) (w : np.cube),
    decomposition self (Arr2 img) n = (out, Ok (Coeffs3 w)) /\
    function self w n = Ok img.
Proof.
  intros Hfast Hsg Himg HN Hn.
  eexists. eexists.
  split; [apply (transform_slit_square self "Bspline" 0 Himg HN Hn)|].
  unfold function, _inverse_transform_slit.
  rewrite Hfast, Hsg. cbn [andb negb].
  f_equal. now apply (@sum_axis0_planes N N).
Qed.

(** Second generation: on a square image the recursive reconstruction
    undoes the decomposition exactly. *)
Lemma roundtrip_second_generation (self : Starlets) (N : nat) (img : np.matrix) (n : Z) :
  _second_gen self = true ->
  rect N N img -> 2 <= N -> (2 <= n)%Z ->
  exists (out : list string) (w : np.cube),
    decomposition self (Arr2 img) n = (out, Ok (Coeffs3 w)) /\
    function self w n = Ok img.
Proof.
  intros Hsg Himg HN Hn.
  eexists. eexists.
  split; [apply (transform_slit_square self "Bspline" 0 Himg HN Hn)|].
  unfold function. rewrite Hsg.
  change (base_filter "Bspline") with bspline.
  apply (@inverse_transform_slit_planes self N); auto. lia.
Qed.

(** Both round trips on the 4x4 image [corner_image] with n_scales = 3. *)
Lemma roundtrip_first_generation_example :
  exists (out : list string) (w : np.cube),
    decomposition default_instance (Arr2 corner_image) 3 = (out, Ok (Coeffs3 w)) /\
    function default_instance w 3 = Ok corner_image.
Proof.
  apply (@roundtrip_first_generation default_instance 4 corner_image 3);
    try reflexivity; try lia.
  split; [reflexivity | repeat constructor].
Defined.

Lemma roundtrip_second_generation_example :
  exists (out : list string) (w : np.cube),
    decomposition second_gen_instance (Arr2 corner_image) 3 = (out, Ok (Coeffs3 w)) /\
    function second_gen_instance w 3 = Ok corner_image.
Proof.
  apply (@roundtrip_second_generation second_gen_instance 4 corner_image 3);
    try reflexivity; try lia.
  split; [reflexivity | repeat constructor].
Defined.

(** ** Images that are not square *)

(** C1 fails on the code.  The 4x8 image [wide_image] with n_scales = 2
    is within the scale cap under every reading (floor(log2 4) = 2), yet
    the decomposition raises: the cube is allocated with planes of shape
    (8, 8), into which planes of shape (4, 8) cannot be written.  The 1x2
    image [[1, 2]] is decomposed without error, its planes are written into
    a cube of shape (2, 2, 2), the single row repeated, and the sum of the
    planes is the 2x2 array [[1, 2], [1, 2]], not the image. *)
Theorem C1_nonsquare_image :
  rect 4 8 wide_image /\
  decomposition default_instance (Arr2 wide_image) 2
  = ([], Raise (ValueError "could not broadcast input array")) /\
  (exists w : np.cube,
      decomposition default_instance (Arr2 (of_ints [[1; 2]]%Z)) 2
      = ([], Ok (Coeffs3 w)) /\
      Forall (rect 2 2) w /\
      function default_instance w 2 = Ok (of_ints [[1; 2]; [1; 2]]%Z) /\
      of_ints [[1; 2]; [1; 2]]%Z <> of_ints [[1; 2]]%Z).
Proof.
  split; [split; [reflexivity | repeat constructor]|].
  split; [vm_compute; reflexivity|].
  eexists. split; [vm_compute; reflexivity|]. split.
  - repeat constructor.
  - split.
    + apply returns_true. vm_compute. reflexivity.
    + intros H. apply (f_equal (@length _)) in H. discriminate.
Qed.

(** C2 fails on the code in the same way: with the second generation the
    4x8 image makes the decomposition raise, and the 1x2 image [[1, 2]]
    comes back from the recursive reconstruction as the 2x2 array
    [[1, 2], [1, 2]]. *)
Theorem C2_nonsquare_image :
  rect 4 8 wide_image /\
  decomposition second_gen_instance (Arr2 wide_image) 2
  = ([], Raise (ValueError "could not broadcast input array")) /\
  (exists w : np.cube,
      decomposition second_gen_instance (Arr2 (of_ints [[1; 2]]%Z)) 2
      = ([], Ok (Coeffs3 w)) /\
      Forall (rect 2 2) w /\
      function second_gen_instance w 2 = Ok (of_ints [[1; 2]; [1; 2]]%Z) /\
      of_ints [[1; 2]; [1; 2]]%Z <> of_ints [[1; 2]]%Z).
Proof.
  split; [split; [reflexivity | repeat constructor]|].
  split; [vm_compute; reflexivity|].
  eexists. split; [vm_compute; reflexivity|]. split.
  - repeat constructor.
  - split.
    + apply returns_true. vm_compute. reflexivity.
    + intros H. apply (f_equal (@length _)) in H. discriminate.
Qed.

(** A 1x1 image: the level is reduced to 0, the loop over the scales does
    not run, and the statement [wave[i+1, :, :] = c] after it finds [i]
    unbound. *)
Lemma unit_image_raises :
  decomposition default_instance (Arr2 (of_ints [[5]]%Z)) 2
  = (["Warning : lvl set to 0"%string], Raise (UnboundLocalError "i")).
Proof. vm_compute. reflexivity. Qed.

(** ** Stacks of images *)

(** C3 fails on the code.  For every 3-D stack without an empty extent
    and every n_scales >= 0, the first pass of the loop over the slices
    evaluates the name [wave_transform], which the module does not define:
    the decomposition raises NameError and returns no coefficient array. *)
Theorem C3_stack_raises (self : Starlets) (x : Qc) (row : np.vector)
        (rows : np.matrix) (slices : np.cube) (n : nat) :
  ~ In "wave_transform"%string module_globals /\
  decomposition self (Arr3 (((x :: row) :: rows) :: slices)) (Z.of_nat n)
  = ([], Raise (NameError "wave_transform")).
Proof.
  split.
  - unfold module_globals. simpl. intuition discriminate.
  - unfold decomposition, _transform_slit. cbn [np.shape3 hd length Nat.min].
    destruct (Z.ltb_spec (Z.of_nat n - 1 + 1) 0); [lia|].
    reflexivity.
Qed.

(** ** The plane count is not checked on reconstruction *)

Lemma inverse_loop_total (n1 n2 : nat) (convol2d : Z) (lvl : nat) (wave : np.cube) :
  Forall (rect n1 n2) wave ->
  forall steps cJ,
    rect n1 n2 cJ ->
    (forall i, In i steps -> lvl - 1 - i < length wave) ->
    exists m, inverse_loop convol2d bspline lvl steps wave cJ = Ok m /\ rect n1 n2 m.
Proof.
  intros Hall. induction steps as [|i steps IH]; intros cJ HcJ Hsteps.
  - exists cJ. split; [reflexivity | exact HcJ].
  - cbn [inverse_loop].
    rewrite (@dilated_newh bspline (lvl - 1 - i)) by (simpl; lia).
    cbn [bind]. apply IH.
    + apply rect_add; [now apply rect_smooth|].
      rewrite Forall_forall in Hall. apply Hall, nth_In, Hsteps. now left.
    + intros j Hj. apply Hsteps. now right.
Qed.

(** C8, as amended.  [function] does not look at [n_scales]: its outcome
    is the same for every value of it.  With the fast inverse of the first
    generation it returns the sum of all the planes it is given, however
    many; and for a cube of one to ten planes of one shape it returns an
    image of that shape in either path, never an error.  (Ten planes keep
    the largest filter of the recursion at 1025 entries.) *)
Theorem C8_plane_count_unchecked (self : Starlets) (coeffs : np.cube) (n n' : Z)
        (n1 n2 : nat) :
  function self coeffs n = function self coeffs n' /\
  (_fast_inverse self = true -> _second_gen self = false ->
   function self coeffs n = Ok (np.sum_axis0 coeffs)) /\
  (0 < n1 -> coeffs <> [] -> length coeffs <= 10 -> Forall (rect n1 n2) coeffs ->
   (exists m, function self coeffs n = Ok m /\ rect n1 n2 m) /\
   forall i nh, 1 <= i < length coeffs -> newh bspline (length coeffs - 1 - i) = Ok nh ->
                length nh <= 1025).
Proof.
  split; [reflexivity|]. split.
  - intros Hfast Hsg. unfold function, _inverse_transform_slit.
    now rewrite Hfast, Hsg.
  - intros HN Hne Hlen Hall. split.
    2:{ intros i nh Hi Hnh.
        rewrite (@dilated_newh bspline (length coeffs - 1 - i)) in Hnh by (simpl; lia).
        injection Hnh as <-.
        rewrite length_dilated by (simpl; lia).
        change (length bspline) with 5.
        assert (Hp : 2 ^ (length coeffs - 1 - i) <= 2 ^ 8)
          by (apply Nat.pow_le_mono_r; lia).
        change (2 ^ 8) with 256 in Hp. lia. }
    unfold function, _inverse_transform_slit.
    destruct coeffs as [|p ps]; [congruence|].
    inversion Hall as [|? ? Hp Hps]; subst.
    destruct (_fast_inverse self && negb (_second_gen self)).
    + exists (np.sum_axis0 (p :: ps)). split; [reflexivity|].
      simpl. now apply (fold_left_add_spec Hp Hps).
    + assert (Hshape : np.shape3 (p :: ps) = (S (length ps), n1, n2)).
      { pose proof (shape2_rect Hp HN) as Hs. unfold np.shape2 in Hs.
        apply pair_equal_spec in Hs. destruct Hs as [Hl1 Hl2].
        unfold np.shape3. simpl. now rewrite Hl1, Hl2. }
      rewrite Hshape. cbn [Nat.sub]. rewrite Nat.sub_0_r.
      destruct (@inverse_loop_total n1 n2 0 (S (length ps)) (p :: ps) Hall
                  (seq 1 (length ps)) (nth (length ps) (p :: ps) []))
        as [m [Hm Hrect]].
      * rewrite Forall_forall in Hall. apply Hall, nth_In. simpl. lia.
      * intros i Hi. simpl. lia.
      * exists m. rewrite Hm. cbn [bind]. split; [now apply reshape_same | exact Hrect].
Qed.

(** Witness of C8: three 1x1 planes handed over with n_scales = 2. *)
Lemma C8_plane_count_unchecked_witness :
  function default_instance [of_ints [[1]]%Z; of_ints [[2]]%Z; of_ints [[3]]%Z] 2
  = Ok (np.sum_axis0 [of_ints [[1]]%Z; of_ints [[2]]%Z; of_ints [[3]]%Z]) /\
  exists m,
    function default_instance [of_ints [[1]]%Z; of_ints [[2]]%Z; of_ints [[3]]%Z] 2 = Ok m /\
    rect 1 1 m.
Proof.
  destruct (@C8_plane_count_unchecked default_instance
              [of_ints [[1]]%Z; of_ints [[2]]%Z; of_ints [[3]]%Z] 2 2 1 1)
    as [_ [Hfast Hany]].
  split.
  - apply Hfast; reflexivity.
  - apply Hany.
    + lia.
    + discriminate.
    + simpl. lia.
    + repeat constructor.
Defined.

(** C8 as stated fails: a cube of three planes is reconstructed with
    n_scales = 2 in both paths, and no error is reported. *)
Lemma C8_counterexample :
  length [of_ints [[1]]%Z; of_ints [[2]]%Z; of_ints [[3]]%Z] <> 2 /\
  function default_instance
           [of_ints [[1]]%Z; of_ints [[2]]%Z; of_ints [[3]]%Z] 2
  = Ok (of_ints [[6]]%Z) /\
  function second_gen_instance
           [of_ints [[1]]%Z; of_ints [[2]]%Z; of_ints [[3]]%Z] 2
  = Ok (of_ints [[6]]%Z).
Proof.
  split; [simpl; lia|].
  split; apply returns_true; vm_compute; reflexivity.
Qed.

(** ** The cached spectral norm *)

Section SpectralNormCache.

Variable util_spectral_norm :
  nat -> Z -> (ndarray -> list string * result coefficients) ->
  (np.cube -> result np.matrix) -> Z -> Qc -> result Qc.

(** A call that returns leaves its value and its [n_scales] in the cache. *)
Lemma spectral_norm_fills_cache (self self' : Starlets) (tr tr' : trace)
      (num_pix n_scales : Z) (v : Qc) :
  spectral_norm util_spectral_norm self tr num_pix n_scales = (Ok v, self', tr') ->
  _spectral_norm self' = Some v /\ _n_scales_cache self' = Some n_scales.
Proof.
  unfold spectral_norm, cache_is_stale.
  destruct (_spectral_norm self) as [v0|] eqn:Ev.
  - destruct (_n_scales_cache self) as [k|] eqn:Ek; [|discriminate].
    destruct (Z.eqb_spec n_scales k) as [->|Hne]; cbn [negb].
    + intros H. inversion H; subst. auto.
    + destruct (_compute_spectral_norm _ _ _ _ _ _ _); intros H; inversion H; subst.
      auto.
  - destruct (_compute_spectral_norm _ _ _ _ _ _ _); intros H; inversion H; subst.
    auto.
Qed.

(** Same [n_scales] as cached: the cached value, no computation. *)
Lemma spectral_norm_hit (self : Starlets) (tr : trace) (num_pix n_scales : Z) (v : Qc) :
  _spectral_norm self = Some v -> _n_scales_cache self = Some n_scales ->
  spectral_norm util_spectral_norm self tr num_pix n_scales = (Ok v, self, tr).
Proof.
  intros Hv Hn. unfold spectral_norm, cache_is_stale.
  rewrite Hv, Hn, Z.eqb_refl. reflexivity.
Qed.

(** Another [n_scales]: one computation, recorded in the trace. *)
Lemma spectral_norm_miss (self : Starlets) (tr : trace) (num_pix n_scales k : Z) (v : Qc) :
  _spectral_norm self = Some v -> _n_scales_cache self = Some k -> n_scales <> k ->
  fst (fst (spectral_norm util_spectral_norm self tr num_pix n_scales))
  = _compute_spectral_norm util_spectral_norm self tr num_pix n_scales 20
                           (Q2Qc (1 # 10000000000)) /\
  snd (spectral_norm util_spectral_norm self tr num_pix n_scales)
  = tr ++ [(num_pix, n_scales)].
Proof.
  intros Hv Hk Hne. unfold spectral_norm, cache_is_stale.
  rewrite Hv, Hk. destruct (Z.eqb_spec n_scales k); [contradiction|]. cbn [negb].
  destruct (_compute_spectral_norm _ _ _ _ _ _ _); auto.
Qed.

(** C9.  Once [spectral_norm(num_pix, n)] has returned a value v, every
    further call with the same [n_scales], whatever its [num_pix], returns
    v, leaves the instance as it is and runs no power iteration (the trace
    of computations does not grow), and so for any series of such calls;
    a call with another [n_scales] runs exactly one computation, whose
    outcome it returns; hence a call that computes has an [n_scales]
    different from that of the last call. *)
Theorem C9_spectral_norm_cache (self self' : Starlets) (tr tr' : trace)
        (num_pix n : Z) (v : Qc) :
  spectral_norm util_spectral_norm self tr num_pix n = (Ok v, self', tr') ->
  (forall num_pix',
      spectral_norm util_spectral_norm self' tr' num_pix' n = (Ok v, self', tr')) /\
  (forall pixs : list Z,
      spectral_norm_calls util_spectral_norm self' tr' (map (fun p => (p, n)) pixs)
      = (map (fun _ => Ok v) pixs, self', tr')) /\
  (forall num_pix' n',
      n' <> n ->
      fst (fst (spectral_norm util_spectral_norm self' tr' num_pix' n'))
      = _compute_spectral_norm util_spectral_norm self' tr' num_pix' n' 20
                               (Q2Qc (1 # 10000000000)) /\
      snd (spectral_norm util_spectral_norm self' tr' num_pix' n')
      = tr' ++ [(num_pix', n')]) /\
  (forall num_pix' n',
      snd (spectral_norm util_spectral_norm self' tr' num_pix' n') <> tr' ->
      n' <> n).
Proof.
  intros Hcall.
  destruct (spectral_norm_fills_cache _ _ _ _ Hcall) as [Hv Hn].
  assert (Hhit : forall num_pix',
             spectral_norm util_spectral_norm self' tr' num_pix' n = (Ok v, self', tr'))
    by (intros; now apply spectral_norm_hit).
  split; [exact Hhit|]. split; [|split].
  - induction pixs as [|p pixs IH]; [reflexivity|].
    cbn [map spectral_norm_calls]. rewrite Hhit, IH. reflexivity.
  - intros num_pix' n' Hne. now apply (@spectral_norm_miss self' tr' num_pix' n' n v).
  - intros num_pix' n' Hgrow Heq. subst n'. apply Hgrow.
    now rewrite Hhit.
Qed.

End SpectralNormCache.

(** Witness of C9: a norm estimator that returns 2, a fresh instance, and
    the call [spectral_norm(64, 3)]. *)
Lemma C9_spectral_norm_cache_witness :
  let util := fun (_ : nat) (_ : Z) (_ : ndarray -> list string * result coefficients)
                  (_ : np.cube -> result np.matrix) (_ : Z) (_ : Qc) => Ok (qz 2) in
  let cached :=
    {| _thread_count := 1; _fast_inverse := true; _second_gen := false;
       _show_pysap_plots := false;
       _spectral_norm := Some (qz 2); _n_scales_cache := Some 3%Z |} in
  spectral_norm util default_instance [] 64 3 = (Ok (qz 2), cached, [(64, 3)]%Z) /\
  forall num_pix',
    spectral_norm util cached [(64, 3)]%Z num_pix' 3 = (Ok (qz 2), cached, [(64, 3)]%Z).
Proof.
  intros util cached.
  split; [reflexivity|].
  apply (@C9_spectral_norm_cache util default_instance cached [] [(64, 3)]%Z 64 3 (qz 2)).
  reflexivity.
Defined.

(** ** Finite sums *)

Lemma sum_cons (x : Qc) (l : np.vector) :
  np.sum (x :: l) = (x + np.sum l)%Qc.
Proof. reflexivity. Qed.

Lemma sum_ext_seq (f g : nat -> Qc) (n : nat) :
  (forall j, j < n -> f j = g j) ->
  np.sum (map f (seq 0 n)) = np.sum (map g (seq 0 n)).
Proof.
  intros H. f_equal. apply map_ext_in. intros j Hj. apply in_seq in Hj.
  apply H. lia.
Qed.

Lemma sum_scale (x : Qc) (A : Type) (f : A -> Qc) (l : list A) :
  (x * np.sum (map f l))%Qc = np.sum (map (fun j => (x * f j)%Qc) l).
Proof.
  unfold np.sum. induction l as [|a l IH]; simpl; [ring|].
  rewrite <- IH. ring.
Qed.

Lemma sum_plus (A : Type) (f g : A -> Qc) (l : list A) :
  np.sum (map (fun j => (f j + g j)%Qc) l)
  = (np.sum (map f l) + np.sum (map g l))%Qc.
Proof.
  unfold np.sum. induction l as [|a l IH]; simpl; [ring|].
  rewrite IH. ring.
Qed.

Lemma sum_zero (A : Type) (l : list A) :
  np.sum (map (fun _ => 0%Qc) l) = 0%Qc.
Proof.
  unfold np.sum. induction l as [|a l IH]; simpl; [reflexivity|].
  rewrite IH. ring.
Qed.

(** The order of two nested sums does not matter. *)
Lemma sum_swap (A B : Type) (f : A -> B -> Qc) (la : list A) (lb : list B) :
  np.sum (map (fun a => np.sum (map (fun b => f a b) lb)) la)
  = np.sum (map (fun b => np.sum (map (fun a => f a b) la)) lb).
Proof.
  induction la as [|a la IH]; cbn [map].
  - symmetry. apply sum_zero.
  - rewrite sum_cons, IH, <- sum_plus. reflexivity.
Qed.

(** A sum may be run through from its last term to its first. *)
Lemma sum_rev_index (f : nat -> Qc) (n : nat) :
  np.sum (map (fun j => f (n - 1 - j)) (seq 0 n)) = np.sum (map f (seq 0 n)).
Proof.
  induction n as [|n IH]; [reflexivity|].
  rewrite seq_S at 2. rewrite map_app, sum_app. cbn [Nat.add map].
  rewrite <- IH. cbn [seq map].
  rewrite <- seq_shift, map_map, !sum_cons.
  replace (S n - 1 - 0) with n by lia.
  rewrite (sum_ext_seq (fun j => f (S n - 1 - S j)) (fun j => f (n - 1 - j)))
    by (intros j Hj; f_equal; lia).
  change (np.sum []) with 0%Qc. ring.
Qed.

(** ** What the two code paths compute *)

Lemma clamp_lt (n : nat) (i : Z) : 0 < n -> clamp n i < n.
Proof. intros Hn. unfold clamp. lia. Qed.

Lemma item2_correlate1d (n1 n2 : nat) (c : np.matrix) (w : np.vector) (axis : nat)
      (m : scf.mode) (origin : Z) (r col : nat) :
  rect n1 n2 c -> r < n1 -> col < n2 ->
  np.item2 (scf.correlate1d c w axis m origin) r col
  = np.sum (map (fun j =>
      (nth j w 0 *
       match axis with
       | O => scf.sample m n1 (fun k => np.item2 c k col)
                         (Z.of_nat r + Z.of_nat j - Z.of_nat (length w / 2) - origin)
       | _ => scf.sample m n2 (fun k => np.item2 c r k)
                         (Z.of_nat col + Z.of_nat j - Z.of_nat (length w / 2) - origin)
       end)%Qc) (seq 0 (length w))).
Proof.
  intros Hc Hr Hcol. unfold scf.correlate1d.
  rewrite (shape2_rect Hc) by lia.
  now rewrite item2_tabulate2.
Qed.

(** The separable path: each output sample is a doubly weighted sum of
    input samples read at clamped positions. *)
Lemma item2_smooth_separable (n1 n2 : nat) (c : np.matrix) (nh : np.vector)
      (convol2d : Z) (r col : nat) :
  rect n1 n2 c -> r < n1 -> col < n2 -> convol2d <> 1%Z ->
  let len := length nh in
  let s := (Z.of_nat (len / 2) + (if Nat.even len then -1 else 0))%Z in
  np.item2 (smooth convol2d c nh) r col
  = np.sum (map (fun b =>
      (nth b (rev nh) 0 *
       np.sum (map (fun a =>
         (nth a (rev nh) 0 *
          np.item2 c (clamp n1 (Z.of_nat r + Z.of_nat a - s))
                     (clamp n2 (Z.of_nat col + Z.of_nat b - s)))%Qc)
         (seq 0 len)))%Qc) (seq 0 len)).
Proof.
  intros Hc Hr Hcol Hcv len s. unfold smooth.
  destruct (Z.eqb_spec convol2d 1); [contradiction|].
  unfold scf.convolve1d, mode.
  set (o := if Nat.even (length nh) then (-1)%Z else 0%Z).
  assert (Hs : forall x j : nat,
             (Z.of_nat x + Z.of_nat j - Z.of_nat (length nh / 2) - o)%Z
             = (Z.of_nat x + Z.of_nat j - s)%Z).
  { intros x j. unfold s, len, o. destruct (Nat.even (length nh)); lia. }
  rewrite (item2_correlate1d (rev nh) 1 scf.nearest o
             (rect_correlate1d (rev nh) 0 scf.nearest o Hc) Hr Hcol).
  rewrite length_rev. fold len.
  apply sum_ext_seq. intros b Hb. f_equal.
  rewrite Hs. unfold scf.sample, scf.extend. fold (clamp n2 (Z.of_nat col + Z.of_nat b - s)).
  rewrite (item2_correlate1d (rev nh) 0 scf.nearest o Hc Hr)
    by (apply clamp_lt; lia).
  rewrite length_rev. fold len.
  apply sum_ext_seq. intros a Ha. f_equal.
  rewrite Hs. reflexivity.
Qed.

Lemma item2_outer (a b : np.vector) (i j : nat) :
  i < length a -> j < length b ->
  np.item2 (np.outer a b) i j = (nth i a 0 * nth j b 0)%Qc.
Proof.
  intros Hi Hj. unfold np.item2, np.outer.
  rewrite (nth_indep _ [] (map (fun y => (0 * y)%Qc) b))
    by now rewrite length_map.
  rewrite (map_nth (fun x => map (fun y => (x * y)%Qc) b) a 0%Qc i).
  rewrite (nth_indep _ 0%Qc (nth i a 0 * 0)%Qc) by now rewrite length_map.
  apply (map_nth (fun y => (nth i a 0 * y)%Qc)).
Qed.

Lemma shape2_outer (a : np.vector) :
  np.shape2 (np.outer a a) = (length a, length a).
Proof.
  unfold np.shape2, np.outer. rewrite length_map.
  destruct a as [|x a]; simpl; [reflexivity|]. now rewrite length_map.
Qed.

(** The direct path: each output sample is a doubly weighted sum of input
    samples read at positions reflected once about the border. *)
Lemma item2_smooth_direct (n1 n2 : nat) (c : np.matrix) (nh : np.vector) (r col : nat) :
  rect n1 n2 c -> r < n1 -> col < n2 ->
  let len := length nh in
  let o := Z.of_nat ((len - 1) / 2) in
  np.item2 (smooth 1 c nh) r col
  = np.sum (map (fun a =>
      np.sum (map (fun b =>
        (nth a nh 0 * nth b nh 0 *
         np.item2 c (scs.symm n1 (Z.of_nat r + o - Z.of_nat a))
                    (scs.symm n2 (Z.of_nat col + o - Z.of_nat b)))%Qc)
        (seq 0 len))) (seq 0 len)).
Proof.
  intros Hc Hr Hcol len o. unfold smooth. cbn [Z.eqb Pos.eqb].
  unfold scs.convolve2d.
  rewrite (shape2_rect Hc) by lia. rewrite shape2_outer. fold len. fold o.
  rewrite item2_tabulate2 by assumption.
  apply sum_ext_seq. intros a Ha.
  apply sum_ext_seq. intros b Hb.
  now rewrite item2_outer.
Qed.

(** ** The two paths agree away from the border *)

(** At the first position outside a border both policies read the edge
    sample. *)
Lemma symm_near_border (n : nat) (i : Z) :
  0 < n -> (-1 <= i <= Z.of_nat n)%Z -> scs.symm n i = clamp n i.
Proof.
  intros Hn Hi. unfold scs.symm, clamp.
  destruct (Z.ltb_spec i 0); [lia|].
  destruct (Z.leb_spec (Z.of_nat n) i); lia.
Qed.

(** For a filter of odd length 2m+1 and a sample at least m-1 away from
    every border, a read outside the array goes one position beyond a
    border at most, and both paths compute the same doubly weighted sum. *)
Lemma paths_agree_near_border (n1 n2 : nat) (c : np.matrix) (nh : np.vector)
      (m r col : nat) :
  rect n1 n2 c -> length nh = 2 * m + 1 ->
  r < n1 -> col < n2 ->
  m <= r + 1 -> r + m <= n1 -> m <= col + 1 -> col + m <= n2 ->
  np.item2 (smooth 0 c nh) r col = np.item2 (smooth 1 c nh) r col.
Proof.
  intros Hc Hlen Hr Hcol Hr1 Hr2 Hc1 Hc2.
  rewrite (@item2_smooth_separable n1 n2 c nh 0 r col Hc) by lia.
  rewrite (@item2_smooth_direct n1 n2 c nh r col Hc) by lia.
  cbv zeta. rewrite Hlen.
  assert (Heven : Nat.even (2 * m + 1) = false).
  { rewrite Nat.add_1_r, Nat.even_succ, Nat.odd_mul. reflexivity. }
  rewrite Heven.
  replace ((2 * m + 1) / 2) with m
    by (apply (Nat.div_unique (2 * m + 1) 2 m 1); lia).
  replace ((2 * m + 1 - 1) / 2) with m
    by (rewrite Nat.add_sub, Nat.mul_comm, Nat.div_mul; lia).
  set (len := 2 * m + 1).
  set (W := fun j : nat => nth j nh 0%Qc).
  set (C := fun a b : nat =>
              np.item2 c (clamp n1 (Z.of_nat r + Z.of_nat m - Z.of_nat a))
                         (clamp n2 (Z.of_nat col + Z.of_nat m - Z.of_nat b))).
  assert (Hrev : forall j, j < len -> nth j (rev nh) 0%Qc = W (len - 1 - j)).
  { intros j Hj. rewrite rev_nth by lia. unfold W. f_equal. lia. }
  (* the direct path: a reflected position is the clamped one *)
  transitivity (np.sum (map (fun a => np.sum (map (fun b => (W a * W b * C a b)%Qc)
                                                  (seq 0 len))) (seq 0 len))).
  2:{ apply sum_ext_seq. intros a Ha. apply sum_ext_seq. intros b Hb.
      unfold W, C. rewrite !symm_near_border by (unfold len in *; lia). reflexivity. }
  (* the separable path, read from the last tap on *)
  transitivity (np.sum (map (fun b =>
                  (fun b' => (W b' * np.sum (map (fun a => (W a * C a b')%Qc)
                                                 (seq 0 len)))%Qc) (len - 1 - b))
                  (seq 0 len))).
  { apply sum_ext_seq. intros b Hb. cbv beta. rewrite Hrev by exact Hb. f_equal.
    transitivity (np.sum (map (fun a =>
                    (fun a' => (W a' * C a' (len - 1 - b)%nat)%Qc) (len - 1 - a))
                    (seq 0 len))).
    - apply sum_ext_seq. intros a Ha. cbv beta. rewrite Hrev by exact Ha. f_equal.
      unfold C. f_equal; f_equal; unfold len in *; lia.
    - apply (sum_rev_index (fun a' => (W a' * C a' (len - 1 - b)%nat)%Qc)). }
  rewrite (sum_rev_index (fun b' => (W b' * np.sum (map (fun a => (W a * C a b')%Qc)
                                                        (seq 0 len)))%Qc)).
  transitivity (np.sum (map (fun b => np.sum (map (fun a => (W a * W b * C a b)%Qc)
                                                  (seq 0 len))) (seq 0 len))).
  { apply sum_ext_seq. intros b Hb. rewrite sum_scale.
    apply sum_ext_seq. intros a Ha. ring. }
  apply sum_swap.
Qed.

Lemma dilated_base_odd (Filter : string) (i : nat) :
  length (dilated (base_filter Filter) i)
  = 2 * ((length (dilated (base_filter Filter) i) - 1) / 2) + 1.
Proof.
  rewrite length_dilated by apply base_filter_length.
  rewrite Nat.add_sub. f_equal.
  unfold base_filter. destruct (String.eqb Filter "Bspline"); simpl length.
  - replace ((5 - 1) * 2 ^ i) with ((2 * 2 ^ i) * 2) by lia.
    rewrite Nat.div_mul by lia. lia.
  - replace ((3 - 1) * 2 ^ i) with ((2 ^ i) * 2) by lia.
    rewrite Nat.div_mul by lia. lia.
Qed.

(** C6, as amended.  In the separable path every output sample of a
    smoothing is the doubly weighted sum of input samples read at clamped
    positions (mode 'nearest': beyond a border the edge sample is read
    again and again), in the direct 2-D path it is the doubly weighted sum
    of input samples read at positions reflected once about the border, the
    edge sample included (boundary 'symm').  Just outside a border both
    read the edge sample itself, where a mirror policy would read its
    neighbour. *)
Theorem C6_boundary_modes (n1 n2 : nat) (c : np.matrix) (nh : np.vector) (r col : nat) :
  rect n1 n2 c -> r < n1 -> col < n2 ->
  let len := length nh in
  let s := (Z.of_nat (len / 2) + (if Nat.even len then -1 else 0))%Z in
  let o := Z.of_nat ((len - 1) / 2) in
  np.item2 (smooth 0 c nh) r col
  = np.sum (map (fun b =>
      (nth b (rev nh) 0 *
       np.sum (map (fun a =>
         (nth a (rev nh) 0 *
          np.item2 c (clamp n1 (Z.of_nat r + Z.of_nat a - s))
                     (clamp n2 (Z.of_nat col + Z.of_nat b - s)))%Qc)
         (seq 0 len)))%Qc) (seq 0 len)) /\
  np.item2 (smooth 1 c nh) r col
  = np.sum (map (fun a =>
      np.sum (map (fun b =>
        (nth a nh 0 * nth b nh 0 *
         np.item2 c (scs.symm n1 (Z.of_nat r + o - Z.of_nat a))
                    (scs.symm n2 (Z.of_nat col + o - Z.of_nat b)))%Qc)
        (seq 0 len))) (seq 0 len)) /\
  mode = scf.nearest /\
  (clamp n1 (-1) = 0 /\ clamp n1 (Z.of_nat n1) = n1 - 1) /\
  (scs.symm n1 (-1) = 0 /\ scs.symm n1 (Z.of_nat n1) = n1 - 1) /\
  (2 <= n1 ->
   scf.extend scf.mirror n1 (-1) = Some 1 /\
   scf.extend scf.mirror n1 (Z.of_nat n1) = Some (n1 - 2)).
Proof.
  intros Hc Hr Hcol len s o.
  split; [apply (@item2_smooth_separable n1 n2 c nh 0 r col Hc Hr Hcol); lia|].
  split; [apply (@item2_smooth_direct n1 n2 c nh r col Hc Hr Hcol)|].
  split; [reflexivity|].
  split; [unfold clamp; split; lia|]. split.
  - unfold scs.symm. split; [reflexivity|].
    destruct (Z.ltb_spec (Z.of_nat n1) 0); [lia|].
    destruct (Z.leb_spec (Z.of_nat n1) (Z.of_nat n1)); lia.
  - intros Hn. unfold scf.extend.
    destruct (Z.leb_spec (Z.of_nat n1) 1); [lia|].
    assert (Hm1 : ((-1) mod (2 * Z.of_nat n1 - 2) = 2 * Z.of_nat n1 - 3)%Z).
    { symmetry. apply (Z.mod_unique_pos _ _ (-1)); lia. }
    rewrite Hm1.
    destruct (Z.ltb_spec (2 * Z.of_nat n1 - 3) (Z.of_nat n1)); split;
      try (f_equal; lia).
    + destruct (Nat.eq_dec n1 2) as [->|Hne]; [reflexivity|].
      rewrite Z.mod_small by lia.
      destruct (Z.ltb_spec (Z.of_nat n1) (Z.of_nat n1)); f_equal; lia.
    + rewrite Z.mod_small by lia.
      destruct (Z.ltb_spec (Z.of_nat n1) (Z.of_nat n1)); f_equal; lia.
Qed.

(** Witness of C6: the sample at the corner of a 4x4 image, B-spline filter. *)
Lemma C6_boundary_modes_witness :
  rect 4 4 corner_image /\
  mode = scf.nearest /\
  (clamp 4 (-1) = 0 /\ clamp 4 4 = 3) /\
  (scs.symm 4 (-1) = 0 /\ scs.symm 4 4 = 3) /\
  scf.extend scf.mirror 4 (-1) = Some 1 /\
  scf.extend scf.mirror 4 4 = Some 2.
Proof.
  assert (Hrect : rect 4 4 corner_image) by (split; [reflexivity | repeat constructor]).
  destruct (@C6_boundary_modes 4 4 corner_image bspline 0 0 Hrect)
    as [_ [_ [Hmode [Hclamp [Hsymm Hmirror]]]]]; [lia | lia |].
  split; [exact Hrect|]. split; [exact Hmode|].
  split; [exact Hclamp|]. split; [exact Hsymm|].
  apply Hmirror. lia.
Defined.

(** C6 as stated fails.  On the 4x4 image with 16 at row 0, column 1, the
    smoothing with the B-spline filter gives 11/4 at the corner in the
    separable path and 25/8 in the direct path, where the mirror policy of
    the claim gives 3; and the coarse plane returned by the decomposition
    holds 11/4 there. *)
Lemma C6_counterexample :
  dilated bspline 0 = bspline /\
  np.item2 (smooth 0 corner_image bspline) 0 0 = Q2Qc (11 # 4) /\
  np.item2 (smooth 1 corner_image bspline) 0 0 = Q2Qc (25 # 8) /\
  np.item2 (smooth_mirror corner_image bspline) 0 0 = Q2Qc (3 # 1) /\
  smooth 0 corner_image bspline <> smooth_mirror corner_image bspline /\
  smooth 1 corner_image bspline <> smooth_mirror corner_image bspline /\
  exists w : np.cube,
    decomposition default_instance (Arr2 corner_image) 2 = ([], Ok (Coeffs3 w)) /\
    np.item2 (nth 1 w []) 0 0 = Q2Qc (11 # 4).
Proof.
  split; [reflexivity|].
  split; [apply Qc_is_canon; vm_compute; reflexivity|].
  split; [apply Qc_is_canon; vm_compute; reflexivity|].
  split; [apply Qc_is_canon; vm_compute; reflexivity|].
  split; [apply matrix_eqb_false; vm_compute; reflexivity|].
  split; [apply matrix_eqb_false; vm_compute; reflexivity|].
  eexists. split.
  - apply (@transform_slit_square default_instance 4 corner_image 2 "Bspline" 0).
    + split; [reflexivity | repeat constructor].
    + lia.
    + lia.
  - apply Qc_is_canon. vm_compute. reflexivity.
Qed.

(** C7, as amended.  For every dilated base filter, of half-length
    m = ((n - 1) / 2) 2^i, the separable path and the direct 2-D path give
    the same value at every sample (r, col) with m - 1 <= r <= n1 - m and
    m - 1 <= col <= n2 - m, that is, at least m - 1 away from each of the
    four borders: there a read goes one position beyond a border at most,
    where both boundary policies supply the edge sample. *)
Theorem C7_paths_agree_inside (Filter : string) (i : nat) (n1 n2 : nat)
        (c : np.matrix) (r col : nat) :
  rect n1 n2 c ->
  let nh := dilated (base_filter Filter) i in
  let m := (length nh - 1) / 2 in
  m <= r + 1 -> r + m <= n1 -> m <= col + 1 -> col + m <= n2 ->
  m = (length (base_filter Filter) - 1) / 2 * 2 ^ i /\
  np.item2 (smooth 0 c nh) r col = np.item2 (smooth 1 c nh) r col.
Proof.
  intros Hc nh m Hr1 Hr2 Hc1 Hc2.
  assert (Hm : m = (length (base_filter Filter) - 1) / 2 * 2 ^ i).
  { unfold m, nh. rewrite length_dilated by apply base_filter_length.
    rewrite Nat.add_sub.
    unfold base_filter. destruct (String.eqb Filter "Bspline"); simpl length.
    - replace ((5 - 1) * 2 ^ i) with ((2 * 2 ^ i) * 2) by lia.
      rewrite Nat.div_mul by lia. reflexivity.
    - replace ((3 - 1) * 2 ^ i) with ((1 * 2 ^ i) * 2) by lia.
      rewrite Nat.div_mul by lia. reflexivity. }
  split; [exact Hm|].
  assert (Hpos : 1 <= m).
  { rewrite Hm. pose proof (Nat.pow_nonzero 2 i ltac:(lia)) as Hp.
    unfold base_filter. destruct (String.eqb Filter "Bspline"); simpl; lia. }
  apply (@paths_agree_near_border n1 n2 c nh m r col); auto; try lia.
  apply dilated_base_odd.
Qed.

(** Witness of C7: the sample (1, 1) of a 5x5 image, B-spline filter of
    scale 0, whose reads reach the first position outside the array. *)
Lemma C7_paths_agree_inside_witness :
  rect 5 5 image5 /\
  np.item2 (smooth 0 image5 (dilated (base_filter "Bspline") 0)) 1 1
  = np.item2 (smooth 1 image5 (dilated (base_filter "Bspline") 0)) 1 1.
Proof.
  assert (Hrect : rect 5 5 image5) by (split; [reflexivity | repeat constructor]).
  split; [exact Hrect|].
  apply (@C7_paths_agree_inside "Bspline" 0 5 5 image5 1 1 Hrect);
    vm_compute; lia.
Defined.

(** C7 as stated fails.  With the B-spline filter of scale 0 (m = 2) on the
    4x4 image with 16 at row 0, column 1, the separable path gives 11/4 at
    the corner, which lies nearer to the border than m - 1, and the direct
    2-D path gives 25/8: the two differ by 3/8. *)
Lemma C7_counterexample :
  dilated (base_filter "Bspline") 0 = bspline /\
  np.item2 (smooth 0 corner_image bspline) 0 0 = Q2Qc (11 # 4) /\
  np.item2 (smooth 1 corner_image bspline) 0 0 = Q2Qc (25 # 8) /\
  (np.item2 (smooth 1 corner_image bspline) 0 0
   - np.item2 (smooth 0 corner_image bspline) 0 0)%Qc = Q2Qc (3 # 8) /\
  smooth 0 corner_image bspline <> smooth 1 corner_image bspline.
Proof.
  split; [reflexivity|].
  split; [apply Qc_is_canon; vm_compute; reflexivity|].
  split; [apply Qc_is_canon; vm_compute; reflexivity|].
  split; [apply Qc_is_canon; vm_compute; reflexivity|].
  apply matrix_eqb_false. vm_compute. reflexivity.
Qed.

(** * Further properties of the transform *)

(** ** Degenerate requests *)

(** An image without columns makes [np.log2] return -inf, which [int]
    refuses; a negative [n_scales] asks [np.zeros] for a negative extent;
    and whenever no detail scale is left to compute (n_scales is 0 or 1, or
    the image is one pixel wide) the loop over the scales does not run and
    the final [wave[i+1, :, :] = c] finds [i] unbound.  None of this depends
    on the entries of the image. *)
Theorem decomposition_degenerate (self : Starlets) (a : np.matrix) (n_scales : Z) :
  let width := snd (np.shape2 a) in
  (width = 0 -> decomposition self (Arr2 a) n_scales = ([], Raise OverflowError)) /\
  (0 < width -> (n_scales < 0)%Z ->
   decomposition self (Arr2 a) n_scales
   = ([], Raise (ValueError "negative dimensions are not allowed"))) /\
  (0 < width -> (0 <= n_scales)%Z -> ((n_scales <= 1)%Z \/ width = 1) ->
   snd (decomposition self (Arr2 a) n_scales) = Raise (UnboundLocalError "i")).
Proof.
  intros width. unfold decomposition, _transform_slit.
  fold width. split; [|split].
  - intros ->. reflexivity.
  - intros Hw Hn. unfold np.int_log2.
    destruct width as [|w]; [lia|].
    pose proof (Z.log2_nonneg (Z.of_nat (S w))) as Hl.
    destruct (Z.ltb_spec (Z.min (n_scales - 1) (Z.log2 (Z.of_nat (S w))))
                         (n_scales - 1)); [lia|].
    destruct (Z.ltb_spec (n_scales - 1 + 1) 0); [reflexivity | lia].
  - intros Hw Hn Hfew. unfold np.int_log2.
    destruct width as [|w]; [lia|].
    pose proof (Z.log2_nonneg (Z.of_nat (S w))) as Hl.
    assert (Hone : S w = 1 -> Z.log2 (Z.of_nat (S w)) = 0%Z) by (intros ->; reflexivity).
    cbn [snd].
    set (lvl := if (Z.min (n_scales - 1) (Z.log2 (Z.of_nat (S w))) <? n_scales - 1)%Z
                then Z.min (n_scales - 1) (Z.log2 (Z.of_nat (S w)))
                else (n_scales - 1)%Z).
    assert (Hlvl : (-1 <= lvl <= 0)%Z).
    { unfold lvl.
      destruct (Z.ltb_spec (Z.min (n_scales - 1) (Z.log2 (Z.of_nat (S w))))
                           (n_scales - 1)); lia. }
    destruct (Z.ltb_spec (lvl + 1) 0); [lia|].
    replace (Z.to_nat lvl) with 0 by lia. reflexivity.
Qed.

(** A one-pixel image with two scales, and a 2x2 image with one scale. *)
Lemma decomposition_degenerate_witness :
  snd (decomposition default_instance (Arr2 (of_ints [[5]]%Z)) 2)
  = Raise (UnboundLocalError "i") /\
  snd (decomposition default_instance (Arr2 (of_ints [[1; 2]; [3; 4]]%Z)) 1)
  = Raise (UnboundLocalError "i").
Proof.
  split.
  - apply (decomposition_degenerate default_instance (of_ints [[5]]%Z) 2);
      simpl; lia.
  - apply (decomposition_degenerate default_instance (of_ints [[1; 2]; [3; 4]]%Z) 1);
      simpl; lia.
Defined.

(** ** The finer planes do not depend on the number of scales *)

Lemma effective_lvl_mono (n n' : Z) (N : nat) :
  (n <= n')%Z -> effective_lvl n N <= effective_lvl n' N.
Proof. intros H. unfold effective_lvl. lia. Qed.

(** Asking for more scales leaves the detail planes already obtained as
    they are: the details for [n] scales are the leading planes for [n']
    scales, n <= n'; and once n - 1 reaches floor(log2 N) the whole cube no
    longer changes. *)
Theorem details_independent_of_n_scales (self : Starlets) (N : nat) (img : np.matrix)
        (n n' : Z) :
  rect N N img -> 2 <= N -> (2 <= n <= n')%Z ->
  exists (out out' : list string) (w w' : np.cube),
    decomposition self (Arr2 img) n = (out, Ok (Coeffs3 w)) /\
    decomposition self (Arr2 img) n' = (out', Ok (Coeffs3 w')) /\
    length w <= length w' /\
    (forall j, j + 1 < length w -> nth j w [] = nth j w' []) /\
    ((Z.log2 (Z.of_nat N) <= n - 1)%Z -> w = w').
Proof.
  intros Himg HN Hn.
  pose proof (@effective_lvl_mono n n' N ltac:(lia)) as Hmono.
  do 4 eexists.
  split; [apply (transform_slit_square self "Bspline" 0 Himg HN); lia|].
  split; [apply (transform_slit_square self "Bspline" 0 Himg HN); lia|].
  rewrite !length_planes.
  split; [lia|]. split.
  - intros j Hj. rewrite !nth_planes_detail by lia. reflexivity.
  - intros Hsat. f_equal. unfold effective_lvl. lia.
Qed.

(** The 4x4 image [corner_image] with 2 and with 3 scales. *)
Lemma details_independent_of_n_scales_witness :
  exists (out out' : list string) (w w' : np.cube),
    decomposition default_instance (Arr2 corner_image) 2 = (out, Ok (Coeffs3 w)) /\
    decomposition default_instance (Arr2 corner_image) 3 = (out', Ok (Coeffs3 w')) /\
    length w <= length w' /\
    (forall j, j + 1 < length w -> nth j w [] = nth j w' []).
Proof.
  destruct (@details_independent_of_n_scales default_instance 4 corner_image 2 3)
    as [out [out' [w [w' [H1 [H2 [H3 [H4 _]]]]]]]].
  - split; [reflexivity | repeat constructor].
  - lia.
  - lia.
  - exists out, out', w, w'. auto.
Defined.

(** ** The cache of the spectral norm holds one entry and no failure *)

Section SpectralNormFailure.

Variable util_spectral_norm :
  nat -> Z -> (ndarray -> list string * result coefficients) ->
  (np.cube -> result np.matrix) -> Z -> Qc -> result Qc.

(** A call of [spectral_norm] that raises leaves every attribute of the
    instance as it was, the cache included; and when it raised out of the
    computation, the next call with the same [n_scales] runs the
    computation again. *)
Theorem spectral_norm_failure_not_cached (self self' : Starlets) (tr tr' : trace)
        (num_pix n_scales : Z) (e : exn) :
  spectral_norm util_spectral_norm self tr num_pix n_scales = (Raise e, self', tr') ->
  self' = self /\
  (tr' = tr \/ tr' = tr ++ [(num_pix, n_scales)]) /\
  (tr' <> tr ->
   forall num_pix',
     fst (fst (spectral_norm util_spectral_norm self' tr' num_pix' n_scales))
     = _compute_spectral_norm util_spectral_norm self' tr' num_pix' n_scales 20
                              (Q2Qc (1 # 10000000000)) /\
     snd (spectral_norm util_spectral_norm self' tr' num_pix' n_scales)
     = tr' ++ [(num_pix', n_scales)]).
Proof.
  unfold spectral_norm.
  destruct (cache_is_stale self n_scales) as [[|]|e0] eqn:Estale.
  - destruct (_compute_spectral_norm _ _ _ _ _ _ _) eqn:Ecomp;
      intros H; inversion H; subst.
    split; [reflexivity|]. split; [now right|].
    intros _ num_pix'. rewrite Estale.
    destruct (_compute_spectral_norm _ _ _ num_pix' _ _ _); auto.
  - destruct (_spectral_norm self); intros H; inversion H; subst.
    split; [reflexivity|]. split; [now left|]. intros Hne. congruence.
  - intros H; inversion H; subst.
    split; [reflexivity|]. split; [now left|]. intros Hne. congruence.
Qed.

(** The cache holds the value of the last [n_scales] only: after a call
    for [n] and a call for another [n'] that both return, a call for [n]
    runs the computation again. *)
Theorem spectral_norm_single_entry (s0 s1 s2 : Starlets) (t0 t1 t2 : trace)
        (p p' p'' n n' : Z) (v v' : Qc) :
  spectral_norm util_spectral_norm s0 t0 p n = (Ok v, s1, t1) ->
  n' <> n ->
  spectral_norm util_spectral_norm s1 t1 p' n' = (Ok v', s2, t2) ->
  t2 = t1 ++ [(p', n')] /\
  fst (fst (spectral_norm util_spectral_norm s2 t2 p'' n))
  = _compute_spectral_norm util_spectral_norm s2 t2 p'' n 20 (Q2Qc (1 # 10000000000)) /\
  snd (spectral_norm util_spectral_norm s2 t2 p'' n) = t2 ++ [(p'', n)].
Proof.
  intros H1 Hne H2.
  destruct (spectral_norm_fills_cache _ _ _ _ _ H1) as [Hv1 Hn1].
  destruct (spectral_norm_fills_cache _ _ _ _ _ H2) as [Hv2 Hn2].
  destruct (@spectral_norm_miss util_spectral_norm s1 t1 p' n' n v Hv1 Hn1 Hne)
    as [_ Ht].
  rewrite H2 in Ht. cbn [snd] in Ht.
  split; [exact Ht|].
  apply (@spectral_norm_miss util_spectral_norm s2 t2 p'' n n' v' Hv2 Hn2).
  congruence.
Qed.

End SpectralNormFailure.

(** An estimator that raises on its first run and returns 2 afterwards. *)
Lemma spectral_norm_failure_not_cached_witness :
  let util := fun (seed : nat) (_ : Z) (_ : ndarray -> list string * result coefficients)
                  (_ : np.cube -> result np.matrix) (_ : Z) (_ : Qc) =>
                match seed with
                | O => Raise (UnboundLocalError "i")
                | S _ => Ok (qz 2)
                end in
  spectral_norm util default_instance [] 1 2
  = (Raise (UnboundLocalError "i"), default_instance, [(1, 2)]%Z) /\
  snd (spectral_norm util default_instance [(1, 2)]%Z 64 2) = [(1, 2); (64, 2)]%Z.
Proof.
  intros util. split; [reflexivity|].
  destruct (@spectral_norm_failure_not_cached util default_instance default_instance
              [] [(1, 2)]%Z 1 2 (UnboundLocalError "i") eq_refl)
    as [_ [_ Hnext]].
  apply Hnext. discriminate.
Defined.

(** An estimator that returns 2: calls for 3, for 4 and for 3 again. *)
Lemma spectral_norm_single_entry_witness :
  let util := fun (_ : nat) (_ : Z) (_ : ndarray -> list string * result coefficients)
                  (_ : np.cube -> result np.matrix) (_ : Z) (_ : Qc) => Ok (qz 2) in
  let after (n : Z) :=
    {| _thread_count := 1; _fast_inverse := true; _second_gen := false;
       _show_pysap_plots := false;
       _spectral_norm := Some (qz 2); _n_scales_cache := Some n |} in
  snd (spectral_norm util (after 4%Z) [(64, 3); (64, 4)]%Z 64 3)
  = [(64, 3); (64, 4); (64, 3)]%Z.
Proof.
  intros util after.
  apply (@spectral_norm_single_entry util default_instance (after 3%Z) (after 4%Z)
           [] [(64, 3)]%Z [(64, 3); (64, 4)]%Z 64 64 64 3 4 (qz 2) (qz 2));
    [reflexivity | discriminate | reflexivity].
Defined.

(** ** The transform is linear *)

Lemma item2_outside (n1 n2 : nat) (a : np.matrix) (r c : nat) :
  rect n1 n2 a -> n1 <= r \/ n2 <= c -> np.item2 a r c = 0%Qc.
Proof.
  intros Ha Hout. unfold np.item2.
  destruct (Nat.lt_ge_cases r n1) as [Hr|Hr].
  - apply nth_overflow. rewrite (rect_nth Ha Hr). lia.
  - destruct Ha as [Hl _]. rewrite (nth_overflow a) by lia. now destruct c.
Qed.

Lemma rect_lincomb (n1 n2 : nat) (x y : Qc) (a b : np.matrix) :
  rect n1 n2 a -> rect n1 n2 b -> rect n1 n2 (lincomb x y a b).
Proof. intros; now apply rect_zip_with. Qed.

(** Also outside the arrays, where every read gives 0. *)
Lemma item2_lincomb (n1 n2 : nat) (x y : Qc) (a b : np.matrix) (r c : nat) :
  rect n1 n2 a -> rect n1 n2 b ->
  np.item2 (lincomb x y a b) r c = (x * np.item2 a r c + y * np.item2 b r c)%Qc.
Proof.
  intros Ha Hb.
  destruct (Nat.lt_ge_cases r n1) as [Hr|Hr]; [destruct (Nat.lt_ge_cases c n2) as [Hc|Hc]|].
  - apply (item2_zip_with (fun u v => (x * u + y * v)%Qc) Ha Hb Hr Hc).
  - rewrite (@item2_outside n1 n2 (lincomb x y a b) r c (rect_lincomb x y Ha Hb)),
      (@item2_outside n1 n2 a r c Ha), (@item2_outside n1 n2 b r c Hb)
      by (right; lia). ring.
  - rewrite (@item2_outside n1 n2 (lincomb x y a b) r c (rect_lincomb x y Ha Hb)),
      (@item2_outside n1 n2 a r c Ha), (@item2_outside n1 n2 b r c Hb)
      by (left; lia). ring.
Qed.

Lemma sum_lincomb (A : Type) (x y : Qc) (f g : A -> Qc) (l : list A) :
  np.sum (map (fun j => (x * f j + y * g j)%Qc) l)
  = (x * np.sum (map f l) + y * np.sum (map g l))%Qc.
Proof.
  induction l as [|j l IH]; cbn [map]; rewrite ?sum_cons.
  - change (np.sum []) with 0%Qc. ring.
  - rewrite IH. ring.
Qed.

(** One smoothing of x a + y b is x times the smoothing of a plus y times
    the smoothing of b, in either code path. *)
Lemma smooth_lincomb (n1 n2 : nat) (convol2d : Z) (nh : np.vector) (x y : Qc)
      (a b : np.matrix) :
  rect n1 n2 a -> rect n1 n2 b ->
  smooth convol2d (lincomb x y a b) nh
  = lincomb x y (smooth convol2d a nh) (smooth convol2d b nh).
Proof.
  intros Ha Hb.
  pose proof (rect_lincomb x y Ha Hb) as Hab.
  apply (@rect_ext n1 n2).
  - now apply rect_smooth.
  - apply rect_lincomb; now apply rect_smooth.
  - intros r c Hr Hc.
    rewrite (item2_lincomb x y r c (rect_smooth convol2d nh Ha)
                           (rect_smooth convol2d nh Hb)).
    destruct (Z.eq_dec convol2d 1) as [->|Hcv].
    + rewrite !(@item2_smooth_direct n1 n2 _ nh r c) by assumption.
      cbv zeta. etransitivity; [|apply sum_lincomb].
      apply sum_ext_seq. intros i Hi. cbv beta.
      etransitivity; [|apply sum_lincomb].
      apply sum_ext_seq. intros j Hj. cbv beta.
      rewrite (item2_lincomb x y _ _ Ha Hb). ring.
    + rewrite !(@item2_smooth_separable n1 n2 _ nh convol2d r c) by assumption.
      cbv zeta. etransitivity; [|apply sum_lincomb].
      apply sum_ext_seq. intros j Hj. cbv beta.
      match goal with
      | |- (_ * np.sum (map ?F ?l))%Qc
           = (_ * (_ * np.sum (map ?G _)) + _ * (_ * np.sum (map ?H _)))%Qc =>
          assert (Hin : np.sum (map F l)
                        = (x * np.sum (map G l) + y * np.sum (map H l))%Qc)
      end.
      { etransitivity; [|apply sum_lincomb].
        apply sum_ext_seq. intros i Hi. cbv beta.
        rewrite (item2_lincomb x y _ _ Ha Hb). ring. }
      rewrite Hin. ring.
Qed.

Lemma subtract_lincomb (n1 n2 : nat) (x y : Qc) (a b a' b' : np.matrix) :
  rect n1 n2 a -> rect n1 n2 b -> rect n1 n2 a' -> rect n1 n2 b' ->
  np.subtract (lincomb x y a b) (lincomb x y a' b')
  = lincomb x y (np.subtract a a') (np.subtract b b').
Proof.
  intros Ha Hb Ha' Hb'.
  apply (@rect_ext n1 n2).
  - apply rect_subtract; now apply rect_lincomb.
  - apply rect_lincomb; now apply rect_subtract.
  - intros r c Hr Hc. unfold np.subtract at 1.
    rewrite (item2_zip_with Qcminus (rect_lincomb x y Ha Hb)
                            (rect_lincomb x y Ha' Hb') Hr Hc).
    rewrite (item2_lincomb x y r c (rect_subtract Ha Ha') (rect_subtract Hb Hb')).
    rewrite (item2_lincomb x y r c Ha Hb), (item2_lincomb x y r c Ha' Hb').
    unfold np.subtract.
    rewrite (item2_zip_with Qcminus Ha Ha' Hr Hc), (item2_zip_with Qcminus Hb Hb' Hr Hc).
    ring.
Qed.

Lemma coarse_lincomb (n1 n2 : nat) (convol2d : Z) (h : np.vector) (x y : Qc) (len : nat) :
  forall i0 a b,
    rect n1 n2 a -> rect n1 n2 b ->
    coarse convol2d h i0 len (lincomb x y a b)
    = lincomb x y (coarse convol2d h i0 len a) (coarse convol2d h i0 len b).
Proof.
  induction len as [|len IH]; intros i0 a b Ha Hb; cbn [coarse]; [reflexivity|].
  unfold next_c at 1. rewrite (smooth_lincomb convol2d (dilated h i0) x y Ha Hb).
  apply IH; now apply rect_smooth.
Qed.

Lemma detail_lincomb (n1 n2 : nat) (sg : bool) (convol2d : Z) (h : np.vector)
      (x y : Qc) (i : nat) (a b : np.matrix) :
  rect n1 n2 a -> rect n1 n2 b ->
  detail sg convol2d h i (lincomb x y a b)
  = lincomb x y (detail sg convol2d h i a) (detail sg convol2d h i b).
Proof.
  intros Ha Hb. unfold detail, next_c.
  rewrite (smooth_lincomb convol2d (dilated h i) x y Ha Hb).
  destruct sg.
  - rewrite (smooth_lincomb convol2d (dilated h i) x y
               (rect_smooth convol2d (dilated h i) Ha)
               (rect_smooth convol2d (dilated h i) Hb)).
    apply (@subtract_lincomb n1 n2); auto; now do 2 apply rect_smooth.
  - apply (@subtract_lincomb n1 n2); auto; now apply rect_smooth.
Qed.

Lemma planes_lincomb (n1 n2 : nat) (sg : bool) (convol2d : Z) (h : np.vector)
      (x y : Qc) (L : nat) (a b : np.matrix) :
  rect n1 n2 a -> rect n1 n2 b ->
  planes sg convol2d h L (lincomb x y a b)
  = np.zip_with (lincomb x y) (planes sg convol2d h L a) (planes sg convol2d h L b).
Proof.
  intros Ha Hb.
  apply (nth_ext _ _ [] []).
  - rewrite length_zip_with, !length_planes. lia.
  - intros j Hj. rewrite length_planes in Hj.
    rewrite (nth_zip_with _ _ _ [] [] []) by (rewrite length_planes; lia).
    destruct (Nat.eq_dec j L) as [->|Hne].
    + rewrite !nth_planes_coarse. now apply (@coarse_lincomb n1 n2).
    + rewrite !nth_planes_detail by lia.
      rewrite (coarse_lincomb convol2d h x y j 0 Ha Hb).
      apply (@detail_lincomb n1 n2); now apply rect_coarse.
Qed.

(** On square images the decomposition is a linear map: the cube of
    x a + y b is x times the cube of a plus y times the cube of b, plane by
    plane, in both generations. *)
Theorem decomposition_linear (self : Starlets) (N : nat) (a b : np.matrix)
        (x y : Qc) (n : Z) :
  rect N N a -> rect N N b -> 2 <= N -> (2 <= n)%Z ->
  exists (out : list string) (wa wb : np.cube),
    decomposition self (Arr2 a) n = (out, Ok (Coeffs3 wa)) /\
    decomposition self (Arr2 b) n = (out, Ok (Coeffs3 wb)) /\
    decomposition self (Arr2 (lincomb x y a b)) n
    = (out, Ok (Coeffs3 (np.zip_with (lincomb x y) wa wb))).
Proof.
  intros Ha Hb HN Hn.
  do 3 eexists.
  split; [apply (transform_slit_square self "Bspline" 0 Ha HN Hn)|].
  split; [apply (transform_slit_square self "Bspline" 0 Hb HN Hn)|].
  unfold decomposition.
  rewrite (transform_slit_square self "Bspline" 0 (rect_lincomb x y Ha Hb) HN Hn).
  do 3 f_equal. now apply (@planes_lincomb N N).
Qed.

(** Twice [corner_image] plus three times another 4x4 image. *)
Lemma decomposition_linear_witness :
  exists (out : list string) (wa wb : np.cube),
    decomposition default_instance (Arr2 corner_image) 3 = (out, Ok (Coeffs3 wa)) /\
    decomposition default_instance
      (Arr2 (of_ints [[1; 2; 3; 4]; [5; 6; 7; 8]; [9; 10; 11; 12]; [13; 14; 15; 16]]%Z)) 3
    = (out, Ok (Coeffs3 wb)) /\
    decomposition default_instance
      (Arr2 (lincomb (qz 2) (qz 3) corner_image
               (of_ints [[1; 2; 3; 4]; [5; 6; 7; 8]; [9; 10; 11; 12]; [13; 14; 15; 16]]%Z))) 3
    = (out, Ok (Coeffs3 (np.zip_with (lincomb (qz 2) (qz 3)) wa wb))).
Proof.
  apply (@decomposition_linear default_instance 4); try lia;
    (split; [reflexivity | repeat constructor]).
Defined.

(** ** Constant images *)

Lemma sum_set_nth (p : nat) (v : Qc) (a : np.vector) :
  p < length a ->
  np.sum (np.set_nth p v a) = (np.sum a - nth p a 0 + v)%Qc.
Proof.
  revert p; induction a as [|u a IH]; intros [|p] Hp; simpl in Hp; try lia.
  - cbn [np.set_nth nth]. rewrite !sum_cons. ring.
  - cbn [np.set_nth nth]. rewrite !sum_cons, IH by lia. ring.
Qed.

(** Writing values over zeros at distinct positions adds them to the sum. *)
Lemma put_sum (idx : list Z) :
  forall (vals a a' : np.vector),
    length idx = length vals ->
    (forall k, In k idx -> (0 <= k < Z.of_nat (length a))%Z) ->
    NoDup idx ->
    (forall k, In k idx -> nth (Z.to_nat k) a 0%Qc = 0%Qc) ->
    np.put a idx vals = Ok a' ->
    np.sum a' = (np.sum a + np.sum vals)%Qc.
Proof.
  induction idx as [|k idx IH]; intros [|v vals] a a' Hlen Hin Hnd Hzero Hput;
    simpl in Hlen; try discriminate.
  - simpl in Hput. inversion Hput; subst. change (np.sum []) with 0%Qc. ring.
  - inversion Hnd as [|? ? Hk Hnd']; subst.
    assert (Hk0 : (0 <= k < Z.of_nat (length a))%Z) by (apply Hin; now left).
    cbn [np.put] in Hput. rewrite (index_in_range _ Hk0) in Hput.
    rewrite (IH vals (np.set_nth (Z.to_nat k) v a) a'); auto.
    + rewrite sum_set_nth by lia. rewrite (Hzero k) by now left.
      rewrite sum_cons. ring.
    + intros k' Hk'. rewrite length_set_nth. apply Hin. now right.
    + intros k' Hk'. rewrite nth_set_nth_ne.
      * apply Hzero. now right.
      * assert (0 <= k')%Z by (apply Hin; now right).
        intros Heq. apply Hk. replace k with k' by lia. exact Hk'.
Qed.

Lemma sum_zeros1 (n : nat) : np.sum (np.zeros1 n) = 0%Qc.
Proof.
  unfold np.zeros1. induction n as [|n IH]; [reflexivity|].
  cbn [repeat]. rewrite sum_cons, IH. ring.
Qed.

(** The zeros inserted by the dilation do not change the sum of the taps. *)
Lemma sum_dilated (h : np.vector) (i : nat) :
  2 <= length h -> np.sum (dilated h i) = np.sum h.
Proof.
  intros Hn.
  pose proof (@dilated_newh h i Hn) as Hnewh. unfold newh in Hnewh.
  set (n := length h) in *.
  assert (Hp : 1 <= 2 ^ i) by (apply Nat.neq_0_lt_0, Nat.pow_nonzero; lia).
  assert (Hpow : (2 ^ Z.of_nat i)%Z = Z.of_nat (2 ^ i))
    by (rewrite Nat2Z.inj_pow; reflexivity).
  rewrite newh_size_Z in Hnewh by lia.
  destruct (Z.ltb_spec (Z.of_nat (newh_size n i)) 0) as [Hneg|_]; [lia|].
  rewrite Nat2Z.id in Hnewh.
  replace (Z.of_nat (newh_size n i) - 1)%Z with ((Z.of_nat n - 1) * 2 ^ Z.of_nat i)%Z
    in Hnewh by (rewrite (newh_size_taps i), Hpow by lia; nia).
  rewrite linspace_taps in Hnewh by exact Hn.
  transitivity (np.sum (np.zeros1 (newh_size n i)) + np.sum h)%Qc;
    [|rewrite sum_zeros1; ring].
  apply (@put_sum (map (fun k => (Z.of_nat k * 2 ^ Z.of_nat i)%Z) (seq 0 n))
                  h (np.zeros1 (newh_size n i)) (dilated h i)).
  - now rewrite length_map, length_seq.
  - intros z Hz. apply in_map_iff in Hz.
    destruct Hz as [j [<- Hj]]. apply in_seq in Hj.
    unfold np.zeros1. rewrite repeat_length, (newh_size_taps i), Hpow by lia.
    nia.
  - apply NoDup_map_NoDup_ForallPairs; [|apply seq_NoDup].
    intros x y _ _ Hxy. nia.
  - intros z _. unfold np.zeros1.
    destruct (Nat.lt_ge_cases (Z.to_nat z) (newh_size n i)).
    + now apply nth_repeat_lt.
    + apply nth_overflow. now rewrite repeat_length.
  - exact Hnewh.
Qed.

Lemma sum_rev (l : np.vector) : np.sum (rev l) = np.sum l.
Proof.
  induction l as [|x l IH]; [reflexivity|].
  cbn [rev]. rewrite sum_app, IH, !sum_cons.
  change (np.sum []) with 0%Qc. ring.
Qed.

Lemma sum_base_filter (Filter : string) : np.sum (base_filter Filter) = 1%Qc.
Proof.
  unfold base_filter. destruct (String.eqb Filter "Bspline");
    apply Qc_is_canon; vm_compute; reflexivity.
Qed.

Lemma rect_full (n1 n2 : nat) (x : Qc) : rect n1 n2 (full n1 n2 x).
Proof.
  unfold full. split; [apply repeat_length|].
  apply Forall_forall. intros row Hrow. apply repeat_spec in Hrow. subst.
  apply repeat_length.
Qed.

Lemma item2_full (n1 n2 : nat) (x : Qc) (r c : nat) :
  r < n1 -> c < n2 -> np.item2 (full n1 n2 x) r c = x.
Proof.
  intros Hr Hc. unfold np.item2, full.
  rewrite (nth_repeat_lt (repeat x n2) [] Hr). now apply nth_repeat_lt.
Qed.

(** A filter whose taps add up to 1 leaves a constant image as it is, in
    the separable path: beyond a border the same constant is read. *)
Lemma smooth_full (n1 n2 : nat) (convol2d : Z) (nh : np.vector) (x : Qc) :
  convol2d <> 1%Z -> np.sum nh = 1%Qc ->
  smooth convol2d (full n1 n2 x) nh = full n1 n2 x.
Proof.
  intros Hcv Hsum.
  apply (@rect_ext n1 n2); [apply rect_smooth | |]; try apply rect_full.
  intros r c Hr Hc.
  rewrite (@item2_smooth_separable n1 n2 _ nh convol2d r c (rect_full n1 n2 x))
    by assumption.
  cbv zeta. rewrite item2_full by assumption.
  assert (Hw : np.sum (map (fun j => nth j (rev nh) 0%Qc) (seq 0 (length nh))) = 1%Qc).
  { rewrite <- (length_rev nh), map_seq_nth, sum_rev. exact Hsum. }
  assert (Hin : forall b, b < length nh ->
             np.sum (map (fun a =>
               (nth a (rev nh) 0 *
                np.item2 (full n1 n2 x)
                  (clamp n1 (Z.of_nat r + Z.of_nat a
                             - (Z.of_nat (length nh / 2)
                                + (if Nat.even (length nh) then -1 else 0))))
                  (clamp n2 (Z.of_nat c + Z.of_nat b
                             - (Z.of_nat (length nh / 2)
                                + (if Nat.even (length nh) then -1 else 0)))))%Qc)
               (seq 0 (length nh))) = x).
  { intros b Hb.
    rewrite (sum_ext_seq _ (fun a => (x * nth a (rev nh) 0)%Qc)).
    - rewrite <- sum_scale, Hw. ring.
    - intros a Ha. rewrite item2_full by (apply clamp_lt; lia). ring. }
  rewrite (sum_ext_seq _ (fun b => (x * nth b (rev nh) 0)%Qc)).
  - rewrite <- sum_scale, Hw. ring.
  - intros b Hb. rewrite Hin by exact Hb. ring.
Qed.

Lemma coarse_full (N : nat) (Filter : string) (x : Qc) (len : nat) :
  forall i0, coarse 0 (base_filter Filter) i0 len (full N N x) = full N N x.
Proof.
  induction len as [|len IH]; intros i0; cbn [coarse]; [reflexivity|].
  unfold next_c. rewrite smooth_full; [apply IH | discriminate |].
  rewrite sum_dilated by apply base_filter_length. apply sum_base_filter.
Qed.

Lemma subtract_full (n1 n2 : nat) (x : Qc) :
  np.subtract (full n1 n2 x) (full n1 n2 x) = np.zeros2 n1 n2.
Proof.
  apply (@rect_ext n1 n2).
  - apply rect_subtract; apply rect_full.
  - apply (rect_full n1 n2 0%Qc).
  - intros r c Hr Hc. unfold np.subtract.
    rewrite (item2_zip_with Qcminus (rect_full n1 n2 x) (rect_full n1 n2 x) Hr Hc).
    rewrite item2_full by assumption.
    change (np.zeros2 n1 n2) with (full n1 n2 0%Qc).
    rewrite item2_full by assumption. ring.
Qed.

(** The decomposition of a constant square image, in both generations:
    every detail plane is zero and the coarse plane is the image.  In
    particular the cube of the zero image is zero. *)
Theorem decomposition_constant_image (self : Starlets) (N : nat) (x : Qc) (n : Z) :
  2 <= N -> (2 <= n)%Z ->
  exists (out : list string) (w : np.cube),
    decomposition self (Arr2 (full N N x)) n = (out, Ok (Coeffs3 w)) /\
    w = repeat (np.zeros2 N N) (effective_lvl n N) ++ [full N N x] /\
    function self w n = Ok (full N N x).
Proof.
  intros HN Hn.
  do 2 eexists.
  split; [apply (transform_slit_square self "Bspline" 0 (rect_full N N x) HN Hn)|].
  assert (Hplanes : planes (_second_gen self) 0 (base_filter "Bspline")
                           (effective_lvl n N) (full N N x)
                    = repeat (np.zeros2 N N) (effective_lvl n N) ++ [full N N x]).
  { unfold planes. rewrite coarse_full. f_equal.
    assert (Hmap : forall l : list nat,
               map (fun j => detail (_second_gen self) 0 (base_filter "Bspline") j
                                    (coarse 0 (base_filter "Bspline") 0 j (full N N x))) l
               = repeat (np.zeros2 N N) (length l)).
    { induction l as [|j l IH]; [reflexivity|].
      cbn [map length repeat]. rewrite IH. f_equal.
      rewrite coarse_full. unfold detail, next_c.
      assert (Hs : np.sum (dilated (base_filter "Bspline") j) = 1%Qc).
      { rewrite sum_dilated by apply base_filter_length. apply sum_base_filter. }
      rewrite !smooth_full by (discriminate || exact Hs).
      destruct (_second_gen self); apply subtract_full. }
    rewrite Hmap, length_seq. reflexivity. }
  split; [exact Hplanes|].
  destruct (_second_gen self) eqn:Hsg.
  - unfold function. change (base_filter "Bspline") with bspline.
    apply (@inverse_transform_slit_planes self N); [apply rect_full | lia | exact Hsg].
  - destruct (_fast_inverse self) eqn:Hfast.
    + unfold function, _inverse_transform_slit. rewrite Hfast, Hsg. cbn [andb negb].
      f_equal. apply (@sum_axis0_planes N N). apply rect_full.
    + (* recursive path on first-generation planes of a constant image *)
      rewrite Hplanes.
      unfold function, _inverse_transform_slit. rewrite Hfast. cbn [andb].
      rewrite <- Hplanes.
      rewrite (shape3_planes false 0 (base_filter "Bspline") (effective_lvl n N)
                 (rect_full N N x)) by lia.
      replace (effective_lvl n N + 1) with (S (effective_lvl n N)) by lia.
      replace (S (effective_lvl n N) - 1) with (effective_lvl n N) by lia.
      rewrite nth_planes_coarse, coarse_full.
      assert (Hloop : forall k, k <= effective_lvl n N ->
                 inverse_loop 0 bspline (S (effective_lvl n N)) (seq 1 k)
                   (planes false 0 (base_filter "Bspline") (effective_lvl n N)
                           (full N N x)) (full N N x)
                 = Ok (full N N x)).
      { induction k as [|k IH]; intros Hk; [reflexivity|].
        rewrite seq_S, inverse_loop_app, IH by lia.
        cbn [bind inverse_loop Nat.add].
        rewrite (@dilated_newh bspline) by (simpl; lia). cbn [bind].
        rewrite nth_planes_detail by lia.
        rewrite coarse_full. unfold detail, next_c. f_equal.
        change bspline with (base_filter "Bspline").
        assert (Hs : forall j, np.sum (dilated (base_filter "Bspline") j) = 1%Qc).
        { intros j. rewrite sum_dilated by apply base_filter_length.
          apply sum_base_filter. }
        rewrite !smooth_full by (discriminate || apply Hs).
        rewrite subtract_full.
        apply (@rect_ext N N).
        - apply rect_add; [apply rect_full | exact (rect_full N N 0%Qc)].
        - apply rect_full.
        - intros r c Hr Hc. unfold np.add.
          change (np.zeros2 N N) with (full N N 0%Qc).
          rewrite (item2_zip_with Qcplus (rect_full N N x) (rect_full N N 0%Qc) Hr Hc).
          rewrite !item2_full by assumption. ring. }
      rewrite Hloop by lia. cbn [bind].
      apply reshape_same, rect_full.
Qed.

(** The 4x4 image of sevens with three scales. *)
Lemma decomposition_constant_image_witness :
  exists (out : list string) (w : np.cube),
    decomposition default_instance (Arr2 (full 4 4 (qz 7))) 3 = (out, Ok (Coeffs3 w)) /\
    w = repeat (np.zeros2 4 4) (effective_lvl 3 4) ++ [full 4 4 (qz 7)] /\
    function default_instance w 3 = Ok (full 4 4 (qz 7)).
Proof.
  apply (@decomposition_constant_image default_instance 4 (qz 7) 3); lia.
Defined.

(** ** The recursive inverse applied to first-generation planes *)

Lemma effective_lvl_two (N : nat) : 2 <= N -> effective_lvl 2 N = 1.
Proof.
  intros HN. unfold effective_lvl.
  assert (1 <= Z.log2 (Z.of_nat N))%Z by (apply Z.log2_le_pow2; simpl; lia).
  lia.
Qed.

(** With [fast_inverse=False] and the first generation, [function] runs
    the recursion meant for the second generation.  For n_scales = 2 on a
    square image it returns smooth(c1) + (img - c1), where c1 is the image
    smoothed once; this is the image exactly when c1 is left unchanged by
    one more smoothing. *)
Theorem first_generation_without_fast_inverse (self : Starlets) (N : nat)
        (img : np.matrix) :
  _fast_inverse self = false -> _second_gen self = false ->
  rect N N img -> 2 <= N ->
  let c1 := smooth 0 img bspline in
  exists (out : list string) (w : np.cube),
    decomposition self (Arr2 img) 2 = (out, Ok (Coeffs3 w)) /\
    function self w 2 = Ok (np.add (smooth 0 c1 bspline) (np.subtract img c1)) /\
    (function self w 2 = Ok img <-> smooth 0 c1 bspline = c1).
Proof.
  intros Hfast Hsg Himg HN c1.
  assert (Hc1 : rect N N c1) by now apply rect_smooth.
  assert (Hs : rect N N (smooth 0 c1 bspline)) by now apply rect_smooth.
  assert (Hfun : function self (planes false 0 (base_filter "Bspline") 1 img) 2
                 = Ok (np.add (smooth 0 c1 bspline) (np.subtract img c1))).
  { unfold function, _inverse_transform_slit. rewrite Hfast. cbn [andb].
    rewrite (shape3_planes false 0 (base_filter "Bspline") 1 Himg) by lia.
    cbn [Nat.add Nat.sub seq inverse_loop].
    rewrite (@dilated_newh bspline 0) by (simpl; lia). cbn [bind].
    change (dilated bspline 0) with bspline.
    change (nth 1 (planes false 0 (base_filter "Bspline") 1 img) []) with c1.
    change (nth 0 (planes false 0 (base_filter "Bspline") 1 img) [])
      with (np.subtract img c1).
    apply reshape_same. apply rect_add; [exact Hs | now apply rect_subtract]. }
  pose proof (@transform_slit_square self N img 2 "Bspline" 0 Himg HN ltac:(lia))
    as Hdec.
  rewrite Hsg, (effective_lvl_two HN) in Hdec.
  do 2 eexists.
  split.
  - exact Hdec.
  - split; [exact Hfun|]. rewrite Hfun. split.
    + intros Heq. inversion Heq as [Hm].
      apply (@rect_ext N N); auto. intros r c Hr Hc.
      apply (f_equal (fun m => np.item2 m r c)) in Hm.
      unfold np.add in Hm.
      rewrite (item2_zip_with Qcplus Hs (rect_subtract Himg Hc1) Hr Hc) in Hm.
      unfold np.subtract in Hm.
      rewrite (item2_zip_with Qcminus Himg Hc1 Hr Hc) in Hm.
      transitivity (np.item2 (smooth 0 c1 bspline) r c
                    + (np.item2 img r c - np.item2 c1 r c)
                    - np.item2 img r c + np.item2 c1 r c)%Qc; [ring|].
      rewrite Hm. ring.
    + intros Hfix. rewrite Hfix. f_equal. now apply (@add_subtract_cancel N N).
Qed.

(** [Starlets(fast_inverse=False)] on [corner_image]: the reconstruction
    is not the image. *)
Lemma first_generation_without_fast_inverse_witness :
  exists (out : list string) (w : np.cube),
    decomposition (__init__ 1 false false false) (Arr2 corner_image) 2
    = (out, Ok (Coeffs3 w)) /\
    function (__init__ 1 false false false) w 2 <> Ok corner_image.
Proof.
  destruct (@first_generation_without_fast_inverse (__init__ 1 false false false)
              4 corner_image eq_refl eq_refl)
    as [out [w [Hdec [_ Hiff]]]].
  - split; [reflexivity | repeat constructor].
  - lia.
  - exists out, w. split; [exact Hdec|].
    intros Heq. apply Hiff in Heq. revert Heq.
    apply matrix_eqb_false. vm_compute. reflexivity.
Defined.

(** * The Euclid settings *)

Lemma get_set_eq (d : py.dict) (key : string) (v : py.value) :
  py.get (py.set d key v) key = Some v.
Proof.
  induction d as [|[k u] d IH]; simpl.
  - now rewrite String.eqb_refl.
  - destruct (String.eqb k key) eqn:E; simpl; rewrite E; auto.
Qed.

Lemma get_set_ne (d : py.dict) (key key' : string) (v : py.value) :
  key <> key' -> py.get (py.set d key v) key' = py.get d key'.
Proof.
  intros Hne. induction d as [|[k u] d IH]; simpl.
  - destruct (String.eqb_spec key key'); [contradiction | reflexivity].
  - destruct (String.eqb_spec k key) as [->|Hk]; simpl.
    + destruct (String.eqb_spec key key'); [contradiction | reflexivity].
    + destruct (String.eqb k key'); auto.
Qed.

(** The constructor accepts exactly the band "VIS", the PSF type "GAUSSIAN"
    and 2 <= coadd_years <= 6; anything else raises ValueError and leaves
    the module-level dictionary as it was. *)
Theorem Euclid_init_validation (vis_obs : py.dict) (band psf_type : string)
        (coadd_years k : Z) :
  py.get vis_obs "num_exposures" = Some (py.Int k) ->
  ((exists inst vis_obs',
       Euclid.__init__ vis_obs band psf_type coadd_years = (py.Return inst, vis_obs'))
   <-> band = "VIS"%string /\ psf_type = "GAUSSIAN"%string /\ (2 <= coadd_years <= 6)%Z) /\
  (~ (band = "VIS"%string /\ psf_type = "GAUSSIAN"%string /\ (2 <= coadd_years <= 6)%Z) ->
   exists msg,
     Euclid.__init__ vis_obs band psf_type coadd_years
     = (py.Throw (py.ValueError msg), vis_obs)).
Proof.
  intros Hget. unfold Euclid.__init__.
  destruct (String.eqb_spec band "VIS") as [Hb|Hb]; cbn [negb].
  2:{ split.
      - split; [intros [i [g H]]; discriminate | intros [H _]; contradiction].
      - intros _. eexists. reflexivity. }
  destruct (String.eqb_spec psf_type "GAUSSIAN") as [Hp|Hp]; cbn [negb].
  2:{ split.
      - split; [intros [i [g H]]; discriminate | intros [_ [H _]]; contradiction].
      - intros _. eexists. reflexivity. }
  destruct (Z.ltb_spec 6 coadd_years) as [Hhi|Hhi]; cbn [orb].
  { split.
    - split; [intros [i [g H]]; discriminate | intros [_ [_ H]]; lia].
    - intros _. eexists. reflexivity. }
  destruct (Z.ltb_spec coadd_years 2) as [Hlo|Hlo].
  { split.
    - split; [intros [i [g H]]; discriminate | intros [_ [_ H]]; lia].
    - intros _. eexists. reflexivity. }
  split.
  - split; [intros _; repeat split; auto; lia|].
    intros _. rewrite Hget. cbn [Euclid.scaled_exposures].
    destruct (negb (coadd_years =? 6)%Z); do 2 eexists; reflexivity.
  - intros Hnot. exfalso. apply Hnot. repeat split; auto; lia.
Qed.

(** The module as loaded, with an unsupported band. *)
Lemma Euclid_init_validation_witness :
  exists msg,
    Euclid.__init__ Euclid.VIS_obs "H" "GAUSSIAN" 6
    = (py.Throw (py.ValueError msg), Euclid.VIS_obs).
Proof.
  apply (@Euclid_init_validation Euclid.VIS_obs "H" "GAUSSIAN" 6 4 eq_refl).
  intros [H _]. discriminate.
Defined.

(** An accepted construction with coadd_years = c writes (c k) // 6 over
    the k found under "num_exposures" of the module-level dictionary,
    unless c = 6; no other key changes; the instance reads its [obs]
    through that dictionary, and its [camera] is always the same. *)
Theorem Euclid_init_num_exposures (vis_obs : py.dict) (coadd_years k : Z) :
  py.get vis_obs "num_exposures" = Some (py.Int k) ->
  (2 <= coadd_years <= 6)%Z ->
  exists inst vis_obs',
    Euclid.__init__ vis_obs "VIS" "GAUSSIAN" coadd_years = (py.Return inst, vis_obs') /\
    py.get (Euclid.deref vis_obs' (Euclid.obs inst)) "num_exposures"
    = Some (py.Int (if (coadd_years =? 6)%Z then k else (coadd_years * k) / 6)) /\
    (forall key, key <> "num_exposures"%string ->
                 py.get vis_obs' key = py.get vis_obs key) /\
    (coadd_years = 6%Z -> vis_obs' = vis_obs) /\
    Euclid.camera inst
    = [("read_noise", py.Float (Q2Qc (42 # 10)));
       ("pixel_scale", py.Float (Q2Qc (101 # 1000)));
       ("ccd_gain", py.Float (Q2Qc (31 # 10)))]%string.
Proof.
  intros Hget Hc. unfold Euclid.__init__. cbn [String.eqb Ascii.eqb Bool.eqb negb].
  destruct (Z.ltb_spec 6 coadd_years); [lia|].
  destruct (Z.ltb_spec coadd_years 2); [lia|]. cbn [orb].
  destruct (Z.eqb_spec coadd_years 6) as [->|Hne]; cbn [negb].
  - do 2 eexists. split; [reflexivity|]. cbn [Euclid.deref Euclid.obs Euclid.camera].
    repeat split; auto.
  - rewrite Hget. cbn [Euclid.scaled_exposures].
    do 2 eexists. split; [reflexivity|]. cbn [Euclid.deref Euclid.obs Euclid.camera].
    split; [apply get_set_eq|]. split; [|split; [lia | reflexivity]].
    intros key Hkey. apply get_set_ne. congruence.
Qed.

(** The module as loaded and coadd_years = 3: two exposures. *)
Lemma Euclid_init_num_exposures_witness :
  exists inst vis_obs',
    Euclid.__init__ Euclid.VIS_obs "VIS" "GAUSSIAN" 3 = (py.Return inst, vis_obs') /\
    py.get (Euclid.deref vis_obs' (Euclid.obs inst)) "num_exposures" = Some (py.Int 2).
Proof.
  destruct (@Euclid_init_num_exposures Euclid.VIS_obs 3 4 eq_refl ltac:(lia))
    as [inst [g [H1 [H2 _]]]].
  exists inst, g. split; [exact H1 | exact H2].
Defined.

Lemma Euclid_init_step (vis_obs : py.dict) (c k : Z) :
  py.get vis_obs "num_exposures" = Some (py.Int k) -> (0 <= k)%Z ->
  exists k',
    py.get (snd (Euclid.__init__ vis_obs "VIS" "GAUSSIAN" c)) "num_exposures"
    = Some (py.Int k') /\
    (0 <= k' <= k)%Z /\
    ((2 <= c <= 5)%Z -> (0 < k)%Z -> (k' < k)%Z).
Proof.
  intros Hget Hk. unfold Euclid.__init__. cbn [String.eqb Ascii.eqb Bool.eqb negb].
  destruct (Z.ltb_spec 6 c); cbn [orb snd].
  { exists k. repeat split; auto; lia. }
  destruct (Z.ltb_spec c 2); cbn [snd].
  { exists k. repeat split; auto; lia. }
  destruct (Z.eqb_spec c 6) as [->|Hne]; cbn [negb snd].
  { exists k. repeat split; auto; lia. }
  rewrite Hget. cbn [Euclid.scaled_exposures snd].
  exists ((c * k) / 6)%Z. split; [apply get_set_eq|].
  assert (0 <= c * k / 6)%Z by (apply Z.div_pos; nia).
  assert (c * k / 6 <= k)%Z by (apply Z.div_le_upper_bound; nia).
  split; [lia|]. intros Hc Hpos.
  apply Z.div_lt_upper_bound; nia.
Qed.

(** All instances share one dictionary, which every construction with
    coadd_years < 6 rewrites: over any series of constructions the value
    under "num_exposures" never increases, and an instance built
    afterwards with the default coadd_years = 6 reports what is left, not
    the value the module was loaded with. *)
Theorem Euclid_shared_num_exposures (vis_obs : py.dict) (k : Z) (years : list Z) :
  py.get vis_obs "num_exposures" = Some (py.Int k) -> (0 <= k)%Z ->
  exists k' inst,
    py.get (Euclid.constructions vis_obs years) "num_exposures" = Some (py.Int k') /\
    (0 <= k' <= k)%Z /\
    Euclid.__init__ (Euclid.constructions vis_obs years) "VIS" "GAUSSIAN" 6
    = (py.Return inst, Euclid.constructions vis_obs years) /\
    py.get (Euclid.deref (Euclid.constructions vis_obs years) (Euclid.obs inst))
           "num_exposures" = Some (py.Int k').
Proof.
  intros Hget Hk.
  assert (Hseq : exists k', py.get (Euclid.constructions vis_obs years) "num_exposures"
                            = Some (py.Int k') /\ (0 <= k' <= k)%Z).
  { revert vis_obs k Hget Hk. induction years as [|c years IH]; intros g k Hget Hk.
    - exists k. split; [exact Hget | lia].
    - destruct (@Euclid_init_step g c k Hget Hk) as [k1 [H1 [Hr1 _]]].
      destruct (IH _ k1 H1 ltac:(lia)) as [k' [H' Hr']].
      exists k'. split; [exact H' | lia]. }
  destruct Hseq as [k' [H' Hr']].
  exists k'. eexists. split; [exact H'|]. split; [exact Hr'|].
  split; [reflexivity | exact H'].
Qed.

(** The module as loaded, then [Euclid(coadd_years=3)] and [Euclid()]. *)
Lemma Euclid_shared_num_exposures_witness :
  exists inst,
    Euclid.__init__ (Euclid.constructions Euclid.VIS_obs [3%Z]) "VIS" "GAUSSIAN" 6
    = (py.Return inst, Euclid.constructions Euclid.VIS_obs [3%Z]) /\
    py.get (Euclid.deref (Euclid.constructions Euclid.VIS_obs [3%Z]) (Euclid.obs inst))
           "num_exposures" = Some (py.Int 2).
Proof.
  destruct (@Euclid_shared_num_exposures Euclid.VIS_obs 4 [3%Z] eq_refl ltac:(lia))
    as [k' [inst [Hk' [_ [Hinit Hread]]]]].
  exists inst. split; [exact Hinit|].
  rewrite Hread. rewrite <- Hk'. reflexivity.
Defined.

(** Constructions with coadd_years between 2 and 5 use the shared value
    up: each lowers a positive "num_exposures" by at least one, so after
    as many of them as its value it is 0. *)
Theorem Euclid_num_exposures_exhausted (vis_obs : py.dict) (k : Z) (years : list Z) :
  py.get vis_obs "num_exposures" = Some (py.Int k) -> (0 <= k)%Z ->
  Forall (fun c => (2 <= c <= 5)%Z) years ->
  (k <= Z.of_nat (length years))%Z ->
  py.get (Euclid.constructions vis_obs years) "num_exposures" = Some (py.Int 0).
Proof.
  revert vis_obs k. induction years as [|c years IH]; intros g k Hget Hk Hall Hlen.
  - simpl in Hlen. replace k with 0%Z in Hget by lia. exact Hget.
  - inversion Hall as [|? ? Hc Hall']; subst.
    destruct (@Euclid_init_step g c k Hget Hk) as [k1 [H1 [Hr1 Hdec]]].
    cbn [Euclid.constructions].
    apply (IH _ k1 H1); [lia | exact Hall' |].
    cbn [length] in Hlen.
    destruct (Z.eq_dec k 0) as [->|Hpos]; [lia|].
    specialize (Hdec Hc ltac:(lia)). lia.
Qed.

(** The module as loaded (four exposures) and four constructions with
    coadd_years = 5. *)
Lemma Euclid_num_exposures_exhausted_witness :
  py.get (Euclid.constructions Euclid.VIS_obs [5; 5; 5; 5]%Z) "num_exposures"
  = Some (py.Int 0).
Proof.
  apply (@Euclid_num_exposures_exhausted Euclid.VIS_obs 4 [5; 5; 5; 5]%Z eq_refl).
  - lia.
  - repeat constructor; lia.
  - simpl. lia.
Defined.

(** * Instrument and observation *)

Import observation_api.

(** [update_observation] without arguments changes nothing; two updates
    in a row are one update in which, argument by argument, the later value
    wins where one is given; and after an update the summed exposure time
    is computed from the new values. *)
Theorem update_observation_composes (self : Observation)
        (t1 s1 g1 t2 s2 g2 : option Qc) (n1 n2 : option Z) (p1 p2 : option string)
        (k1 k2 : option np.matrix) :
  update_observation self None None None None None None = self /\
  update_observation (update_observation self t1 s1 g1 n1 p1 k1) t2 s2 g2 n2 p2 k2
  = update_observation self (updated_opt t2 t1) (updated_opt s2 s1) (updated_opt g2 g1)
                       (updated_opt n2 n1) (updated_opt p2 p1) (updated_opt k2 k1) /\
  update_observation (update_observation self t1 s1 g1 n1 p1 k1) t1 s1 g1 n1 p1 k1
  = update_observation self t1 s1 g1 n1 p1 k1 /\
  exposure_time (update_observation self t1 s1 g1 n1 p1 k1)
  = (updated t1 (_exposure_time self)
     * Q2Qc (inject_Z (updated n1 (_num_exposures self))))%Qc.
Proof.
  split; [destruct self; reflexivity|].
  split; [|split; [|reflexivity]].
  - unfold update_observation; cbn.
    destruct t1, t2, s1, s2, g1, g2, n1, n2, p1, p2, k1, k2; reflexivity.
  - unfold update_observation; cbn.
    destruct t1, s1, g1, n1, p1, k1; reflexivity.
Qed.

Lemma psf_kwargs_throws (self : Observation) :
  (exists e, psf_kwargs self = py.Throw e)
  <-> (_psf_type self = "PIXEL"%string /\ _kernel_point_source self = None)
      \/ (_psf_type self <> "GAUSSIAN"%string /\ _psf_type self <> "PIXEL"%string
          /\ _psf_type self <> "NONE"%string).
Proof.
  unfold psf_kwargs.
  destruct (String.eqb_spec (_psf_type self) "GAUSSIAN") as [Hg|Hg].
  { split; [intros [e H]; discriminate|].
    intros [[Hp _]|[H _]]; [rewrite Hg in Hp; discriminate | contradiction]. }
  destruct (String.eqb_spec (_psf_type self) "PIXEL") as [Hp|Hp].
  { destruct (_kernel_point_source self).
    - split; [intros [e H]; discriminate|].
      intros [[_ H]|[_ [H _]]]; [discriminate | contradiction].
    - split; [intros _; left; auto | intros _; eexists; reflexivity]. }
  destruct (String.eqb_spec (_psf_type self) "NONE") as [Hn|Hn].
  { split; [intros [e H]; discriminate|].
    intros [[H _]|[_ [_ H]]]; contradiction. }
  split; [intros _; right; auto | intros _; eexists; reflexivity].
Qed.

Lemma psf_kwargs_value_error (self : Observation) (e : py.exception) :
  psf_kwargs self = py.Throw e -> exists msg, e = py.ValueError msg.
Proof.
  unfold psf_kwargs.
  destruct (String.eqb (_psf_type self) "GAUSSIAN"); [discriminate|].
  destruct (String.eqb (_psf_type self) "PIXEL").
  { destruct (_kernel_point_source self); [discriminate|].
    intros H; inversion H. eexists; reflexivity. }
  destruct (String.eqb (_psf_type self) "NONE"); [discriminate|].
  intros H; inversion H. eexists; reflexivity.
Qed.

(** [psf_class] raises ValueError on its own, whatever the constructor
    [PSF] would do, exactly when the PSF type is 'PIXEL' and no kernel is
    stored or when the type is none of 'GAUSSIAN', 'PIXEL', 'NONE'.  In every
    other case its outcome is the outcome of [PSF] on the keyword arguments
    of the stored type: for 'GAUSSIAN' the stored seeing as [fwhm], be it
    None, and the truncation; for 'PIXEL' the stored kernel; for 'NONE'
    nothing more.  After an update to 'PIXEL' together with a kernel it is
    the outcome of [PSF] on that kernel, whereas an update to 'PIXEL' alone
    on an observation without kernel makes [psf_class] raise ValueError. *)
Theorem psf_class_errors (PSF_instance : Type)
        (PSF : kwargs_psf -> py.outcome PSF_instance)
        (self : Observation) (kernel : np.matrix) :
  let refused :=
    (_psf_type self = "PIXEL"%string /\ _kernel_point_source self = None)
    \/ (_psf_type self <> "GAUSSIAN"%string /\ _psf_type self <> "PIXEL"%string
        /\ _psf_type self <> "NONE"%string) in
  (refused -> exists msg, psf_class PSF self = py.Throw (py.ValueError msg)) /\
  ((forall (T : Type) (P : kwargs_psf -> py.outcome T),
       exists e, psf_class P self = py.Throw e) <-> refused) /\
  (_psf_type self = "GAUSSIAN"%string ->
   psf_class PSF self = PSF (GAUSSIAN (_seeing self) (_truncation self))) /\
  (forall k, _psf_type self = "PIXEL"%string -> _kernel_point_source self = Some k ->
             psf_class PSF self = PSF (PIXEL k)) /\
  (_psf_type self = "NONE"%string -> psf_class PSF self = PSF NONE) /\
  psf_class PSF (update_observation self None None None None (Some "PIXEL"%string)
                                    (Some kernel))
  = PSF (PIXEL kernel) /\
  (_kernel_point_source self = None ->
   exists msg,
     psf_class PSF (update_observation self None None None None
                                       (Some "PIXEL"%string) None)
     = py.Throw (py.ValueError msg)).
Proof.
  intro refused.
  split; [|split; [|split; [|split; [|split; [|split]]]]].
  - intro Href. apply psf_kwargs_throws in Href. destruct Href as [e He].
    destruct (psf_kwargs_value_error _ He) as [msg ->].
    exists msg. unfold psf_class. now rewrite He.
  - split.
    + intro Hall. apply psf_kwargs_throws.
      destruct (Hall kwargs_psf (fun kw => py.Return kw)) as [e He].
      exists e. unfold psf_class in He. now destruct (psf_kwargs self).
    + intros Href T P. apply psf_kwargs_throws in Href. destruct Href as [e He].
      exists e. unfold psf_class. now rewrite He.
  - intro Hg. unfold psf_class, psf_kwargs. now rewrite Hg.
  - intros k Hp Hk. unfold psf_class, psf_kwargs. now rewrite Hp, Hk.
  - intro Hn. unfold psf_class, psf_kwargs. now rewrite Hn.
  - reflexivity.
  - intros Hk. unfold psf_class. cbn. rewrite Hk. eexists. reflexivity.
Qed.

(** An observation with a Gaussian PSF, no seeing and no kernel, and a
    constructor that refuses a Gaussian PSF without [fwhm]: [psf_class]
    hands the missing seeing on and its outcome is the refusal of [PSF];
    after an update to 'PIXEL' alone it raises by itself. *)
Lemma psf_class_errors_witness :
  psf_class (fun kw => match kw with
                       | GAUSSIAN None _ => py.Throw (py.ValueError "fwhm is required")
                       | _ => py.Return kw
                       end)
            (Observation__init__ (Q2Qc 90) None None 1 "GAUSSIAN" None (Q2Qc 5))
  = py.Throw (py.ValueError "fwhm is required") /\
  exists msg,
    psf_class (fun kw => match kw with
                         | GAUSSIAN None _ => py.Throw (py.ValueError "fwhm is required")
                         | _ => py.Return kw
                         end)
              (update_observation
                 (Observation__init__ (Q2Qc 90) None None 1 "GAUSSIAN" None (Q2Qc 5))
                 None None None None (Some "PIXEL"%string) None)
    = py.Throw (py.ValueError msg).
Proof.
  destruct (@psf_class_errors kwargs_psf
              (fun kw => match kw with
                         | GAUSSIAN None _ => py.Throw (py.ValueError "fwhm is required")
                         | _ => py.Return kw
                         end)
              (Observation__init__ (Q2Qc 90) None None 1 "GAUSSIAN" None (Q2Qc 5)) [])
    as [_ [_ [Hg [_ [_ [_ Hupd]]]]]].
  split.
  - rewrite Hg by reflexivity. reflexivity.
  - apply Hupd. reflexivity.
Defined.

Lemma Qc_eq_bool_false (x y : Qc) : x <> y -> Qc_eq_bool x y = false.
Proof.
  intros H. unfold Qc_eq_bool. destruct (Qc_eq_dec x y); [contradiction | reflexivity].
Qed.

(** The constructor of [SingleBand] accepts the count units 'e-' and 'ADU'
    only.  [read_noise] raises ValueError without a read noise; in the unit
    'ADU' it divides by the gain, which raises TypeError without a gain and
    ZeroDivisionError for a gain of 0; [scaled_exposure_time] multiplies by
    the gain in 'ADU'.  Whenever both return, their product is the read
    noise in electrons times the summed exposure time, in either unit. *)
Theorem SingleBand_units (self : SingleBand) (rn v t : Qc) :
  (forall ps et mz r g sb se ne pt k tr unit bn,
      (exists b, SingleBand__init__ ps et mz r g sb se ne pt k tr unit bn = py.Return b)
      <-> unit = "e-"%string \/ unit = "ADU"%string) /\
  (_read_noise (instrument self) = None ->
   exists msg, read_noise self = py.Throw (py.ValueError msg)) /\
  (_read_noise (instrument self) = Some rn -> _data_count_unit self = "ADU"%string ->
   (ccd_gain (instrument self) = None -> read_noise self = py.Throw py.TypeError) /\
   (ccd_gain (instrument self) = Some 0%Qc ->
    read_noise self = py.Throw py.ZeroDivisionError)) /\
  (read_noise self = py.Return v -> scaled_exposure_time self = py.Return t ->
   exists rn0,
     _read_noise (instrument self) = Some rn0 /\
     (v * t)%Qc = (rn0 * exposure_time (observation self))%Qc).
Proof.
  split; [|split; [|split]].
  - intros. unfold SingleBand__init__.
    destruct (String.eqb_spec unit "e-") as [He|He]; cbn [orb].
    { split; [auto | intros _; eexists; reflexivity]. }
    destruct (String.eqb_spec unit "ADU") as [Ha|Ha].
    { split; [auto | intros _; eexists; reflexivity]. }
    split; [intros [b H]; discriminate | intros [H|H]; contradiction].
  - intros Hrn. unfold read_noise. rewrite Hrn. eexists. reflexivity.
  - intros Hrn Hunit. unfold read_noise. rewrite Hrn, Hunit. cbn [String.eqb Ascii.eqb Bool.eqb].
    split; intros ->; reflexivity.
  - unfold read_noise, scaled_exposure_time.
    destruct (_read_noise (instrument self)) as [rn0|]; [|discriminate].
    destruct (String.eqb (_data_count_unit self) "ADU").
    + unfold truediv, mul.
      destruct (ccd_gain (instrument self)) as [g|]; [|discriminate].
      destruct (Qc_eq_bool g 0) eqn:Eg; [discriminate|].
      intros Hv Ht. exists rn0. split; [reflexivity|].
      assert (Hg : g <> 0%Qc).
      { intros ->. rewrite Qc_eq_bool_refl in Eg. discriminate. }
      injection Hv as <-. injection Ht as <-.
      field. exact Hg.
    + intros Hv Ht. exists rn0. split; [reflexivity|].
      injection Hv as <-. injection Ht as <-. reflexivity.
Qed.

(** A band in ADU with gain 2, read noise 10, 90 seconds twice. *)
Lemma SingleBand_units_witness :
  exists b,
    SingleBand__init__ (Q2Qc (1 # 10)) (Q2Qc 90) (Q2Qc 25) (Some (Q2Qc 10))
                       (Some (Q2Qc 2)) None None 2 "GAUSSIAN" None (Q2Qc 5) "ADU" None
    = py.Return b /\
    exists v t,
      read_noise b = py.Return v /\ scaled_exposure_time b = py.Return t /\
      (v * t)%Qc = (Q2Qc 10 * exposure_time (observation b))%Qc.
Proof.
  eexists. split; [reflexivity|].
  do 2 eexists. split; [reflexivity|]. split; [reflexivity|].
  match goal with
  | |- (?v * ?t)%Qc = _ =>
      destruct (@SingleBand_units
                  {| instrument := Instrument__init__ (Q2Qc (1 # 10)) (Some (Q2Qc 10))
                                                       (Some (Q2Qc 2));
                     observation := Observation__init__ (Q2Qc 90) None None 2
                                                        "GAUSSIAN" None (Q2Qc 5);
                     _data_count_unit := "ADU";
                     _background_noise := None;
                     _magnitude_zero_point := Q2Qc 25 |}
                  (Q2Qc 10) v t) as [_ [_ [_ H]]]
  end.
  destruct (H eq_refl eq_refl) as [rn0 [Hrn Hprod]].
  inversion Hrn; subst. exact Hprod.
Defined.

Section BackgroundNoise.

Variable data_util_magnitude2cps : Qc -> Qc -> Qc.
Variable data_util_bkg_noise : Qc -> Qc -> Qc -> Qc -> Z -> Qc.

(** A background noise given to the constructor is what [background_noise]
    returns, whatever else is set or missing, with a warning exactly when a
    read noise is given too.  Without it, [background_noise] returns only if
    both [read_noise] and [sky_brightness] return, and raises ValueError
    when no read noise is stored. *)
Theorem background_noise_precedence (self : SingleBand) :
  (forall b, _background_noise self = Some b ->
     snd (background_noise data_util_magnitude2cps data_util_bkg_noise self)
     = py.Return b /\
     (fst (background_noise data_util_magnitude2cps data_util_bkg_noise self) = []
      <-> _read_noise (instrument self) = None)) /\
  (_background_noise self = None ->
   ((exists v, snd (background_noise data_util_magnitude2cps data_util_bkg_noise self)
               = py.Return v)
    <-> (exists rn sky, read_noise self = py.Return rn /\
                        sky_brightness data_util_magnitude2cps self = py.Return sky)) /\
   (_read_noise (instrument self) = None ->
    exists msg,
      snd (background_noise data_util_magnitude2cps data_util_bkg_noise self)
      = py.Throw (py.ValueError msg))).
Proof.
  unfold background_noise. split.
  - intros b ->. split; [reflexivity|].
    destruct (_read_noise (instrument self)); cbn [fst]; split;
      intros H; try discriminate; reflexivity.
  - intros ->. split.
    + unfold read_noise.
      destruct (_read_noise (instrument self)) as [rn0|] eqn:Hrn.
      * fold (read_noise self).
        assert (Hfold : (if String.eqb (_data_count_unit self) "ADU"
                         then truediv (Some rn0) (ccd_gain (instrument self))
                         else py.Return rn0) = read_noise self)
          by (unfold read_noise; now rewrite Hrn).
        rewrite Hfold.
        destruct (read_noise self) as [rn|e]; cbn [snd].
        -- destruct (sky_brightness data_util_magnitude2cps self) as [sky|e]; cbn [snd].
           ++ split; [intros _; do 2 eexists; split; reflexivity
                     | intros _; eexists; reflexivity].
           ++ split; [intros [v H]; discriminate
                     | intros [r [s [_ H]]]; discriminate].
        -- split; [intros [v H]; discriminate | intros [r [s [H _]]]; discriminate].
      * cbn [snd].
        split; [intros [v H]; discriminate | intros [r [s [H _]]]; discriminate].
    + intros ->. eexists. reflexivity.
Qed.

End BackgroundNoise.

(** A band with a background noise of 3 and a read noise, but neither gain
    nor sky brightness. *)
Lemma background_noise_precedence_witness :
  snd (background_noise (fun m z => m) (fun r t s p n => r)
         {| instrument := Instrument__init__ (Q2Qc (1 # 10)) (Some (Q2Qc 10)) None;
            observation := Observation__init__ (Q2Qc 90) None None 2
                                               "GAUSSIAN" None (Q2Qc 5);
            _data_count_unit := "ADU";
            _background_noise := Some (Q2Qc 3);
            _magnitude_zero_point := Q2Qc 25 |})
  = py.Return (Q2Qc 3).
Proof.
  apply (@background_noise_precedence (fun m z => m) (fun r t s p n => r)
           {| instrument := Instrument__init__ (Q2Qc (1 # 10)) (Some (Q2Qc 10)) None;
              observation := Observation__init__ (Q2Qc 90) None None 2
                                                 "GAUSSIAN" None (Q2Qc 5);
              _data_count_unit := "ADU";
              _background_noise := Some (Q2Qc 3);
              _magnitude_zero_point := Q2Qc 25 |}).
  reflexivity.
Defined.

(** * The kinematic likelihood *)

Import kinematic.

Lemma isfinite_add (a b : float64) :
  isfinite (add a b) = isfinite a && isfinite b.
Proof. destruct a, b; reflexivity. Qed.

Lemma isfinite_neg (a : float64) : isfinite (neg a) = isfinite a.
Proof. destruct a; reflexivity. Qed.

Lemma isfinite_fold_add (l : list float64) (acc : float64) :
  isfinite (fold_left add l acc) = isfinite acc && forallb isfinite l.
Proof.
  revert acc. induction l as [|x l IH]; intro acc; simpl.
  - now rewrite andb_true_r.
  - rewrite IH, isfinite_add, andb_assoc. reflexivity.
Qed.

Lemma isfinite_sum (l : list float64) :
  isfinite (sum l) = forallb isfinite l.
Proof. unfold sum. now rewrite isfinite_fold_add. Qed.

Lemma Qc_nonneg_plus (a b : Qc) : (0 <= a -> 0 <= b -> 0 <= a + b)%Qc.
Proof.
  intros Ha Hb. replace 0%Qc with (0 + 0)%Qc by ring.
  now apply Qcplus_le_compat.
Qed.

Lemma Qc_nonneg_mult (a b : Qc) : (0 <= a -> 0 <= b -> 0 <= a * b)%Qc.
Proof.
  unfold Qcle. intros Ha Hb.
  assert (E : (this (a * b)%Qc == this a * this b)%Q) by apply Qred_correct.
  rewrite E. now apply Qmult_le_0_compat.
Qed.

Lemma Qc_nonneg_square (a : Qc) : (0 <= a * a)%Qc.
Proof.
  unfold Qcle.
  assert (E : (this (a * a)%Qc == this a * this a)%Q) by apply Qred_correct.
  rewrite E. destruct a as [[n d] Hc]. unfold Qle. simpl. nia.
Qed.

Lemma Qc_nonneg_inv (a : Qc) : (0 <= a -> 0 <= / a)%Qc.
Proof.
  unfold Qcle. intros Ha.
  assert (E : (this (/ a)%Qc == / this a)%Q) by apply Qred_correct.
  rewrite E. now apply Qinv_le_0_compat.
Qed.

Lemma fold_add_nonneg (l : list float64) (a s : Qc) :
  (forall x, In x l -> forall q, x = Fin q -> (0 <= q)%Qc) ->
  (0 <= a)%Qc ->
  fold_left add l (Fin a) = Fin s -> (0 <= s)%Qc.
Proof.
  revert a. induction l as [|x l IH]; intros a Hl Ha; simpl.
  - intros [= <-]. exact Ha.
  - destruct x as [q| | |]; simpl.
    + apply IH.
      * intros x Hx. apply Hl. now right.
      * apply Qc_nonneg_plus; [exact Ha|]. apply (Hl (Fin q)); [now left|reflexivity].
    + intro H. pose proof (isfinite_fold_add l PInf) as E. rewrite H in E. discriminate.
    + intro H. pose proof (isfinite_fold_add l NInf) as E. rewrite H in E. discriminate.
    + intro H. pose proof (isfinite_fold_add l NaN) as E. rewrite H in E. discriminate.
Qed.

Lemma sign_eq (x : Qc) : sign x = Eq -> x = 0%Qc.
Proof. unfold sign. intro H. now apply Qceq_alt. Qed.

(** A finite quotient of two squares is not negative. *)
Lemma truediv_squares_nonneg (a b : float64) (q : Qc) :
  truediv (square a) (square b) = Fin q -> (0 <= q)%Qc.
Proof.
  destruct a as [x| | |], b as [y| | |]; simpl; try discriminate.
  - destruct (sign (y * y)); [destruct (sign (x * x)); discriminate| |];
      intros [= <-]; unfold Qcdiv;
      (apply Qc_nonneg_mult; [apply Qc_nonneg_square | apply Qc_nonneg_inv, Qc_nonneg_square]).
  - intros [= <-]. apply Qcle_refl.
  - intros [= <-]. apply Qcle_refl.
  - destruct (sign (y * y)); discriminate.
  - destruct (sign (y * y)); discriminate.
Qed.

Lemma broadcast_entries (op : float64 -> float64 -> float64) (a b l : list float64) :
  broadcast op a b = py.Return l ->
  forall x, In x l -> exists u v, In u a /\ In v b /\ x = op u v.
Proof.
  unfold broadcast.
  destruct (length a =? length b)%nat eqn:E.
  - intros [= <-] x Hx. revert b E Hx.
    induction a as [|u a IH]; intros [|v b] E Hx; simpl in *; try contradiction; try discriminate.
    destruct Hx as [<-|Hx].
    + exists u, v. auto.
    + destruct (IH b E Hx) as [u' [v' [Hu [Hv ->]]]]. exists u', v'. auto.
  - destruct a as [|u [|u' a]].
    + destruct b as [|v [|v' b]]; try discriminate.
      intros [= <-] x [].
    + intros [= <-] x Hx. apply in_map_iff in Hx. destruct Hx as [v [<- Hv]].
      exists u, v. simpl. auto.
    + destruct b as [|v [|v' b]]; try discriminate.
      intros [= <-] x Hx.
      change (In x (map (fun x => op x v) (u :: u' :: a))) in Hx.
      apply in_map_iff in Hx. destruct Hx as [w [<- Hw]].
      exists w, v. simpl. auto.
Qed.

Lemma Qc_half_nonpos (s : Qc) : (0 <= s -> - s / Q2Qc 2 <= 0)%Qc.
Proof.
  intro Hs.
  replace (- s / Q2Qc 2)%Qc with (- (s * / Q2Qc 2))%Qc by (unfold Qcdiv; ring).
  replace 0%Qc with (- 0)%Qc by ring.
  apply Qcopp_le_compat. apply Qc_nonneg_mult; [exact Hs|].
  apply Qc_nonneg_inv. unfold Qcle. simpl. unfold Qle. simpl. lia.
Qed.

(** Whatever the arrays hold, a value that [_logL] returns is a finite number
    that is not positive: infinities and nan never leave the method. *)
Theorem logL_finite_nonpositive (self : KinLikelihood) (vrms : list float64)
    (r : float64) :
  _logL self vrms = py.Return r ->
  exists q, r = Fin q /\ (q <= 0)%Qc.
Proof.
  unfold _logL.
  destruct (broadcast sub vrms (data self)) as [d|e] eqn:Ed; [|discriminate].
  destruct (broadcast truediv (map square d) (map square (noise self)))
    as [ll|e] eqn:El; [|discriminate].
  cbv zeta.
  destruct (sum ll) as [s| | |] eqn:Es; simpl.
  - change (sign (Q2Qc 2)) with Gt. simpl.
    intros [= <-]. eexists. split; [reflexivity|].
    apply Qc_half_nonpos.
    unfold sum in Es.
    apply (@fold_add_nonneg ll 0%Qc s); [|apply Qcle_refl|exact Es].
    intros x Hx q ->.
    destruct (broadcast_entries _ _ _ El _ Hx) as [u [v [Hu [Hv E]]]].
    apply in_map_iff in Hu. destruct Hu as [u0 [<- _]].
    apply in_map_iff in Hv. destruct Hv as [v0 [<- _]].
    symmetry in E. now apply truediv_squares_nonneg in E.
  - change (sign (Q2Qc 2)) with Gt. simpl.
    intros [= <-]. eexists. split; [reflexivity|].
    unfold Qcle. simpl. unfold Qle. simpl. lia.
  - change (sign (Q2Qc 2)) with Gt. simpl.
    intros [= <-]. eexists. split; [reflexivity|].
    unfold Qcle. simpl. unfold Qle. simpl. lia.
  - intros [= <-]. eexists. split; [reflexivity|].
    unfold Qcle. simpl. unfold Qle. simpl. lia.
Qed.


Lemma isfinite_truediv_left (a b : float64) :
  isfinite a = false -> isfinite (truediv a b) = false.
Proof.
  destruct a as [x| | |]; try discriminate; intros _;
    destruct b as [y| | |]; simpl; try reflexivity;
    destruct (sign y); reflexivity.
Qed.

Lemma isfinite_square (a : float64) : isfinite (square a) = isfinite a.
Proof. destruct a; reflexivity. Qed.

Lemma isfinite_sub (a b : float64) :
  isfinite (sub a b) = isfinite a && isfinite b.
Proof. unfold sub. now rewrite isfinite_add, isfinite_neg. Qed.

Lemma sign_square_zero : sign (0 * 0) = Eq.
Proof. reflexivity. Qed.

(** A bin is lost when its noise is zero or nan, or when its model value or
    its datum is not finite. *)
Lemma term_not_finite (v d n : float64) :
  n = Fin 0 \/ n = NaN \/ isfinite v = false \/ isfinite d = false ->
  isfinite (truediv (square (sub v d)) (square n)) = false.
Proof.
  intros [->|[->|H]].
  - destruct (square (sub v d)) as [x| | |]; simpl; try reflexivity.
    change (sign (0 * 0)) with Eq. cbv iota. destruct (sign x); reflexivity.
  - destruct (square (sub v d)); reflexivity.
  - apply isfinite_truediv_left. rewrite isfinite_square, isfinite_sub.
    destruct H as [-> | ->]; [reflexivity | apply andb_false_r].
Qed.

Lemma zip_with_In {A B C : Type} (f : A -> B -> C) (d : A) (e : B) :
  forall (la : list A) (lb : list B) (i : nat),
    i < length la -> i < length lb ->
    In (f (nth i la d) (nth i lb e)) (np.zip_with f la lb).
Proof.
  induction la as [|a la IH]; intros [|b lb] i Ha Hb; simpl in *; try lia.
  destruct i as [|i]; [now left|right]. apply IH; lia.
Qed.

Lemma zip_with_nth {A B C : Type} (f : A -> B -> C) (d : A) (e : B) (c : C) :
  forall (la : list A) (lb : list B) (i : nat),
    i < length la -> i < length lb ->
    nth i (np.zip_with f la lb) c = f (nth i la d) (nth i lb e).
Proof.
  induction la as [|a la IH]; intros [|b lb] i Ha Hb; simpl in *; try lia.
  destruct i as [|i]; [reflexivity|]. apply IH; lia.
Qed.

Lemma zip_with_length {A B C : Type} (f : A -> B -> C) :
  forall (la : list A) (lb : list B),
    length la = length lb -> length (np.zip_with f la lb) = length la.
Proof.
  induction la as [|a la IH]; intros [|b lb] H; simpl in *; try lia.
  rewrite IH; lia.
Qed.

Lemma forallb_false_In {A : Type} (p : A -> bool) (l : list A) (x : A) :
  In x l -> p x = false -> forallb p l = false.
Proof.
  intros Hx Hp. destruct (forallb p l) eqn:E; [|reflexivity].
  rewrite forallb_forall in E. rewrite (E x Hx) in Hp. discriminate.
Qed.

Lemma logL_of_terms (self : KinLikelihood) (vrms d log_like : list float64) :
  broadcast sub vrms (data self) = py.Return d ->
  broadcast truediv (map square d) (map square (noise self)) = py.Return log_like ->
  _logL self vrms
  = py.Return (if forallb isfinite log_like
               then truediv (neg (sum log_like)) (Fin (Q2Qc 2))
               else sentinel).
Proof.
  intros Hd Hl. unfold _logL. rewrite Hd, Hl. cbv zeta.
  pose proof (isfinite_sum log_like) as E.
  destruct (sum log_like) as [s| | |]; simpl in *; rewrite <- E;
    try reflexivity.
Qed.

(** With one value per bin in the model, the data and the noise, a single
    bin whose noise is zero or nan, or whose model value or datum is not
    finite, makes [_logL] return the number -10^15, whatever the other bins
    hold. *)
Theorem logL_lost_bin (self : KinLikelihood) (vrms : list float64) (i : nat) :
  length vrms = length (data self) ->
  length (noise self) = length (data self) ->
  i < length (data self) ->
  nth i (noise self) NaN = Fin 0 \/ nth i (noise self) NaN = NaN \/
  isfinite (nth i vrms NaN) = false \/ isfinite (nth i (data self) NaN) = false ->
  _logL self vrms = py.Return sentinel.
Proof.
  intros Hv Hn Hi H.
  assert (Hd : broadcast sub vrms (data self)
               = py.Return (np.zip_with sub vrms (data self))).
  { unfold broadcast. rewrite Hv, Nat.eqb_refl. reflexivity. }
  assert (Hl : broadcast truediv (map square (np.zip_with sub vrms (data self)))
                 (map square (noise self))
               = py.Return (np.zip_with truediv
                              (map square (np.zip_with sub vrms (data self)))
                              (map square (noise self)))).
  { unfold broadcast. rewrite !length_map, zip_with_length, Hv, Hn, Nat.eqb_refl by exact Hv.
    reflexivity. }
  rewrite (logL_of_terms _ _ Hd Hl).
  rewrite (@forallb_false_In _ isfinite _
             (truediv (square (sub (nth i vrms NaN) (nth i (data self) NaN)))
                      (square (nth i (noise self) NaN)))); [reflexivity| |].
  - pose proof (@zip_with_In _ _ _ truediv (square NaN) (square NaN)
                  (map square (np.zip_with sub vrms (data self)))
                  (map square (noise self)) i) as Hin.
    rewrite !length_map, zip_with_length in Hin by exact Hv.
    specialize (Hin ltac:(lia) ltac:(lia)).
    rewrite !map_nth in Hin.
    rewrite (@zip_with_nth _ _ _ sub NaN NaN) in Hin by lia.
    exact Hin.
  - now apply term_not_finite.
Qed.

(** The noise and datum of the second bin of two are fine, the noise of the
    first is zero. *)
Lemma logL_lost_bin_witness :
  _logL {| data := [Fin (Q2Qc 200); Fin (Q2Qc 210)];
           noise := [Fin 0; Fin (Q2Qc 5)] |}
        [Fin (Q2Qc 201); Fin (Q2Qc 210)]
  = py.Return sentinel.
Proof.
  apply (@logL_lost_bin
           {| data := [Fin (Q2Qc 200); Fin (Q2Qc 210)];
              noise := [Fin 0; Fin (Q2Qc 5)] |}
           [Fin (Q2Qc 201); Fin (Q2Qc 210)] 0).
  - reflexivity.
  - reflexivity.
  - simpl. lia.
  - left. reflexivity.
Defined.

Lemma logL_finite_nonpositive_witness :
  exists q, Fin (Q2Qc (- 1 # 50)) = Fin q /\ (q <= 0)%Qc.
Proof.
  apply (@logL_finite_nonpositive
           {| data := [Fin (Q2Qc 200); Fin (Q2Qc 210)];
              noise := [Fin (Q2Qc 5); Fin (Q2Qc 5)] |}
           [Fin (Q2Qc 201); Fin (Q2Qc 210)]).
  vm_compute. reflexivity.
Defined.

(** *** Finite arrays *)

Lemma zip_with_map_Fin (op : float64 -> float64 -> float64) (f : Qc -> Qc -> Qc)
    (P : Qc -> Prop) :
  (forall x y, P y -> op (Fin x) (Fin y) = Fin (f x y)) ->
  forall xs ys, Forall P ys ->
    np.zip_with op (map Fin xs) (map Fin ys) = map Fin (np.zip_with f xs ys).
Proof.
  intros Hop. induction xs as [|x xs IH]; intros [|y ys] Hys; simpl; try reflexivity.
  inversion Hys; subst. rewrite Hop, IH by assumption. reflexivity.
Qed.

Lemma sign_nonzero (x : Qc) : x <> 0%Qc -> sign x <> Eq.
Proof. intros H E. apply H. now apply Qceq_alt. Qed.

Lemma truediv_Fin (x y : Qc) :
  y <> 0%Qc -> truediv (Fin x) (Fin y) = Fin (x / y).
Proof.
  intro H. simpl. pose proof (sign_nonzero H) as Hs.
  destruct (sign y); [contradiction| |]; reflexivity.
Qed.

Lemma square_nonzero (n : Qc) : n <> 0%Qc -> (n * n)%Qc <> 0%Qc.
Proof.
  intros H E. destruct (Qcmult_integral _ _ E); contradiction.
Qed.

Lemma fold_add_Fin (l : list Qc) (a : Qc) :
  fold_left add (map Fin l) (Fin a) = Fin (fold_left Qcplus l a).
Proof.
  revert a. induction l as [|x l IH]; intro a; simpl; [reflexivity|apply IH].
Qed.

Lemma terms_unfold (vs ds ns : list Qc) :
  np.zip_with Qcdiv (map (fun x => x * x)%Qc (np.zip_with Qcminus vs ds))
              (map (fun x => x * x)%Qc ns)
  = terms vs ds ns.
Proof.
  unfold terms. revert ds ns.
  induction vs as [|v vs IH]; intros [|d ds] [|n ns]; simpl; try reflexivity.
  now rewrite IH.
Qed.

(** On finite arrays of one length with no zero noise, [_logL] is minus half
    of the chi-square. *)
Lemma logL_finite_arrays (vs ds ns : list Qc) :
  length vs = length ds -> length ns = length ds ->
  Forall (fun n => n <> 0%Qc) ns ->
  _logL {| data := map Fin ds; noise := map Fin ns |} (map Fin vs)
  = py.Return (Fin (- chi2 vs ds ns / Q2Qc 2)).
Proof.
  intros Hv Hn Hns.
  assert (Hd : broadcast sub (map Fin vs) (map Fin ds)
               = py.Return (map Fin (np.zip_with Qcminus vs ds))).
  { unfold broadcast. rewrite !length_map, Hv, Nat.eqb_refl.
    rewrite (@zip_with_map_Fin sub Qcminus (fun _ => True)); [reflexivity| |].
    - intros x y _. reflexivity.
    - apply Forall_forall. intros; exact I. }
  assert (Hsq : forall l, map square (map Fin l) = map Fin (map (fun x => x * x)%Qc l)).
  { intro l. rewrite !map_map. reflexivity. }
  assert (Hl : broadcast truediv (map square (map Fin (np.zip_with Qcminus vs ds)))
                 (map square (map Fin ns))
               = py.Return (map Fin (terms vs ds ns))).
  { unfold broadcast. rewrite !length_map, zip_with_length, Hv, Hn, Nat.eqb_refl by exact Hv.
    rewrite !Hsq.
    rewrite (@zip_with_map_Fin truediv Qcdiv (fun y => y <> 0%Qc)).
    - now rewrite terms_unfold.
    - intros x y Hy. now apply truediv_Fin.
    - apply Forall_forall. intros y Hy. apply in_map_iff in Hy.
      destruct Hy as [n [<- Hin]]. apply square_nonzero.
      rewrite Forall_forall in Hns. now apply Hns. }
  unfold _logL. cbn [data noise]. rewrite Hd, Hl. cbv zeta.
  unfold sum. rewrite fold_add_Fin.
  cbn [neg]. rewrite truediv_Fin; [reflexivity|].
  intro E. discriminate E.
Qed.

Lemma fold_left_zeros (l : list Qc) (a : Qc) :
  Forall (fun t => t = 0%Qc) l -> fold_left Qcplus l a = a.
Proof.
  revert a. induction l as [|x l IH]; intros a H; simpl; [reflexivity|].
  inversion H; subst. rewrite IH by assumption. ring.
Qed.

Lemma terms_perfect (ds ns : list Qc) :
  Forall (fun n => n <> 0%Qc) ns ->
  Forall (fun t => t = 0%Qc) (terms ds ds ns).
Proof.
  revert ns. induction ds as [|d ds IH]; intros [|n ns] H; simpl; try constructor.
  - inversion H; subst. field. assumption.
  - inversion H; subst. now apply IH.
Qed.

Lemma rounds_to_nonzero_square (n : Qc) : rounds_to_nonzero (n * n) -> n <> 0%Qc.
Proof.
  unfold rounds_to_nonzero. intros H ->.
  revert H. apply Qcle_not_lt. unfold Qcle. simpl. unfold Qle. simpl. lia.
Qed.

Lemma Forall_nonzero (ns : list Qc) :
  Forall (fun n => rounds_to_nonzero (n * n)) ns -> Forall (fun n => n <> 0%Qc) ns.
Proof.
  apply Forall_impl. intros n. apply rounds_to_nonzero_square.
Qed.

(** When the model reproduces finite data bin by bin and the square of no
    noise is rounded to zero, [_logL] returns 0, the largest number it can
    return.  (A noise whose square overflows gives the term 0 / inf = 0 in
    the code, as a finite square does.) *)
Theorem logL_perfect_fit (ds ns : list Qc) :
  length ns = length ds ->
  Forall (fun n => rounds_to_nonzero (n * n)) ns ->
  _logL {| data := map Fin ds; noise := map Fin ns |} (map Fin ds)
  = py.Return (Fin 0).
Proof.
  intros Hn Hns. apply Forall_nonzero in Hns.
  rewrite logL_finite_arrays by (assumption || reflexivity).
  unfold chi2. rewrite fold_left_zeros by now apply terms_perfect.
  do 2 f_equal. apply Qc_is_canon. reflexivity.
Qed.

Lemma logL_perfect_fit_witness :
  _logL {| data := map Fin [Q2Qc 200; Q2Qc 210];
           noise := map Fin [Q2Qc 5; Q2Qc 7] |} (map Fin [Q2Qc 200; Q2Qc 210])
  = py.Return (Fin 0).
Proof.
  apply (@logL_perfect_fit [Q2Qc 200; Q2Qc 210] [Q2Qc 5; Q2Qc 7]).
  - reflexivity.
  - repeat constructor; vm_compute; reflexivity.
Defined.

Lemma qz_plus (a b : Z) : qz (a + b) = (qz a + qz b)%Qc.
Proof.
  unfold qz, Qcplus. apply Qc_is_canon. cbn [this Q2Qc].
  rewrite !Qred_correct, inject_Z_plus. reflexivity.
Qed.

Lemma qz_mult (a b : Z) : qz (a * b) = (qz a * qz b)%Qc.
Proof.
  unfold qz, Qcmult. apply Qc_is_canon. cbn [this Q2Qc].
  rewrite !Qred_correct, inject_Z_mult. reflexivity.
Qed.

Lemma qz_nonzero (a : Z) : a <> 0%Z -> qz a <> 0%Qc.
Proof.
  intros Ha E. apply Ha. unfold qz in E.
  apply (f_equal this) in E.
  change (Qred (inject_Z a) = Qred 0) in E.
  apply Qred_eq_iff in E. unfold Qeq in E. simpl in E. lia.
Qed.

(** The number -10^15 that stands for a value that is not finite is no lower
    bound of the values [_logL] returns.  Let the first bin hold an integer
    datum d0 and a non-zero integer noise n0, both of size 2^20 at most, and
    let the model be d0 + n0 2^27 there and equal to the data elsewhere, the
    square of no other noise being rounded to zero: [_logL] returns -2^53,
    which lies below -10^15, so this finite model ranks below one whose
    value is nan.  In this range every intermediate value is an integer of
    less than 53 bits times a power of two, which float64 holds exactly. *)
Theorem logL_below_sentinel (d0 n0 : Z) (ds ns : list Qc) :
  length ns = length ds ->
  (Z.abs d0 <= 2 ^ 20)%Z -> (1 <= Z.abs n0 <= 2 ^ 20)%Z ->
  Forall (fun n => rounds_to_nonzero (n * n)) ns ->
  _logL {| data := map Fin (qz d0 :: ds); noise := map Fin (qz n0 :: ns) |}
        (map Fin (qz (d0 + n0 * 2 ^ 27) :: ds))
  = py.Return (Fin (qz (- 2 ^ 53))) /\
  (qz (- 2 ^ 53) < Q2Qc (inject_Z (- 10 ^ 15)))%Qc.
Proof.
  intros Hn Hd0 Hn0 Hns. apply Forall_nonzero in Hns.
  assert (Hq : qz n0 <> 0%Qc) by (apply qz_nonzero; lia).
  split; [|vm_compute; reflexivity].
  rewrite logL_finite_arrays;
    [|simpl; reflexivity|simpl; now rewrite Hn|now constructor].
  do 2 f_equal.
  unfold chi2. cbn [terms np.zip_with fold_left].
  change (np.zip_with (fun r n : Qc => r / (n * n))
            (np.zip_with (fun v d : Qc => (v - d) * (v - d)) ds ds) ns)%Qc
    with (terms ds ds ns).
  rewrite fold_left_zeros by now apply terms_perfect.
  rewrite qz_plus, qz_mult.
  replace (0 + (qz d0 + qz n0 * qz (2 ^ 27) - qz d0)
               * (qz d0 + qz n0 * qz (2 ^ 27) - qz d0) / (qz n0 * qz n0))%Qc
    with (qz (2 ^ 27) * qz (2 ^ 27))%Qc
    by (field; assumption).
  apply Qc_is_canon. vm_compute. reflexivity.
Qed.

(** Data 200 and 210 with noises 5 and 7; the model of the first bin is
    200 + 5 2^27. *)
Lemma logL_below_sentinel_witness :
  _logL {| data := map Fin [qz 200; Q2Qc 210]; noise := map Fin [qz 5; Q2Qc 7] |}
        (map Fin [qz (200 + 5 * 2 ^ 27); Q2Qc 210])
  = py.Return (Fin (qz (- 2 ^ 53))) /\
  (qz (- 2 ^ 53) < Q2Qc (inject_Z (- 10 ^ 15)))%Qc.
Proof.
  apply (@logL_below_sentinel 200 5 [Q2Qc 210] [Q2Qc 7]).
  - reflexivity.
  - vm_compute. intro H; discriminate H.
  - vm_compute. split; intro H; discriminate H.
  - repeat constructor; vm_compute; reflexivity.
Defined.
